(** * Data ingestion API: batching, priority scheduling and status reporting

    A shallow embedding of [src/services/ingestionService.js] (the
    batch-granular [IngestionService], the class the module exports) and of
    the two routers [routes/ingest.js] and [routes/status.js].

    The JavaScript event loop runs every handler to completion; the only
    place where [processQueue] gives control back is the rate-limit
    [await].  The embedding therefore has one transition per synchronous
    segment of the program: an admission, the [setImmediate] callback, one
    turn of the [while] loop, the firing of the rate-limit timer and the
    completion callback of a batch. *)

From stdpp Require Import base numbers list strings gmap pretty sorting.
From Stdlib Require Import ZArith Lia.

#[local] Set Warnings "-clear-no-such-hyp".

Local Open Scope Z_scope.

(** ** Values that arrive in a request body *)

(** A JSON value after [express.json()].  A JavaScript number is either
    integer-valued ([JInt]) or not ([JNonInt]: a fraction, NaN or an
    infinity); [Number.isInteger] tells the two apart and the router
    compares a number with the bounds only after that test. *)
#[warnings="-register-all"]
Inductive JSValue :=
| JUndefined
| JNull
| JBool (b : bool)
| JInt (z : Z)
| JNonInt
| JString (s : string)
| JArray (elems : list JSValue)
| JObject (fields : list (string * JSValue)).

(** ** Data model of the service *)

Inductive Status := yet_to_start | triggered | completed.
Inductive Priority := HIGH | MEDIUM | LOW.

Global Instance Status_eq_dec : EqDecision Status.
Proof. solve_decision. Defined.
Global Instance Priority_eq_dec : EqDecision Priority.
Proof. solve_decision. Defined.

(** Timestamps are milliseconds, as in [Date]; subtracting two dates gives
    their difference in milliseconds. *)
Definition Time := Z.

(** [uuidv4()] is a supply of fresh names: the n-th draw of a run is the
    string [uuidv4 n].  Only the distinctness of the draws is used. *)
Definition Uuid := string.
Definition uuidv4 (n : nat) : Uuid := pretty n.

Record Batch := mkBatch {
  batchId : Uuid;
  ids : list JSValue;
  status : Status
}.

Record Ingestion := mkIngestion {
  ing_id : Uuid;
  ing_priority : Priority;
  batches : list Batch;
  ing_createdAt : Time;
  ing_status : Status
}.

(** An element of [batchQueue].  The [batch] back-reference stored in the
    item is never read by the service (the loop looks the batch up again by
    its id) and is left out. *)
Record QueueItem := mkQueueItem {
  ingestionId : Uuid;
  q_batchId : Uuid;
  priority : Priority;
  createdAt : Time
}.

Global Instance QueueItem_eq_dec : EqDecision QueueItem.
Proof. solve_decision. Defined.

(** The fields of the [IngestionService] object.  [processingPromise] only
    serves the test helper [waitForProcessing] and is not modelled. *)
Record Service := mkService {
  ingestions : gmap Uuid Ingestion;
  batchQueue : list QueueItem;
  isProcessing : bool
}.

Definition BATCH_SIZE : nat := 3.
Definition RATE_LIMIT_MS : Z := 5000.

Definition new_service : Service :=
  {| ingestions := ∅; batchQueue := []; isProcessing := false |}.

(** ** createBatches *)

(** [Array.prototype.slice(start, end)] on indices within [0, +inf). *)
Definition slice {A} (start end_ : nat) (l : list A) : list A :=
  take (end_ - start) (drop start l).

(** The [for (let i = 0; i < ids.length; i += BATCH_SIZE)] loop.  [u] is the
    number of uuids drawn so far, [acc] the array [batches].  The fuel
    bounds the number of turns; [createBatches] gives [length ids], which
    the loop never uses up (see [createBatches_loop_fuel]). *)
Fixpoint createBatches_loop (fuel : nat) (l : list JSValue) (i u : nat)
    (acc : list Batch) : list Batch * nat :=
  match fuel with
  | O => (acc, u)
  | S fuel' =>
      if decide (i < length l)%nat then
        let batchIds := slice i (i + BATCH_SIZE) l in
        createBatches_loop fuel' l (i + BATCH_SIZE) (S u)
          (acc ++ [ {| batchId := uuidv4 u; ids := batchIds;
                       status := yet_to_start |} ])
      else (acc, u)
  end.

Definition createBatches (l : list JSValue) (u : nat) : list Batch * nat :=
  createBatches_loop (length l) l 0 u [].

(** ** sortQueue *)

Definition priorityOrder (p : Priority) : Z :=
  match p with HIGH => 0 | MEDIUM => 1 | LOW => 2 end.

(** The comparator handed to [Array.prototype.sort]. *)
Definition compareFn (a b : QueueItem) : Z :=
  if decide (priorityOrder (priority a) ≠ priorityOrder (priority b))
  then priorityOrder (priority a) - priorityOrder (priority b)
  else createdAt a - createdAt b.

(** [Array.prototype.sort] is stable, and [compareFn] is a consistent
    comparator, so the outcome is the one stable sorted arrangement,
    whatever algorithm the engine runs.  It is computed here by stable
    insertion: an element goes in front of the first later element that
    does not compare smaller. *)
Fixpoint sort_insert (x : QueueItem) (l : list QueueItem) : list QueueItem :=
  match l with
  | [] => [x]
  | y :: l' =>
      if decide (compareFn x y ≤ 0) then x :: y :: l'
      else y :: sort_insert x l'
  end.

Definition array_sort (l : list QueueItem) : list QueueItem :=
  foldr sort_insert [] l.

Definition set_queue (q : list QueueItem) (sv : Service) : Service :=
  {| ingestions := ingestions sv; batchQueue := q;
     isProcessing := isProcessing sv |}.

Definition sortQueue (sv : Service) : Service :=
  set_queue (array_sort (batchQueue sv)) sv.

(** ** createIngestion *)

(** The queue item pushed for one batch. *)
Definition queue_item (ingId : Uuid) (p : Priority) (t : Time) (b : Batch)
  : QueueItem :=
  {| ingestionId := ingId; q_batchId := batchId b; priority := p;
     createdAt := t |}.

(** The synchronous body of [createIngestion], up to the [setImmediate]
    (which is scheduling, see [step]).  [u] is the uuid supply; [t1] and
    [t2] are what the two [new Date()] return: the first goes into the
    record, the second into the queue items.  The result is the returned
    id, the service afterwards and the supply afterwards. *)
Definition createIngestion (l : list JSValue) (p : Priority) (t1 t2 : Time)
    (u : nat) (sv : Service) : Uuid * Service * nat :=
  let ingId := uuidv4 u in
  let '(bs, u') := createBatches l (S u) in
  let record :=
    {| ing_id := ingId; ing_priority := p; batches := bs;
       ing_createdAt := t1; ing_status := yet_to_start |} in
  let pushed := batchQueue sv ++ (queue_item ingId p t2 <$> bs) in
  let sv' :=
    sortQueue {| ingestions := <[ingId := record]> (ingestions sv);
                 batchQueue := pushed;
                 isProcessing := isProcessing sv |} in
  (ingId, sv', u').

(** ** getIngestionStatus *)

(** The objects built by [getIngestionStatus]. *)
Record BatchView := mkBatchView {
  batch_id : Uuid;
  view_ids : list JSValue;
  view_status : Status
}.

Record StatusView := mkStatusView {
  ingestion_id : Uuid;
  overall_status : Status;
  view_batches : list BatchView
}.

Definition has_status (st : Status) (b : Batch) : bool :=
  bool_decide (status b = st).

Definition batch_view (b : Batch) : BatchView :=
  {| batch_id := batchId b; view_ids := ids b; view_status := status b |}.

(** [null] is [None]. *)
Definition getIngestionStatus (ingId : Uuid) (sv : Service)
  : option StatusView :=
  match ingestions sv !! ingId with
  | None => None
  | Some ingestion =>
      let hasTriggered := existsb (has_status triggered) (batches ingestion) in
      let hasCompleted := existsb (has_status completed) (batches ingestion) in
      let allCompleted := forallb (has_status completed) (batches ingestion) in
      let st :=
        if allCompleted then completed
        else if hasTriggered || hasCompleted then triggered
        else yet_to_start in
      Some {| ingestion_id := ingId; overall_status := st;
              view_batches := batch_view <$> batches ingestion |}
  end.

(** ** One turn of the loop of processQueue *)

Definition set_status (st : Status) (b : Batch) : Batch :=
  {| batchId := batchId b; ids := ids b; status := st |}.

(** How one turn of [while (this.batchQueue.length > 0)] ends. *)
Inductive Turn :=
| TurnExit (sv : Service)
    (** the loop is left and [finally] has cleared [isProcessing] *)
| TurnSkip (sv : Service)
    (** one of the two [continue] *)
| TurnDispatch (item : QueueItem) (k : nat) (wait : bool) (sv : Service).
    (** the batch at position [k] of the item's ingestion was flipped to
        [triggered] and [processBatch] was started on it; [wait] tells
        whether the turn ends in the rate-limit [await] *)

Definition leave_loop (sv : Service) : Service :=
  {| ingestions := ingestions sv; batchQueue := batchQueue sv;
     isProcessing := false |}.

(** The two status updates of a dispatch: the ingestion leaves its initial
    status, and the batch at position [k] (the object that [find] returned)
    becomes [triggered]. *)
Definition mark_triggered (k : nat) (batch : Batch) (ingestion : Ingestion)
  : Ingestion :=
  {| ing_id := ing_id ingestion;
     ing_priority := ing_priority ingestion;
     batches := <[k := set_status triggered batch]> (batches ingestion);
     ing_createdAt := ing_createdAt ingestion;
     ing_status :=
       if decide (ing_status ingestion = yet_to_start) then triggered
       else ing_status ingestion |}.

Definition loop_turn (sv : Service) : Turn :=
  match batchQueue sv with
  | [] => TurnExit (leave_loop sv)
  | _ :: _ =>
      let sv1 := sortQueue sv in
      match batchQueue sv1 with
      | [] =>
          (* [shift()] gave [undefined]: the TypeError leaves through
             [finally].  Sorting keeps the length, so this is never taken. *)
          TurnExit (leave_loop sv1)
      | queueItem :: rest =>
          let sv2 := set_queue rest sv1 in
          match ingestions sv2 !! ingestionId queueItem with
          | None => TurnSkip sv2
          | Some ingestion =>
              match list_find (λ b, batchId b = q_batchId queueItem)
                      (batches ingestion) with
              | None => TurnSkip sv2
              | Some (k, batch) =>
                  if decide (status batch ≠ yet_to_start) then TurnSkip sv2
                  else
                    TurnDispatch queueItem k (bool_decide (rest ≠ []))
                      {| ingestions :=
                           <[ingestionId queueItem :=
                               mark_triggered k batch ingestion]>
                             (ingestions sv2);
                         batchQueue := rest;
                         isProcessing := isProcessing sv2 |}
              end
          end
      end
  end.

(** The body of the [then] callback of [processBatch(batch)]: the batch
    becomes [completed], and the ingestion too once every batch is. *)
Definition mark_completed (k : nat) (batch : Batch) (ingestion : Ingestion)
  : Ingestion :=
  let bs := <[k := set_status completed batch]> (batches ingestion) in
  let allCompleted := forallb (has_status completed) bs in
  {| ing_id := ing_id ingestion;
     ing_priority := ing_priority ingestion;
     batches := bs;
     ing_createdAt := ing_createdAt ingestion;
     ing_status := if allCompleted then completed else ing_status ingestion |}.

(** The callback holds the objects [batch] and [ingestion].  Records are
    never replaced and [batches] is never reordered, so the two objects are
    the record under the key [ingId] and the element at position [k] of its
    [batches]. *)
Definition batch_done (ingId : Uuid) (k : nat) (sv : Service) : Service :=
  match ingestions sv !! ingId with
  | None => sv
  | Some ingestion =>
      match batches ingestion !! k with
      | None => sv
      | Some batch =>
          {| ingestions :=
               <[ingId := mark_completed k batch ingestion]> (ingestions sv);
             batchQueue := batchQueue sv;
             isProcessing := isProcessing sv |}
      end
  end.

(** ** The running system *)

(** Where the one call of [processQueue] stands. *)
Inductive Loop :=
| Idle                    (** no call is active *)
| Running                 (** inside a synchronous stretch of the loop *)
| Sleeping (wake : Time). (** suspended in the rate-limit [await] *)

Global Instance Loop_eq_dec : EqDecision Loop.
Proof. solve_decision. Defined.

Record System := mkSystem {
  svc : Service;
  uuids : nat;                  (** uuids drawn so far *)
  now : Time;                   (** the clock *)
  immediates : nat;             (** [setImmediate] callbacks still to run *)
  loop : Loop;
  inflight : list (Uuid * nat); (** [processBatch] promises not yet settled *)
  dispatches : list Time        (** trace: when batches were flipped to
                                    [triggered], latest first *)
}.

Definition init : System :=
  {| svc := new_service; uuids := 0; now := 0; immediates := 0;
     loop := Idle; inflight := []; dispatches := [] |}.

(** A call [createIngestion(ids, priority)] with its [setImmediate]. *)
Definition submit (l : list JSValue) (p : Priority) (t1 t2 : Time)
    (s : System) : Uuid * System :=
  let '(ingId, sv', u') := createIngestion l p t1 t2 (uuids s) (svc s) in
  (ingId,
   {| svc := sv'; uuids := u'; now := t2; immediates := S (immediates s);
      loop := loop s; inflight := inflight s; dispatches := dispatches s |}).

(** [startProcessing], entering [processQueue] up to the head of the loop. *)
Definition startProcessing (s : System) : System :=
  if negb (isProcessing (svc s)) && negb (bool_decide (batchQueue (svc s) = []))
  then
    {| svc := {| ingestions := ingestions (svc s);
                 batchQueue := batchQueue (svc s);
                 isProcessing := true |};
       uuids := uuids s; now := now s; immediates := immediates s;
       loop := Running; inflight := inflight s; dispatches := dispatches s |}
  else s.

Inductive Event :=
| Tick (d : Z)                     (** time passes *)
| CreateIngestion (l : list JSValue) (p : Priority) (t1 t2 : Time)
| GetStatus (ingId : Uuid)
| Immediate                        (** a [setImmediate] callback runs *)
| LoopTurn                         (** the loop makes one turn *)
| TimerFires                       (** the rate-limit timer resolves *)
| BatchDone (ingId : Uuid) (k : nat). (** a [processBatch] promise settles *)

Definition with_svc (sv : Service) (s : System) : System :=
  {| svc := sv; uuids := uuids s; now := now s; immediates := immediates s;
     loop := loop s; inflight := inflight s; dispatches := dispatches s |}.

Definition with_loop (lp : Loop) (s : System) : System :=
  {| svc := svc s; uuids := uuids s; now := now s; immediates := immediates s;
     loop := lp; inflight := inflight s; dispatches := dispatches s |}.

(** One synchronous segment.  [None]: the event cannot happen in [s].
    Handlers and callbacks wait while the loop is inside a synchronous
    stretch; a timer does not fire before its delay has passed. *)
Definition step (e : Event) (s : System) : option System :=
  match e with
  | Tick d =>
      if decide (0 ≤ d) then
        Some {| svc := svc s; uuids := uuids s; now := now s + d;
                immediates := immediates s; loop := loop s;
                inflight := inflight s; dispatches := dispatches s |}
      else None
  | CreateIngestion l p t1 t2 =>
      if decide (loop s ≠ Running ∧ now s ≤ t1 ∧ t1 ≤ t2)
      then Some (submit l p t1 t2 s).2 else None
  | GetStatus _ =>
      if decide (loop s ≠ Running) then Some s else None
  | Immediate =>
      match immediates s with
      | S n =>
          if decide (loop s ≠ Running) then
            Some (startProcessing
                    {| svc := svc s; uuids := uuids s; now := now s;
                       immediates := n; loop := loop s;
                       inflight := inflight s; dispatches := dispatches s |})
          else None
      | O => None
      end
  | LoopTurn =>
      if decide (loop s = Running) then
        match loop_turn (svc s) with
        | TurnExit sv => Some (with_loop Idle (with_svc sv s))
        | TurnSkip sv => Some (with_svc sv s)
        | TurnDispatch item k wait sv =>
            Some {| svc := sv; uuids := uuids s; now := now s;
                    immediates := immediates s;
                    loop := if wait then Sleeping (now s + RATE_LIMIT_MS)
                            else Running;
                    inflight := (ingestionId item, k) :: inflight s;
                    dispatches := now s :: dispatches s |}
        end
      else None
  | TimerFires =>
      match loop s with
      | Sleeping wake =>
          if decide (wake ≤ now s) then Some (with_loop Running s) else None
      | _ => None
      end
  | BatchDone ingId k =>
      if decide (loop s ≠ Running ∧ (ingId, k) ∈ inflight s) then
        Some {| svc := batch_done ingId k (svc s); uuids := uuids s;
                now := now s; immediates := immediates s; loop := loop s;
                inflight := filter (λ c, c ≠ (ingId, k)) (inflight s);
                dispatches := dispatches s |}
      else None
  end.

Fixpoint run (es : list Event) (s : System) : option System :=
  match es with
  | [] => Some s
  | e :: es' => match step e s with Some s' => run es' s' | None => None end
  end.

Inductive reachable : System → Prop :=
| reachable_init : reachable init
| reachable_step e s s' :
    reachable s → step e s = Some s' → reachable s'.

(** ** The routers *)

Inductive Body :=
| ErrorBody (error : string)
| IngestBody (ingestion_id : Uuid)
| StatusBody (view : StatusView).

Record Response := mkResponse { http_status : nat; body : Body }.

(** [['HIGH', 'MEDIUM', 'LOW'].includes(priority)], with the literal found. *)
Definition priority_literal (v : JSValue) : option Priority :=
  match v with
  | JString s =>
      if decide (s = "HIGH") then Some HIGH
      else if decide (s = "MEDIUM") then Some MEDIUM
      else if decide (s = "LOW") then Some LOW
      else None
  | _ => None
  end.

(** [!Number.isInteger(id) || id < 1 || id > 1e9 + 7]. *)
Definition id_rejected (v : JSValue) : bool :=
  match v with
  | JInt z => (z <? 1) || (1000000007 <? z)
  | _ => true
  end.

(** [router.post('/')] of routes/ingest.js on a body whose fields [ids] and
    [priority] are [ids_v] and [priority_v] ([JUndefined] when absent). *)
Definition post_ingest (ids_v priority_v : JSValue) (t1 t2 : Time)
    (s : System) : Response * System :=
  match ids_v with
  | JArray l =>
      if decide (length l = 0%nat) then
        ({| http_status := 400;
            body := ErrorBody "ids must be a non-empty array" |}, s)
      else
        match priority_literal priority_v with
        | None =>
            ({| http_status := 400;
                body := ErrorBody "priority must be HIGH, MEDIUM, or LOW" |},
             s)
        | Some p =>
            if existsb id_rejected l then
              ({| http_status := 400;
                  body :=
                    ErrorBody "ids must be integers between 1 and 10^9+7" |},
               s)
            else
              let '(ingId, s') := submit l p t1 t2 s in
              ({| http_status := 200; body := IngestBody ingId |}, s')
        end
  | _ =>
      ({| http_status := 400;
          body := ErrorBody "ids must be a non-empty array" |}, s)
  end.

(** [router.get('/:ingestionId')] of routes/status.js. *)
Definition get_status (ingId : Uuid) (s : System) : Response * System :=
  match getIngestionStatus ingId (svc s) with
  | None =>
      ({| http_status := 404; body := ErrorBody "Ingestion not found" |}, s)
  | Some view => ({| http_status := 200; body := StatusBody view |}, s)
  end.

(** ** Notions used to state the properties *)

(** ceil(a / b), for [b > 0] (see [ceil_div_least]). *)
Definition ceil_div (a b : nat) : nat := ((a + (b - 1)) / b)%nat.

(** A request array of integer-valued numbers. *)
Definition ints (zs : list Z) : list JSValue := JInt <$> zs.

(** The order [sortQueue] sorts by: priority rank first, enqueue time
    second. *)
Definition rank_then_time (a b : QueueItem) : Prop :=
  priorityOrder (priority a) < priorityOrder (priority b) ∨
  (priorityOrder (priority a) = priorityOrder (priority b) ∧
   createdAt a ≤ createdAt b).

(** The state a finite sequence of events leads to from [init] ([init]
    itself when some event of the sequence cannot happen). *)
Definition state_after (es : list Event) : System :=
  default init (run es init).

(** A LOW ingestion of two batches is submitted and its first batch
    dispatched; while the loop sleeps a HIGH ingestion arrives; then the
    timer fires. *)
Definition high_arrives_late : list Event :=
  [ CreateIngestion (ints [1; 2; 3; 4; 5; 6]) LOW 0 0; Immediate; LoopTurn;
    Tick 10; CreateIngestion (ints [7]) HIGH 10 10; Immediate;
    Tick 4990; TimerFires ].

(** The status that section 4.3 of the specification assigns to a batch
    list: [completed] iff the list is non-empty and every batch is
    completed; else [triggered] iff some batch is triggered or completed;
    else [yet_to_start]. *)
Definition spec_status (bs : list Batch) : Status :=
  if bool_decide (bs ≠ [] ∧ Forall (λ b, status b = completed) bs)
  then completed
  else if bool_decide
            (Exists (λ b, status b = triggered ∨ status b = completed) bs)
  then triggered
  else yet_to_start.

(** The submissions that reach the service.  [createIngestion] is called
    by the ingest router only, which answers 400 to an empty [ids] before
    the call; section 4.1 makes the non-empty list the precondition of the
    call. *)
Definition nonempty_submission (e : Event) : Prop :=
  match e with
  | CreateIngestion l _ _ _ => l ≠ []
  | _ => True
  end.

(** The states the running service gets into: those reached from [init]
    by events whose submissions carry a non-empty id list. *)
Inductive served : System → Prop :=
| served_init : served init
| served_step e s s' :
    served s → nonempty_submission e → step e s = Some s' → served s'.

(** What the specification asks of a request. *)
Definition valid_id (v : JSValue) : Prop :=
  ∃ z, v = JInt z ∧ 1 ≤ z ≤ 10 ^ 9 + 7.

Definition valid_priority (v : JSValue) : Prop :=
  v = JString "HIGH" ∨ v = JString "MEDIUM" ∨ v = JString "LOW".

Definition well_formed_request (ids_v priority_v : JSValue) : Prop :=
  ∃ l, ids_v = JArray l ∧ l ≠ [] ∧ Forall valid_id l ∧
       valid_priority priority_v.

(** Forward order of the batch statuses. *)
Definition status_rank (st : Status) : nat :=
  match st with yet_to_start => 0 | triggered => 1 | completed => 2 end.

(** The pair a queue item refers to. *)
Definition item_key (e : QueueItem) : Uuid * Uuid :=
  (ingestionId e, q_batchId e).

(** The batch a queue item refers to, as the loop finds it. *)
Definition item_batch (sv : Service) (e : QueueItem) : option Batch :=
  ing ← ingestions sv !! ingestionId e;
  snd <$> list_find (λ b, batchId b = q_batchId e) (batches ing).

(** What holds of every state the system can reach (see
    [reachable_consistent]). *)
Record consistent (s : System) : Prop := {
  (** every key of the store is a uuid already drawn *)
  keys_drawn : ∀ key ing,
    ingestions (svc s) !! key = Some ing →
    ∃ n, (n < uuids s)%nat ∧ key = uuidv4 n;
  (** a queue item refers to a stored batch that is still [yet_to_start] *)
  queue_pending : ∀ e,
    e ∈ batchQueue (svc s) →
    ∃ b, item_batch (svc s) e = Some b ∧ status b = yet_to_start;
  (** no two queue items refer to the same batch *)
  queue_unique : NoDup (item_key <$> batchQueue (svc s));
  (** a batch under processing has left [yet_to_start] *)
  inflight_started : ∀ ingId k,
    (ingId, k) ∈ inflight s →
    ∃ ing b, ingestions (svc s) !! ingId = Some ing ∧
             batches ing !! k = Some b ∧ status b ≠ yet_to_start;
  (** [isProcessing] is set exactly while a call of [processQueue] is
      active *)
  processing_flag : isProcessing (svc s) = bool_decide (loop s ≠ Idle)
}.

(** A LOW ingestion of two batches has been submitted and the loop is about
    to make its first turn. *)
Definition first_turn_ahead : System :=
  state_after [CreateIngestion (ints [1; 2; 3; 4; 5; 6]) LOW 0 0; Immediate].

(** Two single-batch ingestions submitted one millisecond apart: the first
    is dispatched and the loop, finding the queue empty, is left without
    waiting; the second then starts the loop again. *)
Definition two_quick_requests : list Event :=
  [ CreateIngestion (ints [1]) HIGH 0 0; Immediate; LoopTurn; LoopTurn;
    Tick 1;
    CreateIngestion (ints [2]) HIGH 1 1; Immediate; LoopTurn ].

(** Read the fields of a state that is written out. *)
Ltac fields :=
  cbn [fst snd svc uuids now immediates inflight loop dispatches
       sortQueue set_queue leave_loop with_svc with_loop
       ingestions batchQueue isProcessing
       queue_item ingestionId q_batchId priority createdAt item_key] in *.

(** ** Further functions of the service *)

(** The object built by [getQueueState]: [queueLength], [isProcessing] and
    the queue items without their [batch] back-reference. *)
Record QueueState := mkQueueState {
  queueLength : nat;
  qs_isProcessing : bool;
  queue : list QueueItem
}.

Definition getQueueState (sv : Service) : QueueState :=
  {| queueLength := length (batchQueue sv);
     qs_isProcessing := isProcessing sv;
     queue := (λ item, {| ingestionId := ingestionId item;
                          q_batchId := q_batchId item;
                          priority := priority item;
                          createdAt := createdAt item |}) <$> batchQueue sv |}.

(** ** Further notions used to state properties *)

(** The status computed by [getIngestionStatus] from a batch list. *)
Definition reported_status (bs : list Batch) : Status :=
  if forallb (has_status completed) bs then completed
  else if existsb (has_status triggered) bs || existsb (has_status completed) bs
  then triggered
  else yet_to_start.

(** How the records and the queue are kept in every reachable state (see
    [reachable_well_kept]). *)
Record well_kept (s : System) : Prop := {
  (** a record is stored under its own id *)
  record_ids : ∀ key ing,
    ingestions (svc s) !! key = Some ing → ing_id ing = key;
  (** the batches of an ingestion have pairwise distinct ids *)
  batch_ids_distinct : ∀ key ing,
    ingestions (svc s) !! key = Some ing → NoDup (batchId <$> batches ing);
  (** the queue is in sorted order *)
  queue_sorted : StronglySorted rank_then_time (batchQueue (svc s));
  (** a queue item carries the priority of its ingestion *)
  item_priority : ∀ e ing,
    e ∈ batchQueue (svc s) →
    ingestions (svc s) !! ingestionId e = Some ing →
    priority e = ing_priority ing;
  (** the queue items of one ingestion carry one enqueue time *)
  item_time : ∀ e e',
    e ∈ batchQueue (svc s) → e' ∈ batchQueue (svc s) →
    ingestionId e = ingestionId e' → createdAt e = createdAt e'
}.

(** The queue items of one ingestion. *)
Definition items_of (key : Uuid) (q : list QueueItem) : list QueueItem :=
  filter (λ e, ingestionId e = key) q.

(** The batches of an ingestion leave [yet_to_start] from the front: the
    first [n] have been dispatched, the others are pending, and the queue
    holds the items of the pending ones in batch order. *)
Definition dispatched_prefix (s : System) (key : Uuid) (ing : Ingestion)
    (n : nat) : Prop :=
  q_batchId <$> items_of key (batchQueue (svc s))
    = drop n (batchId <$> batches ing) ∧
  ∀ k b, batches ing !! k = Some b →
         (status b = yet_to_start ↔ (n ≤ k)%nat).

Definition in_batch_order (s : System) : Prop :=
  ∀ key ing, ingestions (svc s) !! key = Some ing →
             ∃ n, dispatched_prefix s key ing n.

(** How the bookkeeping follows the batches in every reachable state (see
    [reachable_tracked]). *)
Record tracked (s : System) : Prop := {
  (** a batch is [triggered] exactly while its [processBatch] promise is
      pending *)
  triggered_inflight : ∀ key ing k b,
    ingestions (svc s) !! key = Some ing → batches ing !! k = Some b →
    (status b = triggered ↔ (key, k) ∈ inflight s);
  (** the stored [status] of an ingestion is the reported one, except that
      an ingestion without batches stays [yet_to_start] *)
  stored_status : ∀ key ing,
    ingestions (svc s) !! key = Some ing →
    ing_status ing =
      if decide (batches ing = []) then yet_to_start
      else reported_status (batches ing);
  (** queued work is never stranded: the loop is active or a [setImmediate]
      callback is due *)
  work_scheduled :
    loop s = Idle → batchQueue (svc s) ≠ [] → (0 < immediates s)%nat
}.

(** One ingestion has been submitted; its [setImmediate] callback has not
    run yet. *)
Definition one_request_waiting : System :=
  state_after [CreateIngestion (ints [1]) LOW 0 0].

(** A LOW ingestion of three batches after its first dispatch and the wait
    that follows it. *)
Definition second_turn_ahead : System :=
  state_after
    [CreateIngestion (ints [1; 2; 3; 4; 5; 6; 7]) LOW 0 0; Immediate;
     LoopTurn; Tick 5000; TimerFires].

(** The events of the loop itself and of the clock: no submission, no
    query, no completion of a batch. *)
Definition loop_event (e : Event) : Prop :=
  match e with
  | Tick _ | Immediate | LoopTurn | TimerFires => True
  | _ => False
  end.

(** ** The earlier, ingestion-granular service *)

(** [getIngestionStatus] of the first [IngestionService] of the file.  It
    reads the map [ingestions] only, whose records have the shape they have
    in the later class, and returns the stored batch objects as they are. *)
Module Legacy.

Record StatusView := mkStatusView {
  l_ingestion_id : Uuid;
  l_status : Status;
  l_batches : list Batch
}.

Definition getIngestionStatus (ingId : Uuid) (store : gmap Uuid Ingestion)
  : option StatusView :=
  match store !! ingId with
  | None => None
  | Some ingestion =>
      let st := yet_to_start in
      let st :=
        if existsb (has_status triggered) (batches ingestion)
        then triggered else st in
      let st :=
        if forallb (has_status completed) (batches ingestion)
        then completed else st in
      Some {| l_ingestion_id := ingId; l_status := st;
              l_batches := batches ingestion |}
  end.

(** An element of [processingQueue]: one per ingestion. *)
Record QueueItem := mkQueueItem {
  li_ingestionId : Uuid;
  li_priority : Priority;
  li_createdAt : Time
}.

Global Instance legacy_QueueItem_eq_dec : EqDecision QueueItem.
Proof. solve_decision. Defined.

Record Service := mkService {
  l_ingestions : gmap Uuid Ingestion;
  processingQueue : list QueueItem;
  l_isProcessing : bool
}.

(** The comparator and the sort are those of the later class, on the
    items of this one. *)
Definition compareFn (a b : QueueItem) : Z :=
  if decide (priorityOrder (li_priority a) ≠ priorityOrder (li_priority b))
  then priorityOrder (li_priority a) - priorityOrder (li_priority b)
  else li_createdAt a - li_createdAt b.

Fixpoint sort_insert (x : QueueItem) (l : list QueueItem) : list QueueItem :=
  match l with
  | [] => [x]
  | y :: l' =>
      if decide (compareFn x y ≤ 0) then x :: y :: l'
      else y :: sort_insert x l'
  end.

Definition array_sort (l : list QueueItem) : list QueueItem :=
  foldr sort_insert [] l.

Definition sortQueue (sv : Service) : Service :=
  {| l_ingestions := l_ingestions sv;
     processingQueue := array_sort (processingQueue sv);
     l_isProcessing := l_isProcessing sv |}.

(** The body of [createIngestion] up to its call of [processQueue]: one
    queue item for the whole ingestion.  [createBatches(ids)] has the body
    of the later [createBatches], which is used for it. *)
Definition createIngestion (l : list JSValue) (p : Priority) (t1 t2 : Time)
    (u : nat) (sv : Service) : Uuid * Service * nat :=
  let ingId := uuidv4 u in
  let '(bs, u') := createBatches l (S u) in
  let record :=
    {| ing_id := ingId; ing_priority := p; batches := bs;
       ing_createdAt := t1; ing_status := yet_to_start |} in
  let sv' :=
    sortQueue
      {| l_ingestions := <[ingId := record]> (l_ingestions sv);
         processingQueue :=
           processingQueue sv
           ++ [ {| li_ingestionId := ingId; li_priority := p;
                   li_createdAt := t2 |} ];
         l_isProcessing := l_isProcessing sv |} in
  (ingId, sv', u').

(** How the loop of [processQueue] goes on from its head. *)
Inductive Turn :=
| TurnExit (sv : Service)
    (** the queue is empty: the loop is left and [isProcessing] cleared *)
| TurnThrows (sv : Service)
    (** destructuring [processingQueue[0]] failed; there is no [finally],
        [isProcessing] stays set *)
| TurnSkip (sv : Service)
    (** the [continue] for an unknown ingestion *)
| TurnAwaitBatch (key : Uuid) (k : nat) (sv : Service)
    (** batch [k] of the head ingestion was flipped to [triggered]; the
        loop awaits [processBatch] *)
| TurnWait (sv : Service).
    (** no batch was pending; the loop is in the rate-limit wait *)

Definition set_ing_status (st : Status) (ingestion : Ingestion) : Ingestion :=
  {| ing_id := ing_id ingestion; ing_priority := ing_priority ingestion;
     batches := batches ingestion; ing_createdAt := ing_createdAt ingestion;
     ing_status := st |}.

Definition set_batches (bs : list Batch) (ingestion : Ingestion) : Ingestion :=
  {| ing_id := ing_id ingestion; ing_priority := ing_priority ingestion;
     batches := bs; ing_createdAt := ing_createdAt ingestion;
     ing_status := ing_status ingestion |}.

(** "Check if all batches are completed": the ingestion object the loop
    holds is the record under [key]; [shift()] takes whatever item heads
    the queue at that moment. *)
Definition check_all_completed (key : Uuid) (sv : Service) : Service :=
  match l_ingestions sv !! key with
  | None => sv
  | Some ingestion =>
      if forallb (has_status completed) (batches ingestion) then
        {| l_ingestions :=
             <[key := set_ing_status completed ingestion]> (l_ingestions sv);
           processingQueue := drop 1 (processingQueue sv);
           l_isProcessing := l_isProcessing sv |}
      else sv
  end.

Definition loop_turn (sv : Service) : Turn :=
  match processingQueue sv with
  | [] =>
      TurnExit {| l_ingestions := l_ingestions sv;
                  processingQueue := processingQueue sv;
                  l_isProcessing := false |}
  | _ :: _ =>
      let sv1 := sortQueue sv in
      match processingQueue sv1 with
      | [] => TurnThrows sv1
      | head :: rest =>
          let key := li_ingestionId head in
          match l_ingestions sv1 !! key with
          | None =>
              TurnSkip {| l_ingestions := l_ingestions sv1;
                          processingQueue := rest;
                          l_isProcessing := l_isProcessing sv1 |}
          | Some ingestion =>
              let ingestion1 :=
                if decide (ing_status ingestion = yet_to_start)
                then set_ing_status triggered ingestion else ingestion in
              match list_find (λ b, status b = yet_to_start)
                      (batches ingestion1) with
              | Some (k, nextBatch) =>
                  TurnAwaitBatch key k
                    {| l_ingestions :=
                         <[key :=
                             set_batches
                               (<[k := set_status triggered nextBatch]>
                                  (batches ingestion1)) ingestion1]>
                           (l_ingestions sv1);
                       processingQueue := processingQueue sv1;
                       l_isProcessing := l_isProcessing sv1 |}
              | None =>
                  TurnWait
                    (check_all_completed key
                       {| l_ingestions :=
                            <[key := ingestion1]> (l_ingestions sv1);
                          processingQueue := processingQueue sv1;
                          l_isProcessing := l_isProcessing sv1 |})
              end
          end
      end
  end.

(** The loop resumes after [await this.processBatch(nextBatch)]. *)
Definition batch_returns (key : Uuid) (k : nat) (sv : Service) : Service :=
  match l_ingestions sv !! key with
  | None => sv
  | Some ingestion =>
      match batches ingestion !! k with
      | None => sv
      | Some nextBatch =>
          check_all_completed key
            {| l_ingestions :=
                 <[key :=
                     set_batches
                       (<[k := set_status completed nextBatch]>
                          (batches ingestion)) ingestion]>
                   (l_ingestions sv);
               processingQueue := processingQueue sv;
               l_isProcessing := l_isProcessing sv |}
      end
  end.

(** Where the call of [processQueue] stands. *)
Inductive Loop :=
| Idle
| Running
| AwaitingBatch (key : Uuid) (k : nat)
| Sleeping (wake : Time).

Global Instance legacy_Loop_eq_dec : EqDecision Loop.
Proof. solve_decision. Defined.

Record System := mkSystem {
  svc : Service;
  uuids : nat;
  now : Time;
  loop : Loop;
  dispatches : list Time
}.

Definition init : System :=
  {| svc := {| l_ingestions := ∅; processingQueue := [];
               l_isProcessing := false |};
     uuids := 0; now := 0; loop := Idle; dispatches := [] |}.

Inductive Event :=
| Tick (d : Z)
| CreateIngestion (l : list JSValue) (p : Priority) (t1 t2 : Time)
| LoopTurn
| BatchReturns
| TimerFires.

(** One synchronous segment.  [createIngestion] calls [processQueue]
    itself when [isProcessing] is clear; the queue then holds the item just
    pushed, so the call sets the flag and enters the loop. *)
Definition step (e : Event) (s : System) : option System :=
  match e with
  | Tick d =>
      if decide (0 ≤ d) then
        Some {| svc := svc s; uuids := uuids s; now := now s + d;
                loop := loop s; dispatches := dispatches s |}
      else None
  | CreateIngestion l p t1 t2 =>
      if decide (loop s ≠ Running ∧ now s ≤ t1 ∧ t1 ≤ t2) then
        let '(_, sv', u') := createIngestion l p t1 t2 (uuids s) (svc s) in
        if negb (l_isProcessing sv')
           && negb (bool_decide (processingQueue sv' = []))
        then
          Some {| svc := {| l_ingestions := l_ingestions sv';
                            processingQueue := processingQueue sv';
                            l_isProcessing := true |};
                  uuids := u'; now := t2; loop := Running;
                  dispatches := dispatches s |}
        else
          Some {| svc := sv'; uuids := u'; now := t2; loop := loop s;
                  dispatches := dispatches s |}
      else None
  | LoopTurn =>
      match loop s with
      | Running =>
          match loop_turn (svc s) with
          | TurnExit sv | TurnThrows sv =>
              Some {| svc := sv; uuids := uuids s; now := now s;
                      loop := Idle; dispatches := dispatches s |}
          | TurnSkip sv =>
              Some {| svc := sv; uuids := uuids s; now := now s;
                      loop := Running; dispatches := dispatches s |}
          | TurnAwaitBatch key k sv =>
              Some {| svc := sv; uuids := uuids s; now := now s;
                      loop := AwaitingBatch key k;
                      dispatches := now s :: dispatches s |}
          | TurnWait sv =>
              Some {| svc := sv; uuids := uuids s; now := now s;
                      loop := Sleeping (now s + RATE_LIMIT_MS);
                      dispatches := dispatches s |}
          end
      | _ => None
      end
  | BatchReturns =>
      match loop s with
      | AwaitingBatch key k =>
          Some {| svc := batch_returns key k (svc s); uuids := uuids s;
                  now := now s; loop := Sleeping (now s + RATE_LIMIT_MS);
                  dispatches := dispatches s |}
      | _ => None
      end
  | TimerFires =>
      match loop s with
      | Sleeping wake =>
          if decide (wake ≤ now s) then
            Some {| svc := svc s; uuids := uuids s; now := now s;
                    loop := Running; dispatches := dispatches s |}
          else None
      | _ => None
      end
  end.

Fixpoint run (es : list Event) (s : System) : option System :=
  match es with
  | [] => Some s
  | e :: es' => match step e s with Some s' => run es' s' | None => None end
  end.

Inductive reachable : System → Prop :=
| reachable_init : reachable init
| reachable_step e s s' :
    reachable s → step e s = Some s' → reachable s'.

(** Consecutive entries of a dispatch trace (latest first) lie at least
    [RATE_LIMIT_MS] apart. *)
Fixpoint spaced (ts : list Time) : Prop :=
  match ts with
  | later :: (earlier :: _) as rest =>
      earlier + RATE_LIMIT_MS ≤ later ∧ spaced rest
  | _ => True
  end.

(** The latest dispatch, if any, is not later than [bound]. *)
Definition latest_before (ts : list Time) (bound : Z) : Prop :=
  match ts with [] => True | t :: _ => t ≤ bound end.

(** What the loop keeps about the dispatch trace (see [reachable_paced]). *)
Record paced (s : System) : Prop := {
  paced_trace : spaced (dispatches s);
  paced_flag : loop s ≠ Idle → l_isProcessing (svc s) = true;
  paced_latest :
    match loop s with
    | Idle | Running => latest_before (dispatches s) (now s - RATE_LIMIT_MS)
    | AwaitingBatch _ _ => latest_before (dispatches s) (now s)
    | Sleeping wake => latest_before (dispatches s) (wake - RATE_LIMIT_MS)
    end
}.

(** Two single-batch ingestions submitted one millisecond apart, the first
    one processed to the end of its batch. *)
Definition two_quick_requests : list Event :=
  [ CreateIngestion (ints [1]) HIGH 0 0; LoopTurn; BatchReturns;
    Tick 1; CreateIngestion (ints [2]) HIGH 1 1;
    Tick 4999; TimerFires; LoopTurn ].

(** A HIGH ingestion arrives while the only batch of a LOW ingestion is
    being processed; the loop then runs until it is idle. *)
Definition high_arrives_during_batch : list Event :=
  [ CreateIngestion (ints [1]) LOW 0 0; LoopTurn; Tick 50;
    CreateIngestion (ints [2]) HIGH 50 50; BatchReturns;
    Tick 5000; TimerFires; LoopTurn;
    Tick 5000; TimerFires; LoopTurn ].

(** The ingestion under [key] is registered with all its batches pending,
    no queue item refers to it, the loop is not working on it, and [key]
    is not a uuid still to be drawn. *)
Record stranded (key : Uuid) (s : System) : Prop := {
  stranded_record : ∃ ing,
    l_ingestions (svc s) !! key = Some ing ∧ batches ing ≠ [] ∧
    Forall (λ b, status b = yet_to_start) (batches ing);
  stranded_queue :
    Forall (λ e, li_ingestionId e ≠ key) (processingQueue (svc s));
  stranded_loop : ∀ k, loop s ≠ AwaitingBatch key k;
  stranded_drawn : ∀ n, (uuids s ≤ n)%nat → uuidv4 n ≠ key
}.

End Legacy.

(** A single-batch ingestion has been dispatched, the loop has gone idle
    and the batch has completed. *)
Definition single_batch_done : System :=
  state_after
    [CreateIngestion (ints [1; 2]) LOW 0 0; Immediate; LoopTurn; LoopTurn;
     BatchDone "0" 0].

(** The first batch of a LOW ingestion of two batches has just been
    dispatched; the loop is in the wait that follows. *)
Definition first_dispatch_done : System :=
  state_after
    [CreateIngestion (ints [1; 2; 3; 4; 5; 6]) LOW 0 0; Immediate; LoopTurn].

(** * Properties *)

(** ** Batching *)

Lemma ceil_div_least a b :
  (0 < b)%nat → (a ≤ ceil_div a b * b ∧ ceil_div a b * b < a + b)%nat.
Proof.
  intros Hb. unfold ceil_div.
  pose proof (Nat.div_mod (a + (b - 1)) b) as Hdm.
  pose proof (Nat.mod_upper_bound (a + (b - 1)) b) as Hm.
  nia.
Qed.

Lemma ceil_div_3_step n : (0 < n)%nat → ceil_div n 3 = S (ceil_div (n - 3) 3).
Proof.
  intros Hn. unfold ceil_div.
  destruct (decide (n < 3)%nat) as [Hlt|Hge].
  - assert (n = 1 ∨ n = 2)%nat as [-> | ->] by lia; reflexivity.
  - replace (n + (3 - 1))%nat with (1 * 3 + (n - 3 + (3 - 1)))%nat by lia.
    rewrite Nat.div_add_l by lia. lia.
Qed.

Lemma slice_length {A} (l : list A) i :
  length (slice i (i + BATCH_SIZE) l) = (3 `min` (length l - i))%nat.
Proof.
  unfold slice, BATCH_SIZE. rewrite length_take, length_drop. lia.
Qed.

Lemma slice_then_rest {A} (l : list A) i :
  slice i (i + BATCH_SIZE) l ++ drop (i + BATCH_SIZE) l = drop i l.
Proof.
  unfold slice. replace (i + BATCH_SIZE - i)%nat with BATCH_SIZE by lia.
  rewrite <- drop_drop. apply take_drop.
Qed.

(** What the loop appends when the fuel covers the rest of the array. *)
Lemma createBatches_loop_spec fuel l : ∀ i u acc,
  (length l - i ≤ fuel)%nat →
  ∃ new,
    createBatches_loop fuel l i u acc = (acc ++ new, (u + length new)%nat) ∧
    concat (ids <$> new) = drop i l ∧
    length new = ceil_div (length l - i) 3 ∧
    ∀ k b, new !! k = Some b →
      b = {| batchId := uuidv4 (u + k);
             ids := slice (i + 3 * k) (i + 3 * k + BATCH_SIZE) l;
             status := yet_to_start |}.
Proof.
  induction fuel as [|fuel IH]; intros i u acc Hfuel; simpl.
  - exists []. rewrite app_nil_r, Nat.add_0_r.
    replace (length l - i)%nat with 0%nat by lia.
    split_and!; [done| |done|done].
    simpl. symmetry. apply drop_ge. lia.
  - case_decide as Hi.
    + destruct (IH (i + BATCH_SIZE)%nat (S u)
                  (acc ++ [ {| batchId := uuidv4 u;
                               ids := slice i (i + BATCH_SIZE) l;
                               status := yet_to_start |} ]))
        as (new & Heq & Hcat & Hlen & Hnth); [unfold BATCH_SIZE; lia|].
      assert (S (length new) = ceil_div (length l - i) 3) as Hlen'.
      { rewrite Hlen, (ceil_div_3_step (length l - i)) by lia.
        unfold BATCH_SIZE. do 2 f_equal. lia. }
      eexists (_ :: new). rewrite Heq, <- app_assoc.
      split_and!.
      * simpl. f_equal. lia.
      * rewrite fmap_cons, concat_cons, Hcat. apply slice_then_rest.
      * exact Hlen'.
      * intros [|k] b Hb; simpl in Hb.
        -- inversion Hb. unfold BATCH_SIZE. f_equal; f_equal; lia.
        -- rewrite (Hnth k b Hb). unfold BATCH_SIZE. f_equal; f_equal; lia.
    + exists []. rewrite app_nil_r, Nat.add_0_r.
      replace (length l - i)%nat with 0%nat by lia.
      split_and!; [done| |done|done].
      simpl. symmetry. apply drop_ge. lia.
Qed.

(** The loop leaves through its test, not through the fuel: more fuel
    changes nothing. *)
Lemma createBatches_loop_fuel fuel fuel' l i u acc :
  (length l - i ≤ fuel)%nat → (length l - i ≤ fuel')%nat →
  createBatches_loop fuel l i u acc = createBatches_loop fuel' l i u acc.
Proof.
  revert fuel' i u acc.
  induction fuel as [|fuel IH]; intros [|fuel'] i u acc H1 H2; simpl; try done.
  - case_decide; [lia|done].
  - case_decide; [lia|done].
  - case_decide; [|done]. apply IH; unfold BATCH_SIZE; lia.
Qed.

Lemma createBatches_spec l u :
  ∃ bs,
    createBatches l u = (bs, (u + length bs)%nat) ∧
    concat (ids <$> bs) = l ∧
    length bs = ceil_div (length l) 3 ∧
    ∀ k b, bs !! k = Some b →
      b = {| batchId := uuidv4 (u + k);
             ids := slice (3 * k) (3 * k + BATCH_SIZE) l;
             status := yet_to_start |}.
Proof.
  destruct (createBatches_loop_spec (length l) l 0 u []) as (bs & H1 & H2 & H3 & H4);
    [lia|].
  exists bs. rewrite Nat.sub_0_r in H3. split_and!; done.
Qed.

Lemma createIngestion_unfold l p t1 t2 u sv :
  ∃ bs,
    createBatches l (S u) = (bs, (S u + length bs)%nat) ∧
    createIngestion l p t1 t2 u sv =
      (uuidv4 u,
       sortQueue
         {| ingestions :=
              <[uuidv4 u := {| ing_id := uuidv4 u; ing_priority := p;
                               batches := bs; ing_createdAt := t1;
                               ing_status := yet_to_start |}]> (ingestions sv);
            batchQueue := batchQueue sv ++ (queue_item (uuidv4 u) p t2 <$> bs);
            isProcessing := isProcessing sv |},
       (S u + length bs)%nat).
Proof.
  destruct (createBatches_spec l (S u)) as (bs & Hbs & _).
  exists bs. split; [done|]. unfold createIngestion. by rewrite Hbs.
Qed.

Lemma batch_sizes l u bs :
  createBatches l u = (bs, (u + length bs)%nat) →
  (∀ k b, bs !! k = Some b → (k + 1 < length bs)%nat →
          length (ids b) = 3%nat) ∧
  (∀ b, last bs = Some b →
        length (ids b) =
          if decide (length l `mod` 3 = 0)%nat then 3%nat
          else (length l `mod` 3)%nat).
Proof.
  intros Hcb.
  destruct (createBatches_spec l u) as (bs' & Hbs' & _ & Hlen & Hnth).
  assert (bs' = bs) as -> by congruence.
  pose proof (ceil_div_least (length l) 3 ltac:(lia)) as [Hlo Hhi].
  rewrite <- Hlen in Hlo, Hhi.
  split.
  - intros k b Hk Hlt. rewrite (Hnth k b Hk). cbn [ids].
    rewrite slice_length. lia.
  - intros b Hb. rewrite last_lookup in Hb.
    assert (0 < length bs)%nat.
    { destruct bs; [done|simpl; lia]. }
    rewrite (Hnth _ b Hb). cbn [ids]. rewrite slice_length.
    pose proof (Nat.div_mod (length l) 3 ltac:(lia)) as Hdm.
    pose proof (Nat.mod_upper_bound (length l) 3 ltac:(lia)) as Hm.
    case_decide; lia.
Qed.

(** C1.  For a non-empty [ids], the record that [createIngestion] stores
    under the id it returns has ceil(|ids| / 3) batches; every batch but the
    last holds exactly 3 ids; the last holds |ids| mod 3 ids, or 3 when 3
    divides |ids|; and the batches' id lists, concatenated in batch order,
    are the input list itself. *)
Theorem createIngestion_partitions_ids l p t1 t2 u sv ingId sv' u' :
  l ≠ [] →
  createIngestion l p t1 t2 u sv = (ingId, sv', u') →
  ∃ ing,
    ingestions sv' !! ingId = Some ing ∧
    length (batches ing) = ceil_div (length l) 3 ∧
    (∀ k b, batches ing !! k = Some b → (k + 1 < length (batches ing))%nat →
            length (ids b) = 3%nat) ∧
    (∀ b, last (batches ing) = Some b →
          length (ids b) =
            if decide (length l `mod` 3 = 0)%nat then 3%nat
            else (length l `mod` 3)%nat) ∧
    concat (ids <$> batches ing) = l.
Proof.
  intros _ Hci.
  destruct (createIngestion_unfold l p t1 t2 u sv) as (bs & Hbs & Heq).
  rewrite Heq in Hci. inversion Hci; subst ingId sv' u'; clear Hci.
  eexists. split; [apply lookup_insert_eq|]. simpl.
  destruct (createBatches_spec l (S u)) as (bs' & Hbs' & Hcat & Hlen & _).
  assert (bs' = bs) as -> by congruence.
  destruct (batch_sizes l (S u) bs Hbs) as [Hfull Hlast].
  split_and!; done.
Qed.

Lemma createIngestion_partitions_ids_witness :
  ∃ ing,
    ingestions (createIngestion (ints [1;2;3;4;5;6;7;8;9;10]) HIGH 0 0 0
                  new_service).1.2 !! "0" = Some ing ∧
    length <$> (ids <$> batches ing) = [3; 3; 3; 1]%nat.
Proof.
  destruct (createIngestion_partitions_ids
              (ints [1;2;3;4;5;6;7;8;9;10]) HIGH 0 0 0 new_service
              _ _ _ ltac:(done) eq_refl) as (ing & Hing & _).
  exists ing. split; [exact Hing|].
  vm_compute in Hing. inversion Hing. reflexivity.
Defined.

(** ** Sorting the queue *)

Lemma compareFn_le a b : compareFn a b ≤ 0 ↔ rank_then_time a b.
Proof. unfold compareFn, rank_then_time. case_decide; lia. Qed.

Lemma rank_then_time_total a b : rank_then_time a b ∨ rank_then_time b a.
Proof. unfold rank_then_time. lia. Qed.

Lemma rank_then_time_trans a b c :
  rank_then_time a b → rank_then_time b c → rank_then_time a c.
Proof. unfold rank_then_time. lia. Qed.

Lemma sort_insert_Permutation x l : sort_insert x l ≡ₚ x :: l.
Proof.
  induction l as [|y l IH]; simpl; [done|].
  case_decide; [done|]. rewrite IH. apply Permutation_swap.
Qed.

Lemma array_sort_Permutation l : array_sort l ≡ₚ l.
Proof.
  induction l as [|x l IH]; simpl; [done|].
  by rewrite sort_insert_Permutation, IH.
Qed.

Lemma array_sort_length l : length (array_sort l) = length l.
Proof. by rewrite array_sort_Permutation. Qed.

Lemma sort_insert_sorted x l :
  StronglySorted rank_then_time l →
  StronglySorted rank_then_time (sort_insert x l).
Proof.
  induction 1 as [|y l Hl IH Hy]; simpl.
  - repeat constructor.
  - case_decide as Hxy.
    + apply compareFn_le in Hxy. constructor; [by constructor|].
      constructor; [done|].
      eapply Forall_impl; [exact Hy|]. eauto using rank_then_time_trans.
    + constructor; [done|].
      rewrite sort_insert_Permutation. constructor; [|done].
      destruct (rank_then_time_total x y) as [Hle|Hle]; [|done].
      by apply compareFn_le in Hle.
Qed.

Lemma array_sort_sorted l : StronglySorted rank_then_time (array_sort l).
Proof.
  induction l as [|x l IH]; simpl; [constructor|].
  by apply sort_insert_sorted.
Qed.

(** Stability: items that compare equal among themselves keep their
    relative order. *)
Section stability.
Context (P : QueueItem → Prop) `{!∀ x, Decision (P x)}.

Lemma sort_insert_filter x l :
  (P x → ∀ y, y ∈ l → P y → compareFn x y ≤ 0) →
  filter P (sort_insert x l) = filter P (x :: l).
Proof.
  induction l as [|y l IH]; intros Hx; simpl; [done|].
  case_decide as Hxy; [done|].
  rewrite filter_cons, IH by (intros HP z Hz; apply Hx; [done|by right]).
  rewrite !filter_cons.
  destruct (decide (P y)) as [Hy|Hy]; [|done].
  destruct (decide (P x)) as [HPx|HPx]; [|done].
  destruct Hxy. apply Hx; [done|by left|done].
Qed.

Lemma array_sort_filter l :
  (∀ x y, x ∈ l → y ∈ l → P x → P y → compareFn x y ≤ 0) →
  filter P (array_sort l) = filter P l.
Proof.
  induction l as [|x l IH]; intros Hl; simpl; [done|].
  rewrite sort_insert_filter.
  - rewrite !filter_cons, IH; [done|].
    intros a b Ha Hb. apply Hl; by right.
  - intros HPx y Hy HPy. rewrite array_sort_Permutation in Hy.
    apply Hl; [by left|by right|done|done].
Qed.
End stability.

(** ** One turn of the loop *)

(** The three ways a turn can go. *)
Lemma loop_turn_cases sv :
  (batchQueue sv = [] ∧ loop_turn sv = TurnExit (leave_loop sv)) ∨
  ∃ item rest,
    array_sort (batchQueue sv) = item :: rest ∧
    ((loop_turn sv = TurnSkip (set_queue rest (sortQueue sv))) ∨
     ∃ ing k b,
       ingestions sv !! ingestionId item = Some ing ∧
       list_find (λ b, batchId b = q_batchId item) (batches ing)
         = Some (k, b) ∧
       status b = yet_to_start ∧
       loop_turn sv =
         TurnDispatch item k (bool_decide (rest ≠ []))
           {| ingestions :=
                <[ingestionId item := mark_triggered k b ing]> (ingestions sv);
              batchQueue := rest;
              isProcessing := isProcessing sv |}).
Proof.
  unfold loop_turn.
  destruct (batchQueue sv) as [|q0 q] eqn:Hq; [by left|right].
  cbn [sortQueue set_queue batchQueue ingestions isProcessing]. rewrite Hq.
  destruct (array_sort (q0 :: q)) as [|item rest] eqn:Hs.
  { apply (f_equal length) in Hs. rewrite array_sort_length in Hs. done. }
  exists item, rest. split; [done|].
  destruct (ingestions sv !! ingestionId item) as [ing|] eqn:Hing;
    [|left; unfold sortQueue; by rewrite Hq, Hs].
  destruct (list_find _ (batches ing)) as [[k b]|] eqn:Hfind;
    [|left; unfold sortQueue; by rewrite Hq, Hs].
  case_decide as Hst; [left; unfold sortQueue; by rewrite Hq, Hs|].
  right. exists ing, k, b. split_and!; [done|done| |done].
  by destruct (status b).
Qed.

Lemma loop_turn_dispatch sv item k wait sv' :
  loop_turn sv = TurnDispatch item k wait sv' →
  ∃ ing b,
    array_sort (batchQueue sv) = item :: batchQueue sv' ∧
    wait = bool_decide (batchQueue sv' ≠ []) ∧
    ingestions sv !! ingestionId item = Some ing ∧
    list_find (λ b, batchId b = q_batchId item) (batches ing) = Some (k, b) ∧
    status b = yet_to_start ∧
    ingestions sv' =
      <[ingestionId item := mark_triggered k b ing]> (ingestions sv) ∧
    isProcessing sv' = isProcessing sv.
Proof.
  intros Hturn.
  destruct (loop_turn_cases sv) as [[_ H]|(it & rest & Hs & [H|H])];
    [congruence|congruence|].
  destruct H as (ing & k' & b & Hing & Hfind & Hst & H).
  rewrite H in Hturn. inversion Hturn; subst; clear Hturn.
  exists ing, b. split_and!; done.
Qed.

(** C3.  A turn that dispatches re-sorts the whole pending queue by priority
    rank (HIGH = 0, MEDIUM = 1, LOW = 2), then by enqueue time ascending,
    and takes the head of the sorted queue: the dispatched item and the
    items left pending are together the queue as it stood, in sorted order,
    so no item left pending has a strictly higher priority (a smaller rank)
    than the dispatched one, and among those of its priority none was
    enqueued earlier.  This holds in every state of the service, whenever
    the items were enqueued. *)
Theorem dispatch_takes_head_of_sorted_queue sv item k wait sv' :
  loop_turn sv = TurnDispatch item k wait sv' →
  (priorityOrder HIGH = 0 ∧ priorityOrder MEDIUM = 1 ∧ priorityOrder LOW = 2) ∧
  array_sort (batchQueue sv) = item :: batchQueue sv' ∧
  item :: batchQueue sv' ≡ₚ batchQueue sv ∧
  StronglySorted rank_then_time (item :: batchQueue sv') ∧
  ∀ e, e ∈ batchQueue sv' →
    priorityOrder (priority item) ≤ priorityOrder (priority e) ∧
    (priorityOrder (priority item) = priorityOrder (priority e) →
     createdAt item ≤ createdAt e).
Proof.
  intros Hturn.
  destruct (loop_turn_dispatch _ _ _ _ _ Hturn) as (ing & b & Hs & _).
  pose proof (array_sort_sorted (batchQueue sv)) as Hsorted.
  rewrite Hs in Hsorted.
  split_and!; [done|done|done|done| | |].
  - rewrite <- Hs. apply array_sort_Permutation.
  - done.
  - intros e He. apply StronglySorted_inv in Hsorted as [_ Hhd].
    rewrite Forall_forall in Hhd. specialize (Hhd e He).
    unfold rank_then_time in Hhd. lia.
Qed.

Lemma dispatch_takes_head_of_sorted_queue_witness :
  ∃ item k wait sv',
    loop_turn (svc (state_after high_arrives_late))
      = TurnDispatch item k wait sv' ∧
    priority item = HIGH ∧
    priority <$> batchQueue sv' = [LOW] ∧
    ∀ e, e ∈ batchQueue sv' →
      priorityOrder (priority item) ≤ priorityOrder (priority e).
Proof.
  assert (∃ item k wait sv',
            loop_turn (svc (state_after high_arrives_late))
              = TurnDispatch item k wait sv' ∧
            priority item = HIGH ∧ priority <$> batchQueue sv' = [LOW])
    as (item & k & wait & sv' & Hturn & Hhigh & Hlow).
  { do 4 eexists. split; [vm_compute; reflexivity|]. split; reflexivity. }
  exists item, k, wait, sv'. split_and!; [done..|].
  intros e He.
  by apply (dispatch_takes_head_of_sorted_queue _ _ _ _ _ Hturn).
Defined.

(** ** Status queries *)

Lemma all_completed_Forall bs :
  forallb (has_status completed) bs = true
  ↔ Forall (λ b, status b = completed) bs.
Proof.
  rewrite <- Is_true_true, forallb_True. unfold has_status.
  apply Forall_iff. intros b. apply bool_decide_spec.
Qed.

Lemma some_status_Exists st bs :
  existsb (has_status st) bs = true ↔ Exists (λ b, status b = st) bs.
Proof.
  rewrite <- Is_true_true, existb_True, !Exists_exists. unfold has_status.
  split; intros (b & Hb & H); exists b; (split; [done|]).
  - by apply bool_decide_unpack in H.
  - by apply bool_decide_pack.
Qed.

Lemma bool_iff_cases (b : bool) (P : Prop) :
  (b = true ↔ P) → (b = true ∧ P) ∨ (b = false ∧ ¬ P).
Proof. destruct b; intros [H1 H2]; [left|right]; split; auto. intros HP. by apply H2 in HP. Qed.

Lemma getIngestionStatus_registered ingId sv ing :
  ingestions sv !! ingId = Some ing →
  ∃ st,
    getIngestionStatus ingId sv =
      Some {| ingestion_id := ingId; overall_status := st;
              view_batches := batch_view <$> batches ing |} ∧
    (st = completed ↔ Forall (λ b, status b = completed) (batches ing)) ∧
    (st = triggered ↔
       ¬ Forall (λ b, status b = completed) (batches ing) ∧
       Exists (λ b, status b = triggered ∨ status b = completed)
         (batches ing)) ∧
    (st = yet_to_start ↔
       ¬ Forall (λ b, status b = completed) (batches ing) ∧
       ¬ Exists (λ b, status b = triggered ∨ status b = completed)
           (batches ing)).
Proof.
  intros Hing. unfold getIngestionStatus. rewrite Hing.
  eexists. split; [reflexivity|].
  pose proof (all_completed_Forall (batches ing)) as Hall.
  pose proof (some_status_Exists triggered (batches ing)) as Htr.
  pose proof (some_status_Exists completed (batches ing)) as Hco.
  assert (Exists (λ b, status b = triggered ∨ status b = completed)
            (batches ing)
          ↔ Exists (λ b, status b = triggered) (batches ing) ∨
            Exists (λ b, status b = completed) (batches ing)) as Hex.
  { rewrite !Exists_exists. split.
    - intros (b & Hb & [H|H]); [left|right]; eauto.
    - intros [(b & Hb & H)|(b & Hb & H)]; eauto. }
  rewrite Hex.
  destruct (bool_iff_cases _ _ Hall) as [[E1 HA]|[E1 HA]];
    destruct (bool_iff_cases _ _ Htr) as [[E2 HT]|[E2 HT]];
    destruct (bool_iff_cases _ _ Hco) as [[E3 HC]|[E3 HC]];
    rewrite E1, ?E2, ?E3; simpl;
    (split_and!; (split; intros ?); try discriminate; try tauto).
Qed.

Lemma reachable_run es : ∀ s s', reachable s → run es s = Some s' → reachable s'.
Proof.
  induction es as [|e es IH]; intros s s' Hs Hrun; simpl in Hrun.
  - by inversion Hrun; subst.
  - destruct (step e s) as [s1|] eqn:Hstep; [|done].
    eapply IH; [|done]. by eapply reachable_step.
Qed.

(** C6.  A status query on a registered id returns the record
    [{ ingestion_id, status, batches: [{batch_id, ids, status}] }] built from
    the stored batches, and the router answers 200 with it; on any other id
    the service returns [null] and the router answers 404.  Either way the
    state of the system is what it was. *)
Theorem getStatus_record_or_not_found ingId s :
  match ingestions (svc s) !! ingId with
  | Some ing =>
      ∃ st,
        let view :=
          {| ingestion_id := ingId; overall_status := st;
             view_batches :=
               (λ b, {| batch_id := batchId b; view_ids := ids b;
                        view_status := status b |}) <$> batches ing |} in
        getIngestionStatus ingId (svc s) = Some view ∧
        get_status ingId s =
          ({| http_status := 200; body := StatusBody view |}, s)
  | None =>
      getIngestionStatus ingId (svc s) = None ∧
      get_status ingId s =
        ({| http_status := 404; body := ErrorBody "Ingestion not found" |}, s)
  end.
Proof.
  destruct (ingestions (svc s) !! ingId) as [ing|] eqn:Hing.
  - destruct (getIngestionStatus_registered _ _ _ Hing) as (st & Hget & _).
    exists st. cbn zeta. split; [exact Hget|].
    unfold get_status. by rewrite Hget.
  - unfold get_status, getIngestionStatus. by rewrite Hing.
Qed.

(** ** Validation in the ingest router *)

Lemma id_rejected_false v : id_rejected v = false ↔ valid_id v.
Proof.
  unfold valid_id. split.
  - destruct v; simpl; try discriminate. intros H. exists z. split; [done|].
    apply orb_false_iff in H as [H1 H2].
    apply Z.ltb_ge in H1, H2. lia.
  - intros (z & -> & Hz). simpl. apply orb_false_iff.
    split; apply Z.ltb_ge; lia.
Qed.

Lemma no_id_rejected l : existsb id_rejected l = false ↔ Forall valid_id l.
Proof.
  induction l as [|v l IH]; simpl.
  - split; [constructor|done].
  - rewrite orb_false_iff, Forall_cons, IH, id_rejected_false. done.
Qed.

Lemma priority_literal_valid v :
  is_Some (priority_literal v) ↔ valid_priority v.
Proof.
  unfold valid_priority. split.
  - intros [p Hp]. destruct v; simpl in Hp; try discriminate.
    repeat case_decide; subst; auto. discriminate.
  - intros [-> | [-> | ->]]; simpl; eauto.
Qed.

(** C5.  The ingest router answers 400 exactly when the request is not
    well-formed: [ids] is not a non-empty array, or one of its elements is
    not an integer in [1, 10^9 + 7], or [priority] is not one of the three
    literals.  A request answered 400 leaves the state of the system as it
    was; no record and no queue item is created.  A well-formed request is
    answered 200 with the id of the ingestion that the one call of
    [createIngestion] made.  In particular [ids = [0]] is answered 400
    whatever the priority. *)
Theorem post_ingest_validates ids_v priority_v t1 t2 s :
  (http_status (post_ingest ids_v priority_v t1 t2 s).1 = 400%nat
   ↔ ¬ well_formed_request ids_v priority_v) ∧
  (http_status (post_ingest ids_v priority_v t1 t2 s).1 = 400%nat →
   (post_ingest ids_v priority_v t1 t2 s).2 = s) ∧
  (well_formed_request ids_v priority_v →
   ∃ l p,
     ids_v = JArray l ∧ priority_literal priority_v = Some p ∧
     post_ingest ids_v priority_v t1 t2 s =
       ({| http_status := 200;
           body := IngestBody (submit l p t1 t2 s).1 |},
        (submit l p t1 t2 s).2)) ∧
  http_status (post_ingest (JArray [JInt 0]) priority_v t1 t2 s).1 = 400%nat ∧
  (post_ingest (JArray [JInt 0]) priority_v t1 t2 s).2 = s.
Proof.
  assert (∀ l p, http_status
            (let '(ingId, s') := submit l p t1 t2 s in
             ({| http_status := 200; body := IngestBody ingId |}, s')).1
          ≠ 400%nat) as Hok.
  { intros l p. by destruct (submit l p t1 t2 s). }
  split_and!.
  - unfold well_formed_request, post_ingest. split.
    + intros H400 (l & -> & Hne & Hids & Hprio).
      case_decide as Hlen; [by destruct l|].
      apply priority_literal_valid in Hprio as [p Hp]. rewrite Hp in H400.
      apply no_id_rejected in Hids. rewrite Hids in H400.
      by apply Hok in H400.
    + intros Hbad. destruct ids_v as [| | | | | |l|]; try done.
      case_decide as Hlen; [done|].
      destruct (priority_literal priority_v) as [p|] eqn:Hp; [|done].
      destruct (existsb id_rejected l) eqn:Hids; [done|].
      destruct Hbad. exists l. split_and!; [done| | |].
      * by intros ->.
      * by apply no_id_rejected.
      * apply priority_literal_valid. eauto.
  - unfold post_ingest. destruct ids_v as [| | | | | |l|]; try done.
    case_decide; [done|].
    destruct (priority_literal priority_v) as [p|]; [|done].
    destruct (existsb id_rejected l); [done|].
    intros H400. by apply Hok in H400.
  - intros (l & -> & Hne & Hids & Hprio).
    apply priority_literal_valid in Hprio as [p Hp].
    exists l, p. split_and!; [done..|].
    unfold post_ingest. case_decide as Hlen; [by destruct l|].
    apply no_id_rejected in Hids. rewrite Hp, Hids.
    by destruct (submit l p t1 t2 s).
  - simpl. by destruct (priority_literal priority_v).
  - simpl. by destruct (priority_literal priority_v).
Qed.

Lemma post_ingest_validates_witness :
  http_status (post_ingest (JArray (ints [0; 1; 2])) (JString "HIGH") 0 0
                 init).1 = 400%nat ∧
  (post_ingest (JArray (ints [0; 1; 2])) (JString "HIGH") 0 0 init).2 = init ∧
  http_status (post_ingest (JArray (ints [1; 2; 3; 4; 5])) (JString "HIGH") 0 0
                 init).1 = 200%nat.
Proof.
  destruct (post_ingest_validates (JArray (ints [0; 1; 2])) (JString "HIGH")
              0 0 init) as (_ & Hkeep & _).
  destruct (post_ingest_validates (JArray (ints [1; 2; 3; 4; 5]))
              (JString "HIGH") 0 0 init) as (_ & _ & Hok & _).
  split_and!; [reflexivity|by apply Hkeep|].
  destruct Hok as (l & p & _ & _ & ->); [|reflexivity].
  exists (ints [1; 2; 3; 4; 5]). split_and!; [done|done| |by left].
  repeat constructor; eexists; (split; [reflexivity|lia]).
Defined.

(** ** Consistency of the reachable states *)

Lemma uuidv4_inj n m : uuidv4 n = uuidv4 m → n = m.
Proof. unfold uuidv4. apply (inj pretty). Qed.

Lemma item_batch_Some sv e b :
  item_batch sv e = Some b ↔
  ∃ ing k, ingestions sv !! ingestionId e = Some ing ∧
           list_find (λ b, batchId b = q_batchId e) (batches ing)
             = Some (k, b).
Proof.
  unfold item_batch. split.
  - intros H. apply bind_Some in H as (ing & Hing & H).
    apply fmap_Some in H as ([k b'] & Hfind & ->). eauto.
  - intros (ing & k & Hing & Hfind). rewrite Hing. simpl. by rewrite Hfind.
Qed.

(** Changing the status of the batch at one position does not move what
    [find] returns for another position. *)
Lemma list_find_set_status bid (l : list Batch) k b st j y :
  l !! k = Some b →
  list_find (λ b, batchId b = bid) l = Some (j, y) →
  j ≠ k →
  list_find (λ b, batchId b = bid) (<[k := set_status st b]> l) = Some (j, y).
Proof.
  intros Hk Hfind Hjk. apply list_find_Some in Hfind as (Hj & HP & Hmin).
  apply list_find_Some. split_and!; [by rewrite list_lookup_insert_ne|done|].
  intros j' y' Hj' Hlt. destruct (decide (j' = k)) as [->|Hne].
  - rewrite list_lookup_insert_eq in Hj' by eauto using lookup_lt_Some.
    inversion Hj'; subst y'. simpl. by apply (Hmin k b).
  - rewrite list_lookup_insert_ne in Hj' by done. by apply (Hmin j' y').
Qed.

(** ... and at the position itself [find] returns the changed batch. *)
Lemma list_find_set_status_same bid (l : list Batch) k b st :
  list_find (λ b, batchId b = bid) l = Some (k, b) →
  list_find (λ b, batchId b = bid) (<[k := set_status st b]> l)
    = Some (k, set_status st b).
Proof.
  intros Hfind. apply list_find_Some in Hfind as (Hk & HP & Hmin).
  apply list_find_Some. split_and!.
  - apply list_lookup_insert_eq. eauto using lookup_lt_Some.
  - done.
  - intros j' y' Hj' Hlt. rewrite list_lookup_insert_ne in Hj' by lia.
    by apply (Hmin j' y').
Qed.

Lemma lookup_set_status_is_Some (l : list Batch) k b st j y0 :
  l !! k = Some b → l !! j = Some y0 →
  ∃ y, <[k := set_status st b]> l !! j = Some y ∧
       batchId y = batchId y0 ∧ ids y = ids y0 ∧
       ((j ≠ k ∧ y = y0) ∨ (j = k ∧ y0 = b ∧ status y = st)).
Proof.
  intros Hk Hj. destruct (decide (j = k)) as [->|Hne].
  - exists (set_status st b).
    rewrite list_lookup_insert_eq by eauto using lookup_lt_Some.
    assert (y0 = b) as -> by congruence. split_and!; [done..|]. by right.
  - exists y0. rewrite list_lookup_insert_ne by done.
    split_and!; [done..|]. by left.
Qed.

(** The batches that [createBatches] makes. *)
Lemma createBatches_fresh l u bs :
  createBatches l u = (bs, (u + length bs)%nat) →
  Forall (λ b, status b = yet_to_start) bs ∧ NoDup (batchId <$> bs).
Proof.
  intros Hcb.
  destruct (createBatches_spec l u) as (bs' & Hbs' & _ & _ & Hnth).
  assert (bs' = bs) as -> by congruence. split.
  - apply Forall_lookup. intros k b Hk. by rewrite (Hnth k b Hk).
  - apply NoDup_alt. intros i j x Hi Hj.
    apply list_lookup_fmap_Some in Hi as (bi & -> & Hi).
    apply list_lookup_fmap_Some in Hj as (bj & Hij & Hj).
    rewrite (Hnth i bi Hi), (Hnth j bj Hj) in Hij. simpl in Hij.
    apply uuidv4_inj in Hij. lia.
Qed.

Lemma submit_unfold l p t1 t2 s :
  ∃ bs,
    createBatches l (S (uuids s)) = (bs, (S (uuids s) + length bs)%nat) ∧
    submit l p t1 t2 s =
      (uuidv4 (uuids s),
       {| svc :=
            sortQueue
              {| ingestions :=
                   <[uuidv4 (uuids s) :=
                       {| ing_id := uuidv4 (uuids s); ing_priority := p;
                          batches := bs; ing_createdAt := t1;
                          ing_status := yet_to_start |}]>
                     (ingestions (svc s));
                 batchQueue :=
                   batchQueue (svc s)
                   ++ (queue_item (uuidv4 (uuids s)) p t2 <$> bs);
                 isProcessing := isProcessing (svc s) |};
          uuids := (S (uuids s) + length bs)%nat; now := t2;
          immediates := S (immediates s); loop := loop s;
          inflight := inflight s; dispatches := dispatches s |}).
Proof.
  destruct (createIngestion_unfold l p t1 t2 (uuids s) (svc s))
    as (bs & Hbs & Heq).
  exists bs. split; [done|]. unfold submit. by rewrite Heq.
Qed.

Lemma consistent_init : consistent init.
Proof.
  split; simpl.
  - intros key ing H. by rewrite lookup_empty in H.
  - intros e He. by apply elem_of_nil in He.
  - constructor.
  - intros ingId k H. by apply elem_of_nil in H.
  - done.
Qed.

(** The key of a new ingestion is not in the store. *)
Lemma consistent_fresh_key s :
  consistent s → ingestions (svc s) !! uuidv4 (uuids s) = None.
Proof.
  intros Hs. destruct (ingestions (svc s) !! uuidv4 (uuids s)) eqn:H; [|done].
  apply (keys_drawn s Hs) in H as (n & Hn & Heq).
  apply uuidv4_inj in Heq. lia.
Qed.

Lemma consistent_queue_registered s e :
  consistent s → e ∈ batchQueue (svc s) →
  ingestionId e ≠ uuidv4 (uuids s).
Proof.
  intros Hs He Heq.
  apply (queue_pending s Hs) in He as (b & Hb & _).
  apply item_batch_Some in Hb as (ing & k & Hing & _).
  rewrite Heq, consistent_fresh_key in Hing; done.
Qed.

Lemma consistent_submit l p t1 t2 s :
  consistent s → consistent (submit l p t1 t2 s).2.
Proof.
  intros Hs. destruct (submit_unfold l p t1 t2 s) as (bs & Hbs & ->).
  destruct (createBatches_fresh _ _ _ Hbs) as [Hpending Hdistinct].
  pose proof (consistent_fresh_key s Hs) as Hfresh.
  set (u := uuids s) in *.
  split; fields.
  - intros key ing Hkey. destruct (decide (key = uuidv4 u)) as [->|Hne].
    + exists u. split; [lia|done].
    + rewrite lookup_insert_ne in Hkey by done.
      apply (keys_drawn s Hs) in Hkey as (n & Hn & ->).
      exists n. split; [fold u in Hn; lia|done].
  - intros e He. rewrite array_sort_Permutation in He.
    apply elem_of_app in He as [He|He].
    + pose proof (consistent_queue_registered s e Hs He) as Hne.
      apply (queue_pending s Hs) in He as (b & Hb & Hst).
      exists b. split; [|done].
      apply item_batch_Some in Hb as (ing & k & Hing & Hfind).
      apply item_batch_Some. exists ing, k. fields.
      by rewrite lookup_insert_ne.
    + apply list_elem_of_fmap in He as (b & -> & Hb).
      destruct (list_find_elem_of (λ b', batchId b' = batchId b) bs b Hb)
        as [[k b'] Hfind]; [done|].
      exists b'. split.
      * apply item_batch_Some. eexists _, k. fields.
        rewrite lookup_insert_eq. done.
      * apply list_find_Some in Hfind as (Hk & _).
        by eapply Forall_lookup_1 in Hpending.
  - rewrite array_sort_Permutation, fmap_app. apply NoDup_app. split_and!.
    + apply (queue_unique s Hs).
    + intros key Hold Hnew.
      apply list_elem_of_fmap in Hold as (e & -> & He).
      apply list_elem_of_fmap in Hnew as (e' & Heq & He').
      apply list_elem_of_fmap in He' as (b & -> & _).
      apply (consistent_queue_registered s e Hs He).
      by inversion Heq.
    + rewrite <- list_fmap_compose.
      apply (NoDup_fmap_2_strong _); [|by apply NoDup_fmap_1 in Hdistinct].
      intros b1 b2 Hb1 Hb2 Heq. inversion Heq as [Hid].
      pose proof (proj1 (NoDup_alt _) Hdistinct) as Halt.
      apply list_elem_of_lookup in Hb1 as [i Hi].
      apply list_elem_of_lookup in Hb2 as [j Hj].
      assert (i = j) as ->; [|congruence].
      apply (Halt i j (batchId b1)); rewrite list_lookup_fmap.
      * by rewrite Hi.
      * by rewrite Hj, Hid.
  - intros ingId k Hin.
    apply (inflight_started s Hs) in Hin as (ing & b & Hing & Hk & Hst).
    exists ing, b. split_and!; [|done..].
    rewrite lookup_insert_ne; [done|]. intros <-. congruence.
  - apply (processing_flag s Hs).
Qed.

(** A queue item keeps pointing at the same pending batch when the status
    of another batch changes. *)
Lemma item_batch_insert sv sv' e ingId ing ing' k b st y :
  ingestions sv !! ingId = Some ing →
  batches ing !! k = Some b →
  batches ing' = <[k := set_status st b]> (batches ing) →
  ingestions sv' = <[ingId := ing']> (ingestions sv) →
  item_batch sv e = Some y →
  (ingestionId e = ingId →
   list_find (λ b, batchId b = q_batchId e) (batches ing) ≠ Some (k, b)) →
  item_batch sv' e = Some y.
Proof.
  intros Hing Hk Hbs Hsv' Hy Hother.
  apply item_batch_Some in Hy as (ing0 & j & Hing0 & Hfind).
  apply item_batch_Some. rewrite Hsv'.
  destruct (decide (ingestionId e = ingId)) as [Heq|Hne].
  - rewrite Heq in *. assert (ing0 = ing) as -> by congruence.
    exists ing', j. rewrite lookup_insert_eq. split; [done|].
    rewrite Hbs. eapply list_find_set_status; [done..|].
    intros ->. apply (Hother eq_refl). rewrite Hfind.
    apply list_find_Some in Hfind as (Hj & _). congruence.
  - exists ing0, j. by rewrite lookup_insert_ne.
Qed.

Lemma consistent_loop_turn s s' :
  consistent s → loop s = Running → step LoopTurn s = Some s' →
  consistent s'.
Proof.
  intros Hs Hrun Hstep. unfold step in Hstep.
  rewrite decide_True in Hstep by done.
  pose proof (processing_flag s Hs) as Hflag. rewrite Hrun in Hflag.
  destruct (loop_turn_cases (svc s))
    as [[Hq Hturn]|(item & rest & Hsort & [Hturn|Hturn])].
  - (* the queue is empty: the loop is left *)
    rewrite Hturn in Hstep. inversion Hstep; subst s'; clear Hstep.
    split; fields.
    + apply (keys_drawn s Hs).
    + rewrite Hq. intros e He. by apply elem_of_nil in He.
    + rewrite Hq. constructor.
    + apply (inflight_started s Hs).
    + done.
  - (* the head is dropped *)
    rewrite Hturn in Hstep. inversion Hstep; subst s'; clear Hstep.
    assert (∀ e, e ∈ rest → e ∈ batchQueue (svc s)) as Hsub.
    { intros e He. rewrite <- array_sort_Permutation, Hsort. by right. }
    split; fields.
    + apply (keys_drawn s Hs).
    + intros e He. apply Hsub, (queue_pending s Hs) in He as (b & Hb & Hst).
      exists b. split; [|done].
      apply item_batch_Some in Hb. by apply item_batch_Some.
    + pose proof (queue_unique s Hs) as Hnd.
      rewrite <- array_sort_Permutation, Hsort, fmap_cons in Hnd.
      by apply NoDup_cons in Hnd as [_ Hnd].
    + apply (inflight_started s Hs).
    + by rewrite Hrun.
  - (* the head is dispatched *)
    destruct Hturn as (ing & k & b & Hing & Hfind & Hst & Hturn).
    rewrite Hturn in Hstep. inversion Hstep; subst s'; clear Hstep.
    assert (∀ e, e ∈ rest → e ∈ batchQueue (svc s)) as Hsub.
    { intros e He. rewrite <- array_sort_Permutation, Hsort. by right. }
    pose proof (queue_unique s Hs) as Hnd.
    rewrite <- array_sort_Permutation, Hsort, fmap_cons in Hnd.
    apply NoDup_cons in Hnd as [Hitem Hnd].
    pose proof Hfind as Hfind'.
    apply list_find_Some in Hfind' as (Hk & Hbid & _).
    split; fields.
    + intros key ing' Hkey.
      destruct (decide (key = ingestionId item)) as [->|Hne].
      * apply (keys_drawn s Hs _ ing Hing).
      * rewrite lookup_insert_ne in Hkey by done.
        apply (keys_drawn s Hs _ _ Hkey).
    + intros e He. pose proof (Hsub e He) as He'.
      apply (queue_pending s Hs) in He' as (y & Hy & Hyst).
      exists y. split; [|done].
      eapply (item_batch_insert (svc s)); [exact Hing|exact Hk| |done|done|].
      { reflexivity. }
      intros Hsame Hfe. apply Hitem.
      apply list_elem_of_fmap. exists e. split; [|done].
      unfold item_key. f_equal; [done|].
      apply list_find_Some in Hfe as (_ & Hbe & _). congruence.
    + done.
    + intros ingId k' Hin. apply elem_of_cons in Hin as [Heq|Hin].
      * inversion Heq; subst ingId k'. eexists _, _.
        rewrite lookup_insert_eq. split; [done|]. cbn [mark_triggered batches].
        rewrite list_lookup_insert_eq by eauto using lookup_lt_Some.
        split; [done|]. done.
      * apply (inflight_started s Hs) in Hin as (ing' & b' & Hing' & Hk' & Hst').
        destruct (decide (ingId = ingestionId item)) as [->|Hne].
        -- assert (ing' = ing) as -> by congruence.
           destruct (lookup_set_status_is_Some _ _ _ triggered _ _ Hk Hk')
             as (y & Hy & _ & _ & Hcase).
           eexists _, y. rewrite lookup_insert_eq. split; [done|].
           cbn [mark_triggered batches]. split; [done|].
           destruct Hcase as [[_ ->]|(_ & _ & ->)]; done.
        -- exists ing', b'. by rewrite lookup_insert_ne.
    + rewrite Hflag. by destruct (bool_decide (rest ≠ [])).
Qed.

Lemma consistent_batch_done s s' ingId k :
  consistent s → step (BatchDone ingId k) s = Some s' → consistent s'.
Proof.
  intros Hs Hstep. unfold step in Hstep.
  case_decide as Hen; [|done]. destruct Hen as [Hloop Hin].
  inversion Hstep; subst s'; clear Hstep.
  destruct (inflight_started s Hs _ _ Hin) as (ing & b & Hing & Hk & Hst).
  unfold batch_done. rewrite Hing, Hk.
  split; fields.
  - intros key ing' Hkey.
    destruct (decide (key = ingId)) as [->|Hne].
    + apply (keys_drawn s Hs _ ing Hing).
    + rewrite lookup_insert_ne in Hkey by done.
      apply (keys_drawn s Hs _ _ Hkey).
  - intros e He.
    apply (queue_pending s Hs) in He as (y & Hy & Hyst).
    exists y. split; [|done].
    eapply (item_batch_insert (svc s)); [exact Hing|exact Hk| |done|done|].
    { reflexivity. }
    intros Hsame Hfe.
    apply item_batch_Some in Hy as (ing0 & j & Hing0 & Hfind).
    rewrite Hsame in Hing0. assert (ing0 = ing) as -> by congruence.
    assert (y = b) as -> by congruence. done.
  - apply (queue_unique s Hs).
  - intros ingId' k' Hin'. apply list_elem_of_filter in Hin' as [_ Hin'].
    apply (inflight_started s Hs) in Hin' as (ing' & b' & Hing' & Hk' & Hst').
    destruct (decide (ingId' = ingId)) as [->|Hne].
    + assert (ing' = ing) as -> by congruence.
      destruct (lookup_set_status_is_Some _ _ _ completed _ _ Hk Hk')
        as (y & Hy & _ & _ & Hcase).
      eexists _, y. rewrite lookup_insert_eq. split; [done|].
      cbn [mark_completed batches]. split; [done|].
      destruct Hcase as [[_ ->]|(_ & _ & ->)]; done.
    + exists ing', b'. by rewrite lookup_insert_ne.
  - apply (processing_flag s Hs).
Qed.

Lemma consistent_step e s s' :
  consistent s → step e s = Some s' → consistent s'.
Proof.
  intros Hs Hstep. destruct e as [d|l p t1 t2|ingId| | | |ingId k].
  - unfold step in Hstep. case_decide; [|done].
    inversion Hstep; subst s'. by destruct Hs.
  - unfold step in Hstep. case_decide; [|done].
    inversion Hstep; subst s'. by apply consistent_submit.
  - unfold step in Hstep. case_decide; [|done]. by inversion Hstep; subst s'.
  - unfold step in Hstep. destruct (immediates s) as [|n]; [done|].
    case_decide as Hloop; [|done]. inversion Hstep; subst s'; clear Hstep.
    unfold startProcessing. fields.
    destruct (negb (isProcessing (svc s)) && _) eqn:Hstart; [|by destruct Hs].
    apply andb_true_iff in Hstart as [_ Hq].
    apply negb_true_iff, bool_decide_eq_false in Hq.
    destruct Hs as [H1 H2 H3 H4 H5]. split; fields; try done.
  - unfold step in Hstep. case_decide as Hloop; [|done].
    eapply consistent_loop_turn; [done..|].
    unfold step. by rewrite decide_True.
  - unfold step in Hstep. destruct (loop s) as [| |wake] eqn:Hloop; try done.
    case_decide; [|done]. inversion Hstep; subst s'; clear Hstep.
    destruct Hs as [H1 H2 H3 H4 H5]. rewrite Hloop in H5.
    split; fields; done.
  - by eapply consistent_batch_done.
Qed.

Lemma reachable_consistent s : reachable s → consistent s.
Proof.
  induction 1 as [|e s s' _ IH Hstep];
    [apply consistent_init|by eapply consistent_step].
Qed.

(** ** Batch statuses only move forward *)

Lemma forward_after_status_change (m : gmap Uuid Ingestion) i0 ing0 ing0' k0 b0 st
    ingId ing k b :
  m !! i0 = Some ing0 →
  batches ing0 !! k0 = Some b0 →
  batches ing0' = <[k0 := set_status st b0]> (batches ing0) →
  (status_rank (status b0) ≤ status_rank st)%nat →
  m !! ingId = Some ing →
  batches ing !! k = Some b →
  ∃ ing' b',
    <[i0 := ing0']> m !! ingId = Some ing' ∧
    batches ing' !! k = Some b' ∧
    batchId b' = batchId b ∧ ids b' = ids b ∧
    (status_rank (status b) ≤ status_rank (status b'))%nat.
Proof.
  intros Hi0 Hk0 Hbs Hrank Hing Hk.
  destruct (decide (ingId = i0)) as [->|Hne].
  - assert (ing = ing0) as -> by congruence.
    destruct (lookup_set_status_is_Some _ _ _ st _ _ Hk0 Hk)
      as (y & Hy & Hid & Hids & Hcase).
    exists ing0', y. rewrite lookup_insert_eq, Hbs.
    split_and!; [done..|].
    destruct Hcase as [[_ ->]|(_ & -> & ->)]; [done|lia].
  - exists ing, b. by rewrite lookup_insert_ne.
Qed.

Lemma step_batch_forward e s s' ingId ing k b :
  consistent s → step e s = Some s' →
  ingestions (svc s) !! ingId = Some ing →
  batches ing !! k = Some b →
  ∃ ing' b',
    ingestions (svc s') !! ingId = Some ing' ∧
    batches ing' !! k = Some b' ∧
    batchId b' = batchId b ∧ ids b' = ids b ∧
    (status_rank (status b) ≤ status_rank (status b'))%nat.
Proof.
  intros Hs Hstep Hing Hk.
  assert (∃ ing' b',
            ingestions (svc s) !! ingId = Some ing' ∧
            batches ing' !! k = Some b' ∧
            batchId b' = batchId b ∧ ids b' = ids b ∧
            (status_rank (status b) ≤ status_rank (status b'))%nat)
    as Hsame by (exists ing, b; done).
  destruct e as [d|l p t1 t2|ingId0| | | |ingId0 k0]; unfold step in Hstep.
  - case_decide; [|done]. by inversion Hstep; subst s'.
  - case_decide; [|done]. inversion Hstep; subst s'; clear Hstep.
    destruct (submit_unfold l p t1 t2 s) as (bs & _ & ->). fields.
    exists ing, b. rewrite lookup_insert_ne; [done|].
    intros <-. by rewrite (consistent_fresh_key s Hs) in Hing.
  - case_decide; [|done]. by inversion Hstep; subst s'.
  - destruct (immediates s); [done|]. case_decide; [|done].
    inversion Hstep; subst s'; clear Hstep. unfold startProcessing. fields.
    by destruct (negb _ && _).
  - case_decide; [|done].
    destruct (loop_turn_cases (svc s))
      as [[_ Hturn]|(item & rest & _ & [Hturn|Hturn])].
    + rewrite Hturn in Hstep. by inversion Hstep; subst s'.
    + rewrite Hturn in Hstep. by inversion Hstep; subst s'.
    + destruct Hturn as (ing0 & k0 & b0 & Hing0 & Hfind & Hst & Hturn).
      rewrite Hturn in Hstep. inversion Hstep; subst s'; clear Hstep. fields.
      apply list_find_Some in Hfind as (Hk0 & _).
      eapply forward_after_status_change; [done..|reflexivity| |done|done].
      rewrite Hst. simpl. lia.
  - destruct (loop s); try done. case_decide; [|done].
    by inversion Hstep; subst s'.
  - case_decide; [|done]. inversion Hstep; subst s'; clear Hstep. fields.
    unfold batch_done.
    destruct (ingestions (svc s) !! ingId0) as [ing0|] eqn:Hing0; [|done].
    destruct (batches ing0 !! k0) as [b0|] eqn:Hk0; [|done]. fields.
    eapply forward_after_status_change; [done..|reflexivity| |done|done].
    simpl. destruct (status b0); simpl; lia.
Qed.

(** C7.  Along any sequence of operations from a reachable state (time
    passing, admissions, status queries, [setImmediate] callbacks, turns of
    the loop, timer firings, batch completions) a stored batch stays where
    it is with its id and its ids, and its status never moves back in the
    order yet_to_start, triggered, completed. *)
Theorem batch_status_never_regresses es : ∀ s s' ingId ing k b,
  reachable s → run es s = Some s' →
  ingestions (svc s) !! ingId = Some ing →
  batches ing !! k = Some b →
  ∃ ing' b',
    ingestions (svc s') !! ingId = Some ing' ∧
    batches ing' !! k = Some b' ∧
    batchId b' = batchId b ∧ ids b' = ids b ∧
    (status_rank (status b) ≤ status_rank (status b'))%nat.
Proof.
  induction es as [|e es IH]; intros s s' ingId ing k b Hs Hrun Hing Hk;
    simpl in Hrun.
  - inversion Hrun; subst s'. exists ing, b. done.
  - destruct (step e s) as [s1|] eqn:Hstep; [|done].
    destruct (step_batch_forward e s s1 ingId ing k b
                (reachable_consistent s Hs) Hstep Hing Hk)
      as (ing1 & b1 & Hing1 & Hk1 & Hid1 & Hids1 & Hrank1).
    destruct (IH s1 s' ingId ing1 k b1 (reachable_step e s s1 Hs Hstep)
                Hrun Hing1 Hk1)
      as (ing' & b' & Hing' & Hk' & Hid' & Hids' & Hrank').
    exists ing', b'. split_and!; [done|done|congruence|congruence|lia].
Qed.

Lemma reachable_state_after es :
  is_Some (run es init) → reachable (state_after es).
Proof.
  intros [s Hs]. unfold state_after. rewrite Hs. simpl.
  by eapply (reachable_run es init); [constructor|].
Qed.

Lemma batch_status_never_regresses_witness :
  ∃ ing' b',
    ingestions (svc (state_after
      [CreateIngestion (ints [1; 2; 3; 4; 5; 6]) LOW 0 0; Immediate;
       LoopTurn; BatchDone "0" 0])) !! "0" = Some ing' ∧
    batches ing' !! 0%nat = Some b' ∧
    status b' = completed ∧
    (status_rank yet_to_start ≤ status_rank (status b'))%nat.
Proof.
  assert (reachable first_turn_ahead) as Hreach.
  { apply reachable_state_after. vm_compute. eauto. }
  destruct (batch_status_never_regresses [LoopTurn; BatchDone "0" 0]
              first_turn_ahead _ "0" _ 0 _ Hreach eq_refl eq_refl eq_refl)
    as (ing' & b' & Hing' & Hk' & _ & _ & Hrank).
  exists ing', b'. split_and!; [exact Hing'|exact Hk'| |exact Hrank].
  vm_compute in Hing'. inversion Hing'; subst ing'.
  vm_compute in Hk'. by inversion Hk'.
Defined.

(** ** Queue items *)

(** C8.  In every reachable state no two queue items refer to the same
    batch, and every queue item refers to a stored batch whose status is
    still [yet_to_start].  The turn of the loop that flips a batch to
    [triggered] is the one that takes its item out of the queue: right after
    it the batch is [triggered] and no queue item refers to it.  The
    completion of a batch leaves the queue alone. *)
Theorem queue_items_unique_and_pending s :
  reachable s →
  NoDup (item_key <$> batchQueue (svc s)) ∧
  (∀ e, e ∈ batchQueue (svc s) →
        ∃ b, item_batch (svc s) e = Some b ∧ status b = yet_to_start) ∧
  (∀ item k wait sv',
     loop_turn (svc s) = TurnDispatch item k wait sv' →
     item ∈ batchQueue (svc s) ∧
     (∃ b', item_batch sv' item = Some b' ∧ status b' = triggered) ∧
     ∀ e, e ∈ batchQueue sv' → item_key e ≠ item_key item) ∧
  (∀ ingId k,
     batchQueue (batch_done ingId k (svc s)) = batchQueue (svc s)).
Proof.
  intros Hreach. pose proof (reachable_consistent s Hreach) as Hs.
  split_and!.
  - apply (queue_unique s Hs).
  - apply (queue_pending s Hs).
  - intros item k wait sv' Hturn.
    destruct (loop_turn_dispatch _ _ _ _ _ Hturn)
      as (ing & b & Hsort & _ & Hing & Hfind & Hst & Hstore & _).
    pose proof (queue_unique s Hs) as Hnd.
    rewrite <- array_sort_Permutation, Hsort, fmap_cons in Hnd.
    apply NoDup_cons in Hnd as [Hitem _].
    split_and!.
    + rewrite <- array_sort_Permutation, Hsort. by left.
    + exists (set_status triggered b). split; [|done].
      apply item_batch_Some. eexists _, k. rewrite Hstore, lookup_insert_eq.
      split; [done|]. cbn [mark_triggered batches].
      by apply list_find_set_status_same.
    + intros e He Heq. apply Hitem. rewrite <- Heq.
      by apply list_elem_of_fmap_2.
  - intros ingId k. unfold batch_done.
    destruct (ingestions (svc s) !! ingId) as [ing|]; [|done].
    by destruct (batches ing !! k).
Qed.

Lemma queue_items_unique_and_pending_witness :
  (item_key <$> batchQueue (svc first_turn_ahead)) = [("0", "1"); ("0", "2")] ∧
  NoDup (item_key <$> batchQueue (svc first_turn_ahead)).
Proof.
  split; [reflexivity|].
  apply queue_items_unique_and_pending.
  apply reachable_state_after. vm_compute. eauto.
Defined.

(** ** Admission *)

Lemma filter_all {A} (P : A → Prop) `{!∀ x, Decision (P x)} (l : list A) :
  Forall P l → filter P l = l.
Proof.
  induction 1 as [|x l Hx _ IH]; [done|].
  by rewrite filter_cons, decide_True, IH.
Qed.

Lemma filter_none {A} (P : A → Prop) `{!∀ x, Decision (P x)} (l : list A) :
  Forall (λ x, ¬ P x) l → filter P l = [].
Proof.
  induction 1 as [|x l Hx _ IH]; [done|].
  by rewrite filter_cons, decide_False, IH.
Qed.

(** C4, as the code has it.  One call of [createIngestion] on a reachable
    state stores, under a key that was free, the record of the ingestion
    with all of its batches, every batch [yet_to_start], and leaves every
    other record as it was; the queue afterwards holds the items it held
    before and, for the new ingestion, exactly one item per batch, in batch
    order; these items all carry one timestamp, the clock value [t2] read
    once for the queue after the record was made.  (The record's own
    [createdAt] is the earlier clock value [t1].) *)
Theorem createIngestion_registers_and_enqueues l p t1 t2 s s' :
  reachable s →
  step (CreateIngestion l p t1 t2) s = Some s' →
  let ingId := (submit l p t1 t2 s).1 in
  ingestions (svc s) !! ingId = None ∧
  (∀ key, key ≠ ingId →
          ingestions (svc s') !! key = ingestions (svc s) !! key) ∧
  ∃ ing,
    ingestions (svc s') !! ingId = Some ing ∧
    ing_id ing = ingId ∧ ing_priority ing = p ∧ ing_createdAt ing = t1 ∧
    concat (ids <$> batches ing) = l ∧
    Forall (λ b, status b = yet_to_start) (batches ing) ∧
    filter (λ e, ingestionId e = ingId) (batchQueue (svc s')) =
      (λ b, {| ingestionId := ingId; q_batchId := batchId b;
               priority := p; createdAt := t2 |}) <$> batches ing ∧
    filter (λ e, ingestionId e ≠ ingId) (batchQueue (svc s'))
      ≡ₚ batchQueue (svc s) ∧
    t1 ≤ t2.
Proof.
  intros Hreach Hstep. pose proof (reachable_consistent s Hreach) as Hs.
  unfold step in Hstep. case_decide as Hen; [|done].
  destruct Hen as (_ & _ & Ht). inversion Hstep; subst s'; clear Hstep.
  destruct (submit_unfold l p t1 t2 s) as (bs & Hbs & ->). fields.
  destruct (createBatches_spec l (S (uuids s)))
    as (bs' & Hbs' & Hcat & _ & _).
  assert (bs' = bs) as -> by congruence.
  destruct (createBatches_fresh _ _ _ Hbs) as [Hpending _].
  set (ingId := uuidv4 (uuids s)).
  assert (Forall (λ e, ingestionId e ≠ ingId) (batchQueue (svc s))) as Hold.
  { apply Forall_forall. intros e He.
    by apply consistent_queue_registered. }
  assert (Forall (λ e, ingestionId e = ingId) (queue_item ingId p t2 <$> bs))
    as Hnew.
  { apply Forall_fmap, Forall_forall. by intros b _. }
  split_and!.
  - by apply consistent_fresh_key.
  - intros key Hne. by rewrite lookup_insert_ne.
  - eexists. rewrite lookup_insert_eq. split; [done|].
    cbn [ing_id ing_priority ing_createdAt batches].
    split_and!; [done..| | |done].
    + rewrite array_sort_filter.
      * rewrite filter_app, (filter_none _ (batchQueue (svc s))),
          (filter_all _ (queue_item ingId p t2 <$> bs)); [done|done|].
        eapply Forall_impl; [exact Hold|]. by intros e He ?.
      * intros x y Hx Hy HPx HPy.
        pose proof (proj1 (Forall_forall _ _) Hold) as Hold'.
        apply elem_of_app in Hx as [Hx|Hx]; [by destruct (Hold' x Hx)|].
        apply elem_of_app in Hy as [Hy|Hy]; [by destruct (Hold' y Hy)|].
        apply list_elem_of_fmap in Hx as (bx & -> & _).
        apply list_elem_of_fmap in Hy as (by_ & -> & _).
        unfold compareFn. fields. rewrite decide_False by (intros H; by apply H).
        lia.
    + rewrite array_sort_Permutation, filter_app,
        (filter_all _ (batchQueue (svc s))),
        (filter_none _ (queue_item ingId p t2 <$> bs)).
      * by rewrite app_nil_r.
      * eapply Forall_impl; [exact Hnew|]. by intros e He ?.
      * done.
Qed.

Lemma createIngestion_registers_and_enqueues_witness :
  ∃ ing,
    ingestions (svc (state_after
      [CreateIngestion (ints [1; 2; 3; 4; 5]) HIGH 1000 1001])) !! "0"
      = Some ing ∧
    ing_createdAt ing = 1000 ∧
    createdAt <$> batchQueue (svc (state_after
      [CreateIngestion (ints [1; 2; 3; 4; 5]) HIGH 1000 1001]))
      = [1001; 1001].
Proof.
  destruct (createIngestion_registers_and_enqueues
              (ints [1; 2; 3; 4; 5]) HIGH 1000 1001 init _
              reachable_init eq_refl)
    as (_ & _ & ing & Hing & _ & _ & Hat & _).
  exists ing. split_and!; [exact Hing|exact Hat|reflexivity].
Defined.

(** C4 as stated fails: the queue items of an ingestion need not carry the
    creation timestamp of its record, which is read from the clock
    separately and earlier. *)
Lemma queue_timestamp_is_not_the_record_timestamp :
  ¬ (∀ l p t1 t2 s s' ing e,
       reachable s →
       step (CreateIngestion l p t1 t2) s = Some s' →
       ingestions (svc s') !! (submit l p t1 t2 s).1 = Some ing →
       e ∈ batchQueue (svc s') →
       ingestionId e = ing_id ing →
       createdAt e = ing_createdAt ing).
Proof.
  intros Hclaim.
  specialize (Hclaim (ints [1]) HIGH 1000 1001 init _ _
                {| ingestionId := "0"; q_batchId := "1"; priority := HIGH;
                   createdAt := 1001 |}
                reachable_init eq_refl eq_refl).
  vm_compute in Hclaim.
  specialize (Hclaim ltac:(constructor) eq_refl). discriminate.
Qed.

(** C10.  Called on an empty list, [createIngestion] does not fail: on a
    reachable state it returns a key that was free and stores under it a
    record without batches; no queue item is added; and a status query on
    that key right afterwards reports [completed] with an empty batch
    list, because [every] holds of an empty array. *)
Theorem createIngestion_empty_ids_reports_completed p t1 t2 s ingId s' :
  reachable s →
  submit [] p t1 t2 s = (ingId, s') →
  ingestions (svc s) !! ingId = None ∧
  ingestions (svc s') !! ingId =
    Some {| ing_id := ingId; ing_priority := p; batches := [];
            ing_createdAt := t1; ing_status := yet_to_start |} ∧
  batchQueue (svc s') ≡ₚ batchQueue (svc s) ∧
  getIngestionStatus ingId (svc s') =
    Some {| ingestion_id := ingId; overall_status := completed;
            view_batches := [] |} ∧
  get_status ingId s' =
    ({| http_status := 200;
        body := StatusBody {| ingestion_id := ingId;
                              overall_status := completed;
                              view_batches := [] |} |}, s').
Proof.
  intros Hreach Hsubmit. pose proof (reachable_consistent s Hreach) as Hs.
  unfold submit, createIngestion in Hsubmit. simpl in Hsubmit.
  inversion Hsubmit; subst ingId s'; clear Hsubmit. fields.
  assert (getIngestionStatus (uuidv4 (uuids s))
            (sortQueue
               {| ingestions :=
                    <[uuidv4 (uuids s) :=
                        {| ing_id := uuidv4 (uuids s); ing_priority := p;
                           batches := []; ing_createdAt := t1;
                           ing_status := yet_to_start |}]>
                      (ingestions (svc s));
                  batchQueue := batchQueue (svc s) ++ [];
                  isProcessing := isProcessing (svc s) |})
          = Some {| ingestion_id := uuidv4 (uuids s);
                    overall_status := completed; view_batches := [] |})
    as Hget.
  { unfold getIngestionStatus. fields. by rewrite lookup_insert_eq. }
  split_and!.
  - by apply consistent_fresh_key.
  - by rewrite lookup_insert_eq.
  - by rewrite array_sort_Permutation, app_nil_r.
  - exact Hget.
  - unfold get_status. fields. by rewrite Hget.
Qed.

Lemma createIngestion_empty_ids_reports_completed_witness :
  (get_status "0" (submit [] HIGH 0 0 init).2).1 =
    {| http_status := 200;
       body := StatusBody {| ingestion_id := "0";
                             overall_status := completed;
                             view_batches := [] |} |}.
Proof.
  destruct (createIngestion_empty_ids_reports_completed HIGH 0 0 init
              _ _ reachable_init eq_refl) as (_ & _ & _ & _ & Hget).
  exact (f_equal fst Hget).
Defined.
(** ** The status of the ingestions of the running service *)

Lemma served_reachable s : served s → reachable s.
Proof.
  induction 1 as [|e s s' _ IH _ Hstep]; [constructor|].
  by apply (reachable_step e s).
Qed.

Lemma served_run es : ∀ s s',
  served s → Forall nonempty_submission es → run es s = Some s' → served s'.
Proof.
  induction es as [|e es IH]; intros s s' Hs Hes Hrun; cbn [run] in Hrun.
  - by inversion Hrun; subst.
  - apply Forall_cons in Hes as [He Hes].
    destruct (step e s) as [s1|] eqn:Hstep; [|done].
    apply (IH s1); [|done|done]. by apply (served_step e s).
Qed.

(** The ingest router keeps the service among the [served] states: it
    either leaves the state alone or submits a non-empty list. *)
Lemma post_ingest_served ids_v priority_v t1 t2 s :
  served s → loop s ≠ Running → now s ≤ t1 → t1 ≤ t2 →
  served (post_ingest ids_v priority_v t1 t2 s).2.
Proof.
  intros Hs Hloop Hn Ht. unfold post_ingest.
  destruct ids_v as [| | | | | |l|]; try done.
  case_decide as Hlen; [done|].
  destruct (priority_literal priority_v) as [p|]; [|done].
  destruct (existsb id_rejected l); [done|].
  destruct (submit l p t1 t2 s) as [ingId s1] eqn:Hsub. cbn [snd].
  apply (served_step (CreateIngestion l p t1 t2) s); [done| |].
  - cbn [nonempty_submission]. by intros ->.
  - unfold step. rewrite decide_True by done. by rewrite Hsub.
Qed.

Lemma step_keeps_batches_nonempty e s s' :
  nonempty_submission e → step e s = Some s' →
  (∀ ingId ing, ingestions (svc s) !! ingId = Some ing → batches ing ≠ []) →
  ∀ ingId ing, ingestions (svc s') !! ingId = Some ing → batches ing ≠ [].
Proof.
  intros He Hstep Hall ingId ing.
  destruct e as [d|l p t1 t2|ingId0| | | |ingId0 k0]; unfold step in Hstep.
  - case_decide; [|done]. inversion Hstep; subst s'. apply Hall.
  - case_decide; [|done]. inversion Hstep; subst s'; clear Hstep.
    destruct (submit_unfold l p t1 t2 s) as (bs & Hbs & ->). fields.
    destruct (decide (ingId = uuidv4 (uuids s))) as [->|Hne].
    + rewrite lookup_insert_eq. intros Heq. inversion Heq; subst ing.
      cbn [batches]. intros ->.
      destruct (createBatches_spec l (S (uuids s)))
        as (bs' & Hbs' & Hcat & _).
      rewrite Hbs in Hbs'. inversion Hbs' as [Hnil]. subst bs'.
      by cbn [nonempty_submission] in He.
    + rewrite lookup_insert_ne by done. apply Hall.
  - case_decide; [|done]. inversion Hstep; subst s'. apply Hall.
  - destruct (immediates s); [done|]. case_decide; [|done].
    inversion Hstep; subst s'; clear Hstep. unfold startProcessing. fields.
    destruct (negb _ && _); apply Hall.
  - case_decide; [|done].
    destruct (loop_turn_cases (svc s))
      as [[_ Hturn]|(item & rest & _ & [Hturn|Hturn])].
    + rewrite Hturn in Hstep. inversion Hstep; subst s'. apply Hall.
    + rewrite Hturn in Hstep. inversion Hstep; subst s'. apply Hall.
    + destruct Hturn as (ing0 & k & b & Hing0 & _ & _ & Hturn).
      rewrite Hturn in Hstep. inversion Hstep; subst s'; clear Hstep. fields.
      destruct (decide (ingId = ingestionId item)) as [->|Hne].
      * rewrite lookup_insert_eq. intros Heq. inversion Heq; subst ing.
        cbn [mark_triggered batches]. intros Hnil.
        apply (Hall _ _ Hing0). apply (f_equal length) in Hnil.
        rewrite length_insert in Hnil. by destruct (batches ing0).
      * rewrite lookup_insert_ne by done. apply Hall.
  - destruct (loop s); try done. case_decide; [|done].
    inversion Hstep; subst s'. apply Hall.
  - case_decide; [|done]. inversion Hstep; subst s'; clear Hstep. fields.
    unfold batch_done.
    destruct (ingestions (svc s) !! ingId0) as [ing0|] eqn:Hing0;
      [|apply Hall].
    destruct (batches ing0 !! k0) as [b0|] eqn:Hk0; [|apply Hall]. fields.
    destruct (decide (ingId = ingId0)) as [->|Hne].
    + rewrite lookup_insert_eq. intros Heq. inversion Heq; subst ing.
      cbn [mark_completed batches]. intros Hnil.
      apply (Hall _ _ Hing0). apply (f_equal length) in Hnil.
      rewrite length_insert in Hnil. by destruct (batches ing0).
    + rewrite lookup_insert_ne by done. apply Hall.
Qed.

(** Every ingestion of the running service has a batch. *)
Lemma served_batches_nonempty s :
  served s →
  ∀ ingId ing, ingestions (svc s) !! ingId = Some ing → batches ing ≠ [].
Proof.
  induction 1 as [|e s s' _ IH He Hstep]; [done|].
  by apply (step_keeps_batches_nonempty e s s').
Qed.

(** C2.  For every ingestion registered in the running service (whose
    submissions carry a non-empty id list, as the router ensures and
    section 4.1 requires) the status that [getIngestionStatus] returns is
    the status section 4.3 assigns to its batch list: [completed] iff the
    list is non-empty and every batch is completed; otherwise [triggered]
    iff some batch is triggered or completed; otherwise [yet_to_start].
    The status is computed from the batch statuses at each query: a
    registered ingestion of any service with the same batch statuses gets
    the same status, whatever its stored [status] field holds. *)
Theorem getStatus_recomputes_status s ingId ing :
  served s →
  ingestions (svc s) !! ingId = Some ing →
  ∃ view,
    getIngestionStatus ingId (svc s) = Some view ∧
    overall_status view = spec_status (batches ing) ∧
    (overall_status view = completed ↔
       batches ing ≠ [] ∧ Forall (λ b, status b = completed) (batches ing)) ∧
    (overall_status view = triggered ↔
       ¬ (batches ing ≠ [] ∧
          Forall (λ b, status b = completed) (batches ing)) ∧
       Exists (λ b, status b = triggered ∨ status b = completed)
         (batches ing)) ∧
    (overall_status view = yet_to_start ↔
       ¬ (batches ing ≠ [] ∧
          Forall (λ b, status b = completed) (batches ing)) ∧
       ¬ Exists (λ b, status b = triggered ∨ status b = completed)
           (batches ing)) ∧
    ∀ ingId' sv' ing' view',
      ingestions sv' !! ingId' = Some ing' →
      status <$> batches ing' = status <$> batches ing →
      getIngestionStatus ingId' sv' = Some view' →
      overall_status view' = overall_status view.
Proof.
  intros Hserved Hing.
  pose proof (served_batches_nonempty s Hserved ingId ing Hing) as Hne.
  destruct (getIngestionStatus_registered _ _ _ Hing)
    as (st & Hget & Hco & Htr & Hys).
  eexists. split; [exact Hget|]. cbn [overall_status].
  split_and!; [|tauto|tauto|tauto|].
  - unfold spec_status.
    repeat case_bool_decide; destruct st; naive_solver.
  - intros ingId' sv' ing' view' Hing' Hsame Hget'.
    destruct (getIngestionStatus_registered _ _ _ Hing')
      as (st' & Hget2 & Hco' & Htr' & Hys').
    rewrite Hget2 in Hget'. inversion Hget'; subst view'; clear Hget'.
    cbn [overall_status].
    assert (Forall (λ b, status b = completed) (batches ing')
            ↔ Forall (λ b, status b = completed) (batches ing)) as HF.
    { rewrite <- !(Forall_fmap status (λ st, st = completed)).
      by rewrite Hsame. }
    assert (Exists (λ b, status b = triggered ∨ status b = completed)
              (batches ing')
            ↔ Exists (λ b, status b = triggered ∨ status b = completed)
                (batches ing)) as HE.
    { rewrite <- !(Exists_fmap status
                     (λ st, st = triggered ∨ st = completed)).
      by rewrite Hsame. }
    destruct st, st'; try done; tauto.
Qed.

Lemma getStatus_recomputes_status_witness :
  ∃ view,
    getIngestionStatus "0" (svc (state_after high_arrives_late)) = Some view ∧
    overall_status view = triggered ∧
    overall_status view
      = spec_status [ {| batchId := "1"; ids := ints [1; 2; 3];
                         status := triggered |};
                      {| batchId := "2"; ids := ints [4; 5; 6];
                         status := yet_to_start |} ].
Proof.
  assert (served (state_after high_arrives_late)) as Hserved.
  { apply (served_run high_arrives_late init); [constructor| |by vm_compute].
    repeat (constructor; [by cbn|]). constructor. }
  destruct (getStatus_recomputes_status
              (state_after high_arrives_late) "0" _ Hserved eq_refl)
    as (view & Hget & Hspec & _).
  exists view. split; [exact Hget|].
  vm_compute in Hget. inversion Hget. split; [done|]. by vm_compute.
Defined.

(** ** The rate limit *)

(** A turn that dispatches ends in the rate-limit wait exactly when the
    queue is not empty after the pop; the wait lasts [RATE_LIMIT_MS] from
    the dispatch. *)
Lemma dispatch_waits_iff_queue_nonempty s s' item k wait sv' :
  loop_turn (svc s) = TurnDispatch item k wait sv' →
  step LoopTurn s = Some s' →
  dispatches s' = now s :: dispatches s ∧
  (batchQueue (svc s') ≠ [] ↔ loop s' = Sleeping (now s + RATE_LIMIT_MS)) ∧
  (batchQueue (svc s') = [] ↔ loop s' = Running).
Proof.
  intros Hturn Hstep. unfold step in Hstep. case_decide; [|done].
  rewrite Hturn in Hstep. inversion Hstep; subst s'; clear Hstep. fields.
  destruct (loop_turn_dispatch _ _ _ _ _ Hturn) as (_ & _ & _ & -> & _).
  split; [done|].
  destruct (batchQueue sv') as [|q0 q]; case_bool_decide as Hq;
    (split; split; intros ?; done).
Qed.

(** The rate-limit wait is the only place where the loop suspends: the loop
    is asleep after a transition only if it was asleep before, or if the
    transition is a turn that dispatched and found the queue non-empty. *)
Lemma loop_sleeps_only_after_dispatch e s s' wake :
  step e s = Some s' → loop s' = Sleeping wake →
  loop s = Sleeping wake ∨
  (e = LoopTurn ∧ wake = now s + RATE_LIMIT_MS ∧
   dispatches s' = now s :: dispatches s ∧ batchQueue (svc s') ≠ []).
Proof.
  intros Hstep Hloop.
  destruct e as [d|l p t1 t2|ingId| | | |ingId k]; unfold step in Hstep.
  - case_decide; [|done]. inversion Hstep; subst s'. by left.
  - case_decide; [|done]. inversion Hstep; subst s'.
    destruct (submit_unfold l p t1 t2 s) as (bs & _ & Heq).
    rewrite Heq in Hloop. by left.
  - case_decide; [|done]. inversion Hstep; subst s'. by left.
  - destruct (immediates s); [done|]. case_decide; [|done].
    inversion Hstep; subst s'; clear Hstep. unfold startProcessing in Hloop.
    fields. destruct (negb _ && _); [done|by left].
  - case_decide as Hrun; [|done].
    destruct (loop_turn (svc s)) as [sv|sv|item k wait sv] eqn:Hturn;
      inversion Hstep; subst s'; clear Hstep; fields; try congruence.
    destruct (loop_turn_dispatch _ _ _ _ _ Hturn) as (_ & _ & _ & -> & _).
    case_bool_decide; [|done]. right. split_and!; [done|congruence|done|done].
  - destruct (loop s); try done. case_decide; [|done].
    by inversion Hstep; subst s'.
  - case_decide; [|done]. inversion Hstep; subst s'. by left.
Qed.

(** Only a turn of the loop records a dispatch. *)
Lemma dispatches_change_only_in_turn e s s' :
  step e s = Some s' → e ≠ LoopTurn → dispatches s' = dispatches s.
Proof.
  intros Hstep Hne.
  destruct e as [d|l p t1 t2|ingId| | | |ingId k]; unfold step in Hstep.
  - case_decide; [|done]. by inversion Hstep; subst s'.
  - case_decide; [|done]. inversion Hstep; subst s'.
    by destruct (submit_unfold l p t1 t2 s) as (bs & _ & ->).
  - case_decide; [|done]. by inversion Hstep; subst s'.
  - destruct (immediates s); [done|]. case_decide; [|done].
    inversion Hstep; subst s'; clear Hstep. unfold startProcessing.
    fields. by destruct (negb _ && _).
  - done.
  - destruct (loop s); try done. case_decide; [|done].
    by inversion Hstep; subst s'.
  - case_decide; [|done]. by inversion Hstep; subst s'.
Qed.

(** While the loop is asleep, it wakes [RATE_LIMIT_MS] after the latest
    dispatch. *)
Lemma asleep_since_latest_dispatch s wake :
  reachable s → loop s = Sleeping wake →
  ∃ earlier, dispatches s = (wake - RATE_LIMIT_MS) :: earlier.
Proof.
  induction 1 as [|e s s' Hs IH Hstep]; intros Hloop; [done|].
  destruct (loop_sleeps_only_after_dispatch e s s' wake Hstep Hloop)
    as [Hbefore|(-> & -> & Hd & _)].
  - destruct (IH Hbefore) as [earlier Hd]. exists earlier.
    rewrite <- Hd. apply (dispatches_change_only_in_turn e); [done|].
    intros ->. unfold step in Hstep. rewrite Hbefore in Hstep.
    by rewrite decide_False in Hstep.
  - exists (dispatches s). rewrite Hd. f_equal. lia.
Qed.

(** Inside one activation of the loop the limit is kept: a dispatch made on
    waking from the wait comes at least [RATE_LIMIT_MS] after the one before
    it. *)
Lemma dispatch_after_wait_keeps_rate_limit s s1 s2 wake item k wait sv' :
  reachable s → loop s = Sleeping wake →
  step TimerFires s = Some s1 →
  loop_turn (svc s1) = TurnDispatch item k wait sv' →
  step LoopTurn s1 = Some s2 →
  ∃ t_later t_earlier earlier,
    dispatches s2 = t_later :: t_earlier :: earlier ∧
    t_earlier + RATE_LIMIT_MS ≤ t_later.
Proof.
  intros Hs Hloop Hfire Hturn Hstep.
  destruct (asleep_since_latest_dispatch s wake Hs Hloop) as [earlier Hd].
  unfold step in Hfire. rewrite Hloop in Hfire.
  case_decide as Hwake; [|done]. inversion Hfire; subst s1; clear Hfire.
  destruct (dispatch_waits_iff_queue_nonempty _ _ _ _ _ _ Hturn Hstep)
    as (Hd2 & _).
  fields. exists (now s), (wake - RATE_LIMIT_MS), earlier.
  rewrite Hd2, Hd. split; [done|lia].
Qed.

(** C9 on the code.  Two single-batch ingestions submitted 1 ms apart are
    dispatched 1 ms apart: after the first dispatch the queue is empty, the
    loop skips the wait and returns, and the second admission starts a new
    loop that dispatches at once.  The two consecutive dispatch timestamps
    differ by less than [RATE_LIMIT_MS]. *)
Theorem rate_limit_skipped_when_queue_drains :
  reachable (state_after two_quick_requests) ∧
  dispatches (state_after two_quick_requests) = [1; 0] ∧
  1 - 0 < RATE_LIMIT_MS.
Proof.
  split_and!.
  - apply reachable_state_after. vm_compute. eauto.
  - reflexivity.
  - reflexivity.
Qed.

(** * Further properties of the code *)

(** ** The comparator and the sort *)

(** X1.  The comparator of [sortQueue] is consistent: swapping its
    arguments flips its sign, it is transitive, and it returns 0 exactly on
    items of equal priority and equal enqueue time. *)
Theorem compareFn_consistent a b c :
  compareFn a b = - compareFn b a ∧
  (compareFn a b ≤ 0 → compareFn b c ≤ 0 → compareFn a c ≤ 0) ∧
  (compareFn a b = 0 ↔ priority a = priority b ∧ createdAt a = createdAt b).
Proof.
  unfold compareFn. split_and!.
  - repeat case_decide; lia.
  - repeat case_decide; lia.
  - split.
    + case_decide as Hp; [lia|]. intros Ht. split; [|lia].
      destruct (priority a), (priority b); simpl in *; done.
    + intros [-> Ht]. rewrite decide_False by (intros H; by apply H). lia.
Qed.

Lemma compareFn_consistent_witness :
  compareFn (mkQueueItem "0" "1" HIGH 9) (mkQueueItem "4" "5" LOW 5) ≤ 0.
Proof.
  apply (proj1 (proj2 (compareFn_consistent
                         (mkQueueItem "0" "1" HIGH 9)
                         (mkQueueItem "2" "3" MEDIUM 1)
                         (mkQueueItem "4" "5" LOW 5)))); by vm_compute.
Defined.

Lemma array_sort_fixes_sorted l :
  StronglySorted rank_then_time l → array_sort l = l.
Proof.
  induction 1 as [|x l Hl IH Hx]; [done|]. simpl. rewrite IH.
  destruct l as [|y l']; [done|]. simpl.
  apply Forall_cons in Hx as [Hxy _]. apply compareFn_le in Hxy.
  by rewrite decide_True.
Qed.

(** X2.  [sortQueue] only rearranges the queue: the store and the flag are
    untouched and the queue afterwards holds the same items, ordered by
    priority rank and then by enqueue time.  Items of one priority and one
    enqueue time keep their relative order, and sorting a second time
    changes nothing. *)
Theorem sortQueue_sorts_stably sv :
  ingestions (sortQueue sv) = ingestions sv ∧
  isProcessing (sortQueue sv) = isProcessing sv ∧
  batchQueue (sortQueue sv) ≡ₚ batchQueue sv ∧
  StronglySorted rank_then_time (batchQueue (sortQueue sv)) ∧
  (∀ p t,
     filter (λ e, priority e = p ∧ createdAt e = t) (batchQueue (sortQueue sv))
     = filter (λ e, priority e = p ∧ createdAt e = t) (batchQueue sv)) ∧
  sortQueue (sortQueue sv) = sortQueue sv.
Proof.
  split_and!; [done|done|..].
  - apply array_sort_Permutation.
  - apply array_sort_sorted.
  - intros p t. apply (array_sort_filter _).
    intros x y _ _ [Hx1 Hx2] [Hy1 Hy2]. unfold compareFn.
    rewrite decide_False by (intros H; apply H; congruence). lia.
  - unfold sortQueue, set_queue. simpl. f_equal.
    apply array_sort_fixes_sorted, array_sort_sorted.
Qed.

(** ** createBatches on any input *)

(** X3.  [createBatches] draws one uuid per batch, so the batch ids are
    pairwise distinct; every batch starts [yet_to_start] and holds between 1
    and 3 ids (never an empty batch); id [j] of batch [k] is id [3k + j] of
    the input; and an empty input gives no batch at all. *)
Theorem createBatches_shape l u :
  ∃ bs,
    createBatches l u = (bs, (u + length bs)%nat) ∧
    (bs = [] ↔ l = []) ∧
    NoDup (batchId <$> bs) ∧
    ∀ k b, bs !! k = Some b →
      batchId b = uuidv4 (u + k) ∧
      status b = yet_to_start ∧
      (1 ≤ length (ids b) ≤ 3)%nat ∧
      ∀ j, (j < 3)%nat → ids b !! j = l !! (3 * k + j)%nat.
Proof.
  destruct (createBatches_spec l u) as (bs & Hbs & Hcat & Hlen & Hnth).
  exists bs. split; [done|].
  pose proof (ceil_div_least (length l) 3 ltac:(lia)) as [Hlo Hhi].
  rewrite <- Hlen in Hlo, Hhi.
  split_and!.
  - split; intros ->.
    + by rewrite <- Hcat.
    + apply length_zero_iff_nil. simpl in Hhi. lia.
  - by apply (createBatches_fresh l u).
  - intros k b Hk. pose proof (lookup_lt_Some _ _ _ Hk) as Hlt.
    rewrite (Hnth k b Hk). cbn [batchId status ids].
    split_and!; [done|done|rewrite slice_length; lia| |].
    { unfold slice, BATCH_SIZE. rewrite length_take. lia. }
    intros j Hj. unfold slice, BATCH_SIZE.
    rewrite lookup_take_lt by lia. by rewrite lookup_drop.
Qed.

Lemma createBatches_shape_witness :
  ∃ bs,
    createBatches (ints [1; 2; 3; 4; 5; 6; 7; 8; 9; 10]) 5 = (bs, 9%nat) ∧
    batchId <$> bs = ["5"; "6"; "7"; "8"] ∧
    (∀ b, bs !! 3%nat = Some b → ids b !! 0%nat = Some (JInt 10)).
Proof.
  destruct (createBatches_shape (ints [1; 2; 3; 4; 5; 6; 7; 8; 9; 10]) 5)
    as (bs & Heq & _ & _ & Hnth).
  exists bs. vm_compute in Heq. inversion Heq; subst bs.
  split_and!; [reflexivity|reflexivity|].
  intros b Hb. destruct (Hnth 3%nat b Hb) as (_ & _ & _ & Hj).
  by rewrite (Hj 0%nat) by lia.
Defined.

(** ** What one transition does to the records, the queue and the pending
    promises *)

Lemma loop_turn_pending_head sv item rest ing k b :
  array_sort (batchQueue sv) = item :: rest →
  ingestions sv !! ingestionId item = Some ing →
  list_find (λ b, batchId b = q_batchId item) (batches ing) = Some (k, b) →
  status b = yet_to_start →
  loop_turn sv =
    TurnDispatch item k (bool_decide (rest ≠ []))
      {| ingestions :=
           <[ingestionId item := mark_triggered k b ing]> (ingestions sv);
         batchQueue := rest;
         isProcessing := isProcessing sv |}.
Proof.
  intros Hsort Hing Hfind Hst. unfold loop_turn.
  destruct (batchQueue sv) as [|q0 q] eqn:Hq; [done|].
  fields. rewrite Hq, Hsort. fields. rewrite Hing, Hfind.
  by rewrite decide_False by (by rewrite Hst; intros H; apply H).
Qed.

(** In a consistent state the head of the queue is always dispatched: the
    two [continue] of the loop are not taken. *)
Lemma consistent_turn_dispatches s item rest :
  consistent s →
  array_sort (batchQueue (svc s)) = item :: rest →
  ∃ ing k b,
    ingestions (svc s) !! ingestionId item = Some ing ∧
    list_find (λ b, batchId b = q_batchId item) (batches ing) = Some (k, b) ∧
    status b = yet_to_start ∧
    loop_turn (svc s) =
      TurnDispatch item k (bool_decide (rest ≠ []))
        {| ingestions :=
             <[ingestionId item := mark_triggered k b ing]>
               (ingestions (svc s));
           batchQueue := rest;
           isProcessing := isProcessing (svc s) |}.
Proof.
  intros Hs Hsort.
  assert (item ∈ batchQueue (svc s)) as Hin.
  { rewrite <- array_sort_Permutation, Hsort. by left. }
  apply (queue_pending s Hs) in Hin as (b & Hb & Hst).
  apply item_batch_Some in Hb as (ing & k & Hing & Hfind).
  exists ing, k, b. split_and!; [done..|].
  by apply loop_turn_pending_head.
Qed.

(** The transitions, by what they do to the store, the queue and the
    pending promises of a consistent state. *)
Lemma step_cases e s s' :
  consistent s → step e s = Some s' →
  (ingestions (svc s') = ingestions (svc s) ∧
   batchQueue (svc s') = batchQueue (svc s) ∧
   inflight s' = inflight s) ∨
  (∃ l p t1 t2, e = CreateIngestion l p t1 t2 ∧ s' = (submit l p t1 t2 s).2) ∨
  (∃ item rest ing k b,
     e = LoopTurn ∧
     array_sort (batchQueue (svc s)) = item :: rest ∧
     ingestions (svc s) !! ingestionId item = Some ing ∧
     list_find (λ b, batchId b = q_batchId item) (batches ing) = Some (k, b) ∧
     status b = yet_to_start ∧
     ingestions (svc s') =
       <[ingestionId item := mark_triggered k b ing]> (ingestions (svc s)) ∧
     batchQueue (svc s') = rest ∧
     inflight s' = (ingestionId item, k) :: inflight s) ∨
  (∃ ingId k ing b,
     e = BatchDone ingId k ∧
     (ingId, k) ∈ inflight s ∧
     ingestions (svc s) !! ingId = Some ing ∧
     batches ing !! k = Some b ∧
     status b ≠ yet_to_start ∧
     ingestions (svc s') =
       <[ingId := mark_completed k b ing]> (ingestions (svc s)) ∧
     batchQueue (svc s') = batchQueue (svc s) ∧
     inflight s' = filter (λ c, c ≠ (ingId, k)) (inflight s)).
Proof.
  intros Hs Hstep.
  destruct e as [d|l p t1 t2|ingId| | | |ingId k]; unfold step in Hstep.
  - case_decide; [|done]. inversion Hstep; subst s'. by left.
  - case_decide; [|done]. inversion Hstep; subst s'. right; left.
    by exists l, p, t1, t2.
  - case_decide; [|done]. inversion Hstep; subst s'. by left.
  - destruct (immediates s); [done|]. case_decide; [|done].
    inversion Hstep; subst s'; clear Hstep. left.
    unfold startProcessing. fields. by destruct (negb _ && _).
  - case_decide as Hrun; [|done].
    destruct (batchQueue (svc s)) as [|q0 q] eqn:Hq.
    + unfold loop_turn in Hstep. rewrite Hq in Hstep.
      inversion Hstep; subst s'. fields. by left.
    + destruct (array_sort (batchQueue (svc s))) as [|item rest] eqn:Hsort.
      { apply (f_equal length) in Hsort.
        by rewrite array_sort_length, Hq in Hsort. }
      destruct (consistent_turn_dispatches s item rest Hs Hsort)
        as (ing & k & b & Hing & Hfind & Hst & Hturn).
      rewrite Hturn in Hstep. inversion Hstep; subst s'; clear Hstep.
      right; right; left. exists item, rest, ing, k, b.
      rewrite <- Hq. split_and!; done.
  - destruct (loop s); try done. case_decide; [|done].
    inversion Hstep; subst s'. by left.
  - case_decide as Hen; [|done]. destruct Hen as [_ Hin].
    inversion Hstep; subst s'; clear Hstep.
    destruct (inflight_started s Hs _ _ Hin) as (ing & b & Hing & Hk & Hst).
    right; right; right. exists ingId, k, ing, b. fields.
    unfold batch_done. rewrite Hing, Hk. split_and!; done.
Qed.

(** ** How the records and the queue are kept *)

Lemma batchIds_after_set_status (bs : list Batch) k b st :
  bs !! k = Some b →
  batchId <$> <[k := set_status st b]> bs = batchId <$> bs.
Proof.
  intros Hk. rewrite list_fmap_insert. apply list_insert_id.
  by rewrite list_lookup_fmap, Hk.
Qed.

Lemma well_kept_quiet s s' :
  ingestions (svc s') = ingestions (svc s) →
  batchQueue (svc s') = batchQueue (svc s) →
  well_kept s → well_kept s'.
Proof.
  intros Hi Hq [H1 H2 H3 H4 H5]. split; rewrite ?Hi, ?Hq; done.
Qed.

(** A record is replaced by one with the same id, priority and batch ids,
    and the queue loses items at most. *)
Lemma well_kept_update s s' i ing ing' :
  well_kept s →
  ingestions (svc s) !! i = Some ing →
  ingestions (svc s') = <[i := ing']> (ingestions (svc s)) →
  ing_id ing' = ing_id ing →
  ing_priority ing' = ing_priority ing →
  batchId <$> batches ing' = batchId <$> batches ing →
  (∀ e, e ∈ batchQueue (svc s') → e ∈ batchQueue (svc s)) →
  StronglySorted rank_then_time (batchQueue (svc s')) →
  well_kept s'.
Proof.
  intros [H1 H2 H3 H4 H5] Hing Hstore Hid Hprio Hbids Hsub Hsorted.
  split; rewrite ?Hstore.
  - intros key r Hr. destruct (decide (key = i)) as [->|Hne].
    + rewrite lookup_insert_eq in Hr. inversion Hr; subst r.
      rewrite Hid. by apply H1.
    + rewrite lookup_insert_ne in Hr by done. by apply H1.
  - intros key r Hr. destruct (decide (key = i)) as [->|Hne].
    + rewrite lookup_insert_eq in Hr. inversion Hr; subst r.
      rewrite Hbids. by eapply H2.
    + rewrite lookup_insert_ne in Hr by done. by eapply H2.
  - done.
  - intros e r He Hr. apply Hsub in He.
    destruct (decide (ingestionId e = i)) as [Heq|Hne].
    + rewrite Heq, lookup_insert_eq in Hr. inversion Hr; subst r.
      rewrite Hprio. apply H4; [done|]. by rewrite Heq.
    + rewrite lookup_insert_ne in Hr by done. by apply H4.
  - intros e e' He He'. apply H5; by apply Hsub.
Qed.

Lemma well_kept_submit l p t1 t2 s :
  consistent s → well_kept s → well_kept (submit l p t1 t2 s).2.
Proof.
  intros Hs [H1 H2 H3 H4 H5].
  destruct (submit_unfold l p t1 t2 s) as (bs & Hbs & ->).
  destruct (createBatches_fresh _ _ _ Hbs) as [_ Hdistinct].
  set (u := uuids s) in *. split; fields.
  - intros key r Hr. destruct (decide (key = uuidv4 u)) as [->|Hne].
    + rewrite lookup_insert_eq in Hr. by inversion Hr.
    + rewrite lookup_insert_ne in Hr by done. by apply H1.
  - intros key r Hr. destruct (decide (key = uuidv4 u)) as [->|Hne].
    + rewrite lookup_insert_eq in Hr. by inversion Hr.
    + rewrite lookup_insert_ne in Hr by done. by eapply H2.
  - apply array_sort_sorted.
  - intros e r He Hr. rewrite array_sort_Permutation in He.
    apply elem_of_app in He as [He|He].
    + rewrite lookup_insert_ne in Hr
        by (by intros Heq; apply (consistent_queue_registered s e Hs He)).
      by apply H4.
    + apply list_elem_of_fmap in He as (b & -> & _). fields.
      rewrite lookup_insert_eq in Hr. by inversion Hr.
  - intros e e' He He' Heq. rewrite array_sort_Permutation in He, He'.
    apply elem_of_app in He as [He|He];
      apply elem_of_app in He' as [He'|He'].
    + by apply H5.
    + apply list_elem_of_fmap in He' as (b & -> & _). fields.
      by destruct (consistent_queue_registered s e Hs He).
    + apply list_elem_of_fmap in He as (b & -> & _). fields.
      by destruct (consistent_queue_registered s e' Hs He').
    + apply list_elem_of_fmap in He as (b & -> & _).
      by apply list_elem_of_fmap in He' as (b' & -> & _).
Qed.

Lemma well_kept_step e s s' :
  consistent s → well_kept s → step e s = Some s' → well_kept s'.
Proof.
  intros Hs Hw Hstep.
  destruct (step_cases e s s' Hs Hstep)
    as [(Hi & Hq & _)|[(l & p & t1 & t2 & _ & ->)|
        [(item & rest & ing & k & b & _ & Hsort & Hing & Hfind & Hst & Hi & Hq & _)|
         (ingId & k & ing & b & _ & _ & Hing & Hk & _ & Hi & Hq & _)]]].
  - by eapply well_kept_quiet.
  - by apply well_kept_submit.
  - apply list_find_Some in Hfind as (Hk & _).
    pose proof (array_sort_sorted (batchQueue (svc s))) as Hsorted.
    rewrite Hsort in Hsorted. apply StronglySorted_inv in Hsorted as [Hrest _].
    eapply (well_kept_update s s'); [done|exact Hing|exact Hi|done|done| | |].
    + by apply batchIds_after_set_status.
    + rewrite Hq. intros q Hin.
      rewrite <- array_sort_Permutation, Hsort. by right.
    + by rewrite Hq.
  - eapply (well_kept_update s s'); [done|exact Hing|exact Hi|done|done| | |].
    + by apply batchIds_after_set_status.
    + by rewrite Hq.
    + rewrite Hq. by destruct Hw.
Qed.

Lemma reachable_well_kept s : reachable s → well_kept s.
Proof.
  induction 1 as [|e s s' Hs IH Hstep].
  - split; simpl; try done.
    + constructor.
    + intros q r Hq. by apply elem_of_nil in Hq.
  - eapply well_kept_step; [by apply reachable_consistent|done..].
Qed.

(** ** Batches are dispatched in batch order *)

Lemma drop_cons_inv {A} (l : list A) n x t :
  drop n l = x :: t → l !! n = Some x ∧ drop (S n) l = t.
Proof.
  intros Hd.
  assert (l !! n = Some x) as Hn.
  { rewrite <- (Nat.add_0_r n), <- lookup_drop, Hd. done. }
  split; [done|]. rewrite (drop_S l x n Hn) in Hd. by inversion Hd.
Qed.

Lemma in_batch_order_quiet s s' :
  ingestions (svc s') = ingestions (svc s) →
  batchQueue (svc s') = batchQueue (svc s) →
  in_batch_order s → in_batch_order s'.
Proof.
  intros Hi Hq H key ing Hing. rewrite Hi in Hing.
  destruct (H key ing Hing) as [n Hn]. exists n.
  unfold dispatched_prefix in *. by rewrite Hq.
Qed.

(** Sorting does not reorder the items of one ingestion. *)
Lemma items_of_array_sort s key ing q' :
  well_kept s →
  ingestions (svc s) !! key = Some ing →
  Forall (λ e, ingestionId e ≠ key) q' →
  items_of key (array_sort (batchQueue (svc s) ++ q'))
    = items_of key (batchQueue (svc s)).
Proof.
  intros Hw Hing Hq'. unfold items_of.
  rewrite array_sort_filter.
  - rewrite filter_app, (filter_none _ q'), app_nil_r; [done|].
    eapply Forall_impl; [exact Hq'|]. by intros e He ?.
  - pose proof (proj1 (Forall_forall _ _) Hq') as Hq''.
    intros x y Hx Hy HPx HPy.
    apply elem_of_app in Hx as [Hx|Hx]; [|by destruct (Hq'' x Hx)].
    apply elem_of_app in Hy as [Hy|Hy]; [|by destruct (Hq'' y Hy)].
    pose proof (item_priority s Hw x ing Hx) as Hpx.
    pose proof (item_priority s Hw y ing Hy) as Hpy.
    rewrite HPx in Hpx. rewrite HPy in Hpy.
    pose proof (item_time s Hw x y Hx Hy ltac:(congruence)) as Ht.
    unfold compareFn. rewrite Hpx, Hpy by done.
    rewrite decide_False by (intros H; by apply H). lia.
Qed.

Lemma in_batch_order_submit l p t1 t2 s :
  consistent s → well_kept s → in_batch_order s →
  in_batch_order (submit l p t1 t2 s).2.
Proof.
  intros Hs Hw Ho.
  destruct (submit_unfold l p t1 t2 s) as (bs & Hbs & ->).
  destruct (createBatches_fresh _ _ _ Hbs) as [Hpending _].
  set (u := uuids s) in *.
  assert (Forall (λ e, ingestionId e ≠ uuidv4 u) (batchQueue (svc s)))
    as Hold.
  { apply Forall_forall. intros e He.
    by apply consistent_queue_registered. }
  intros key ing Hing. fields. unfold dispatched_prefix. fields.
  destruct (decide (key = uuidv4 u)) as [->|Hne].
  - rewrite lookup_insert_eq in Hing. inversion Hing; subst ing; clear Hing.
    exists 0%nat. cbn [batches]. split.
    + unfold items_of. rewrite array_sort_filter.
      * rewrite filter_app, (filter_none _ (batchQueue (svc s))),
          (filter_all _ (queue_item (uuidv4 u) p t2 <$> bs)).
        -- rewrite drop_0, app_nil_l. apply list_eq. intros i.
           rewrite !list_lookup_fmap. by destruct (bs !! i).
        -- apply Forall_fmap, Forall_forall. by intros b _.
        -- eapply Forall_impl; [exact Hold|]. by intros e He ?.
      * pose proof (proj1 (Forall_forall _ _) Hold) as Hold'.
        intros x y Hx Hy HPx HPy.
        apply elem_of_app in Hx as [Hx|Hx]; [by destruct (Hold' x Hx)|].
        apply elem_of_app in Hy as [Hy|Hy]; [by destruct (Hold' y Hy)|].
        apply list_elem_of_fmap in Hx as (bx & -> & _).
        apply list_elem_of_fmap in Hy as (by_ & -> & _).
        unfold compareFn. fields.
        rewrite decide_False by (intros H; by apply H). lia.
    + intros k b Hk. split; [lia|]. intros _.
      by eapply Forall_lookup_1 in Hpending.
  - rewrite lookup_insert_ne in Hing by done.
    destruct (Ho key ing Hing) as (n & Hq & Hst). exists n. split; [|done].
    rewrite (items_of_array_sort s key ing); [done..|].
    apply Forall_fmap, Forall_forall. intros b _. simpl. congruence.
Qed.

Lemma in_batch_order_dispatch s s' item rest ing k b :
  consistent s → well_kept s → in_batch_order s →
  array_sort (batchQueue (svc s)) = item :: rest →
  ingestions (svc s) !! ingestionId item = Some ing →
  list_find (λ b, batchId b = q_batchId item) (batches ing) = Some (k, b) →
  status b = yet_to_start →
  ingestions (svc s') =
    <[ingestionId item := mark_triggered k b ing]> (ingestions (svc s)) →
  batchQueue (svc s') = rest →
  in_batch_order s' ∧ dispatched_prefix s (ingestionId item) ing k.
Proof.
  intros Hs Hw Ho Hsort Hing Hfind Hst Hi Hq.
  rewrite (array_sort_fixes_sorted _ (queue_sorted s Hw)) in Hsort.
  apply list_find_Some in Hfind as (Hk & Hbid & _).
  destruct (Ho _ ing Hing) as (n & Hitems & Hstat).
  assert (n = k) as ->.
  { unfold items_of in Hitems. rewrite Hsort, filter_cons_True in Hitems by done.
    rewrite fmap_cons in Hitems. symmetry in Hitems.
    apply drop_cons_inv in Hitems as [Hn _].
    pose proof (batch_ids_distinct s Hw _ ing Hing) as Hnd.
    apply (proj1 (NoDup_alt _) Hnd n k (q_batchId item)); [done|].
    by rewrite list_lookup_fmap, Hk, <- Hbid. }
  split; [|by split].
  intros key r Hr. rewrite Hi in Hr. unfold dispatched_prefix. rewrite Hq.
  destruct (decide (key = ingestionId item)) as [->|Hne].
  - rewrite lookup_insert_eq in Hr. inversion Hr; subst r; clear Hr.
    exists (S k). cbn [mark_triggered batches]. split.
    + rewrite batchIds_after_set_status by done.
      unfold items_of in *.
      rewrite Hsort, filter_cons_True, fmap_cons in Hitems by done.
      symmetry in Hitems. by apply drop_cons_inv in Hitems as [_ <-].
    + intros j y Hj. destruct (decide (j = k)) as [->|Hjk].
      * rewrite list_lookup_insert_eq in Hj by eauto using lookup_lt_Some.
        inversion Hj; subst y. simpl. split; [done|lia].
      * rewrite list_lookup_insert_ne in Hj by done.
        rewrite (Hstat j y Hj). lia.
  - rewrite lookup_insert_ne in Hr by done.
    destruct (Ho key r Hr) as (m & Hm & Hms). exists m. split; [|done].
    rewrite <- Hm. unfold items_of.
    by rewrite Hsort, filter_cons_False by (by intros ?).
Qed.

Lemma in_batch_order_done s s' ingId k ing b :
  in_batch_order s →
  ingestions (svc s) !! ingId = Some ing →
  batches ing !! k = Some b →
  status b ≠ yet_to_start →
  ingestions (svc s') =
    <[ingId := mark_completed k b ing]> (ingestions (svc s)) →
  batchQueue (svc s') = batchQueue (svc s) →
  in_batch_order s'.
Proof.
  intros Ho Hing Hk Hst Hi Hq key r Hr. rewrite Hi in Hr.
  unfold dispatched_prefix. rewrite Hq.
  destruct (decide (key = ingId)) as [->|Hne].
  - rewrite lookup_insert_eq in Hr. inversion Hr; subst r; clear Hr.
    destruct (Ho _ ing Hing) as (n & Hitems & Hstat). exists n.
    cbn [mark_completed batches]. split.
    + by rewrite batchIds_after_set_status.
    + intros j y Hj. destruct (decide (j = k)) as [->|Hjk].
      * rewrite list_lookup_insert_eq in Hj by eauto using lookup_lt_Some.
        inversion Hj; subst y. simpl. pose proof (Hstat k b Hk) as Hb.
        split; [done|]. intros Hn. apply Hb in Hn. done.
      * rewrite list_lookup_insert_ne in Hj by done. by apply Hstat.
  - rewrite lookup_insert_ne in Hr by done. by apply Ho.
Qed.

Lemma reachable_in_batch_order s : reachable s → in_batch_order s.
Proof.
  induction 1 as [|e s s' Hreach IH Hstep].
  - intros key ing Hing. simpl in Hing. by rewrite lookup_empty in Hing.
  - pose proof (reachable_consistent s Hreach) as Hs.
    pose proof (reachable_well_kept s Hreach) as Hw.
    destruct (step_cases e s s' Hs Hstep)
      as [(Hi & Hq & _)|[(l & p & t1 & t2 & _ & ->)|
          [(item & rest & ing & k & b & _ & Hsort & Hing & Hfind & Hst & Hi & Hq & _)|
           (ingId & k & ing & b & _ & _ & Hing & Hk & Hst & Hi & Hq & _)]]].
    + by eapply in_batch_order_quiet.
    + by apply in_batch_order_submit.
    + by eapply (in_batch_order_dispatch s s').
    + by eapply (in_batch_order_done s s').
Qed.

(** ** The bookkeeping follows the batches *)

Lemma reported_status_cases bs :
  (reported_status bs = completed ↔
     Forall (λ b, status b = completed) bs) ∧
  (reported_status bs = triggered ↔
     ¬ Forall (λ b, status b = completed) bs ∧
     Exists (λ b, status b = triggered ∨ status b = completed) bs) ∧
  (reported_status bs = yet_to_start ↔
     ¬ Forall (λ b, status b = completed) bs ∧
     ¬ Exists (λ b, status b = triggered ∨ status b = completed) bs).
Proof.
  unfold reported_status.
  pose proof (all_completed_Forall bs) as Hall.
  pose proof (some_status_Exists triggered bs) as Htr.
  pose proof (some_status_Exists completed bs) as Hco.
  assert (Exists (λ b, status b = triggered ∨ status b = completed) bs
          ↔ Exists (λ b, status b = triggered) bs ∨
            Exists (λ b, status b = completed) bs) as Hex.
  { rewrite !Exists_exists. split.
    - intros (b & Hb & [H|H]); [left|right]; eauto.
    - intros [(b & Hb & H)|(b & Hb & H)]; eauto. }
  rewrite Hex.
  destruct (bool_iff_cases _ _ Hall) as [[E1 HA]|[E1 HA]];
    destruct (bool_iff_cases _ _ Htr) as [[E2 HT]|[E2 HT]];
    destruct (bool_iff_cases _ _ Hco) as [[E3 HC]|[E3 HC]];
    rewrite E1, ?E2, ?E3; simpl;
    (split_and!; (split; intros ?); try discriminate; try tauto).
Qed.

Lemma getIngestionStatus_reported ingId sv ing :
  ingestions sv !! ingId = Some ing →
  getIngestionStatus ingId sv =
    Some {| ingestion_id := ingId;
            overall_status := reported_status (batches ing);
            view_batches := batch_view <$> batches ing |}.
Proof. intros Hing. unfold getIngestionStatus. by rewrite Hing. Qed.

Lemma reported_status_pending bs :
  bs ≠ [] → Forall (λ b, status b = yet_to_start) bs →
  reported_status bs = yet_to_start.
Proof.
  intros Hne Hall. apply reported_status_cases. split.
  - intros Hco. destruct bs as [|b bs]; [done|].
    apply Forall_cons in Hall as [H1 _]. apply Forall_cons in Hco as [H2 _].
    congruence.
  - rewrite Exists_exists. intros (b & Hb & Hst).
    rewrite Forall_forall in Hall. specialize (Hall b Hb).
    destruct Hst; congruence.
Qed.

Lemma reported_status_after_dispatch bs k b :
  bs !! k = Some b →
  reported_status (<[k := set_status triggered b]> bs) = triggered.
Proof.
  intros Hk.
  assert (<[k := set_status triggered b]> bs !! k
          = Some (set_status triggered b)) as Hk'.
  { apply list_lookup_insert_eq. eauto using lookup_lt_Some. }
  apply reported_status_cases. split.
  - intros Hall. by pose proof (Forall_lookup_1 _ _ _ _ Hall Hk').
  - apply Exists_exists. eexists. split; [by eapply list_elem_of_lookup_2|].
    by left.
Qed.

Lemma reported_status_after_done bs k b :
  bs !! k = Some b → status b ≠ yet_to_start →
  reported_status (<[k := set_status completed b]> bs) =
    if forallb (has_status completed) (<[k := set_status completed b]> bs)
    then completed else reported_status bs.
Proof.
  intros Hk Hst.
  assert (<[k := set_status completed b]> bs !! k
          = Some (set_status completed b)) as Hk'.
  { apply list_lookup_insert_eq. eauto using lookup_lt_Some. }
  destruct (forallb _ _) eqn:Hall.
  - by apply reported_status_cases, all_completed_Forall.
  - assert (¬ Forall (λ b, status b = completed)
                (<[k := set_status completed b]> bs)) as Hnot.
    { intros H. apply all_completed_Forall in H. congruence. }
    transitivity triggered; [|symmetry]; apply reported_status_cases.
    + split; [done|]. apply Exists_exists. eexists.
      split; [by eapply list_elem_of_lookup_2|]. by right.
    + split.
      * intros H. apply Hnot. apply Forall_insert; done.
      * apply Exists_exists. exists b.
        split; [by eapply list_elem_of_lookup_2|].
        destruct (status b); [done|by left|by right].
Qed.

Lemma triggered_inflight_step e s s' :
  consistent s → tracked s → step e s = Some s' →
  ∀ key ing k b,
    ingestions (svc s') !! key = Some ing → batches ing !! k = Some b →
    (status b = triggered ↔ (key, k) ∈ inflight s').
Proof.
  intros Hs Ht Hstep key r j y Hr Hj.
  pose proof (triggered_inflight s Ht) as IH.
  destruct (step_cases e s s' Hs Hstep)
    as [(Hi & _ & Hf)|[(l & p & t1 & t2 & _ & ->)|
        [(item & rest & ing & k & b & _ & _ & Hing & Hfind & Hst & Hi & _ & Hf)|
         (ingId & k & ing & b & _ & _ & Hing & Hk & Hst & Hi & _ & Hf)]]].
  - rewrite Hi in Hr. rewrite Hf. by eapply IH.
  - destruct (submit_unfold l p t1 t2 s) as (bs & Hbs & Heq).
    rewrite Heq in Hr |- *. fields.
    destruct (createBatches_fresh _ _ _ Hbs) as [Hpending _].
    destruct (decide (key = uuidv4 (uuids s))) as [->|Hne].
    + rewrite lookup_insert_eq in Hr. inversion Hr; subst r; clear Hr.
      cbn [batches] in Hj. eapply Forall_lookup_1 in Hpending; [|done].
      split; [congruence|]. intros Hin.
      apply (inflight_started s Hs) in Hin as (ing & _ & Hing & _).
      by rewrite (consistent_fresh_key s Hs) in Hing.
    + rewrite lookup_insert_ne in Hr by done. by eapply IH.
  - apply list_find_Some in Hfind as (Hk & _).
    rewrite Hi in Hr. rewrite Hf.
    destruct (decide (key = ingestionId item)) as [->|Hne].
    + rewrite lookup_insert_eq in Hr. inversion Hr; subst r; clear Hr.
      cbn [mark_triggered batches] in Hj.
      destruct (decide (j = k)) as [->|Hjk].
      * rewrite list_lookup_insert_eq in Hj by eauto using lookup_lt_Some.
        inversion Hj; subst y. simpl. split; [by left|done].
      * rewrite list_lookup_insert_ne in Hj by done.
        rewrite (IH _ ing j y Hing Hj), elem_of_cons.
        split; [by right|]. intros [Heq|Hin]; [|done]. by inversion Heq.
    + rewrite lookup_insert_ne in Hr by done.
      rewrite (IH _ r j y Hr Hj), elem_of_cons.
      split; [by right|]. intros [Heq|Hin]; [|done]. by inversion Heq.
  - rewrite Hi in Hr. rewrite Hf, list_elem_of_filter.
    destruct (decide (key = ingId)) as [->|Hne].
    + rewrite lookup_insert_eq in Hr. inversion Hr; subst r; clear Hr.
      cbn [mark_completed batches] in Hj.
      destruct (decide (j = k)) as [->|Hjk].
      * rewrite list_lookup_insert_eq in Hj by eauto using lookup_lt_Some.
        inversion Hj; subst y. simpl. split; [done|]. by intros [Hne _].
      * rewrite list_lookup_insert_ne in Hj by done.
        rewrite (IH _ ing j y Hing Hj). split; [|by intros [_ ?]].
        intros Hin. split; [|done]. intros Heq. by inversion Heq.
    + rewrite lookup_insert_ne in Hr by done.
      rewrite (IH _ r j y Hr Hj). split; [|by intros [_ ?]].
      intros Hin. split; [|done]. intros Heq. by inversion Heq.
Qed.

Lemma stored_status_step e s s' :
  consistent s → tracked s → step e s = Some s' →
  ∀ key ing,
    ingestions (svc s') !! key = Some ing →
    ing_status ing =
      if decide (batches ing = []) then yet_to_start
      else reported_status (batches ing).
Proof.
  intros Hs Ht Hstep key r Hr.
  pose proof (stored_status s Ht) as IH.
  destruct (step_cases e s s' Hs Hstep)
    as [(Hi & _ & _)|[(l & p & t1 & t2 & _ & ->)|
        [(item & rest & ing & k & b & _ & _ & Hing & Hfind & Hst & Hi & _ & _)|
         (ingId & k & ing & b & _ & _ & Hing & Hk & Hst & Hi & _ & _)]]].
  - rewrite Hi in Hr. by apply IH in Hr.
  - destruct (submit_unfold l p t1 t2 s) as (bs & Hbs & Heq).
    rewrite Heq in Hr. fields.
    destruct (createBatches_fresh _ _ _ Hbs) as [Hpending _].
    destruct (decide (key = uuidv4 (uuids s))) as [->|Hne].
    + rewrite lookup_insert_eq in Hr. inversion Hr; subst r; clear Hr.
      cbn [batches ing_status]. case_decide; [done|].
      symmetry. by apply reported_status_pending.
    + rewrite lookup_insert_ne in Hr by done. by apply IH in Hr.
  - apply list_find_Some in Hfind as (Hk & _). rewrite Hi in Hr.
    destruct (decide (key = ingestionId item)) as [->|Hne].
    + rewrite lookup_insert_eq in Hr. inversion Hr; subst r; clear Hr.
      cbn [mark_triggered batches ing_status].
      rewrite reported_status_after_dispatch by done.
      destruct (decide (<[k:=set_status triggered b]> (batches ing) = []))
        as [Hnil|_].
      { apply (f_equal length) in Hnil.
        rewrite length_insert in Hnil. apply lookup_lt_Some in Hk.
        simpl in Hnil. lia. }
      case_decide as Hold; [done|].
      pose proof (IH _ ing Hing) as Hstored.
      rewrite decide_False in Hstored by (intros Hnil; by rewrite Hnil in Hk).
      destruct (ing_status ing) eqn:Hcur; [done|done|].
      symmetry in Hstored. apply reported_status_cases in Hstored.
      pose proof (Forall_lookup_1 _ _ _ _ Hstored Hk). congruence.
    + rewrite lookup_insert_ne in Hr by done. by apply IH in Hr.
  - rewrite Hi in Hr.
    destruct (decide (key = ingId)) as [->|Hne].
    + rewrite lookup_insert_eq in Hr. inversion Hr; subst r; clear Hr.
      cbn [mark_completed batches ing_status].
      destruct (decide (<[k:=set_status completed b]> (batches ing) = []))
        as [Hnil|_].
      { apply (f_equal length) in Hnil.
        rewrite length_insert in Hnil. apply lookup_lt_Some in Hk.
        simpl in Hnil. lia. }
      rewrite reported_status_after_done by done.
      destruct (forallb _ _); [done|].
      pose proof (IH _ ing Hing) as Hstored.
      by rewrite decide_False in Hstored
        by (intros Hnil; by rewrite Hnil in Hk).
    + rewrite lookup_insert_ne in Hr by done. by apply IH in Hr.
Qed.

Lemma work_scheduled_step e s s' :
  consistent s → tracked s → step e s = Some s' →
  loop s' = Idle → batchQueue (svc s') ≠ [] → (0 < immediates s')%nat.
Proof.
  intros Hs Ht Hstep.
  pose proof (work_scheduled s Ht) as IH.
  pose proof (processing_flag s Hs) as Hflag.
  destruct e as [d|l p t1 t2|ingId| | | |ingId k]; unfold step in Hstep.
  - case_decide; [|done]. by inversion Hstep; subst s'.
  - case_decide; [|done]. inversion Hstep; subst s'.
    destruct (submit_unfold l p t1 t2 s) as (bs & _ & ->). fields. lia.
  - case_decide; [|done]. by inversion Hstep; subst s'.
  - destruct (immediates s) as [|n]; [done|]. case_decide; [|done].
    inversion Hstep; subst s'; clear Hstep. unfold startProcessing. fields.
    destruct (isProcessing (svc s)) eqn:Hp; simpl.
    + intros Hidle. rewrite Hidle in Hflag. done.
    + destruct (bool_decide (batchQueue (svc s) = [])) eqn:Hq; simpl; [|done].
      apply bool_decide_eq_true in Hq. intros _ Hne. by destruct Hne.
  - case_decide as Hrun; [|done].
    destruct (loop_turn (svc s)) as [sv|sv|item k wait sv] eqn:Hturn;
      inversion Hstep; subst s'; clear Hstep; fields.
    + destruct (loop_turn_cases (svc s))
        as [[Hq H]|(item & rest & _ & [H|(? & ? & ? & _ & _ & _ & H)])];
        rewrite H in Hturn; inversion Hturn; subst sv. fields.
      by rewrite Hq.
    + by rewrite Hrun.
    + by destruct wait.
  - destruct (loop s); try done. case_decide; [|done].
    by inversion Hstep; subst s'.
  - case_decide; [|done]. inversion Hstep; subst s'. fields.
    unfold batch_done.
    destruct (ingestions (svc s) !! ingId) as [ing|]; [|done].
    by destruct (batches ing !! k).
Qed.

Lemma reachable_tracked s : reachable s → tracked s.
Proof.
  induction 1 as [|e s s' Hreach IH Hstep].
  - split; simpl; try done.
  - pose proof (reachable_consistent s Hreach) as Hs. split.
    + by eapply triggered_inflight_step.
    + by eapply stored_status_step.
    + by eapply work_scheduled_step.
Qed.

(** ** What holds of the queue in every reachable state *)

(** X4.  In every reachable state the queue is in sorted order (priority
    rank, then enqueue time), so sorting it again changes nothing, and
    [getQueueState] lists the items in the order in which they will be
    dispatched, with [queueLength] their number and [isProcessing] telling
    whether a call of [processQueue] is active. *)
Theorem queue_is_kept_sorted s :
  reachable s →
  StronglySorted rank_then_time (batchQueue (svc s)) ∧
  sortQueue (svc s) = svc s ∧
  queue (getQueueState (svc s)) = batchQueue (svc s) ∧
  queueLength (getQueueState (svc s)) = length (batchQueue (svc s)) ∧
  (qs_isProcessing (getQueueState (svc s)) = true ↔ loop s ≠ Idle).
Proof.
  intros Hreach.
  pose proof (queue_sorted s (reachable_well_kept s Hreach)) as Hsorted.
  pose proof (processing_flag s (reachable_consistent s Hreach)) as Hflag.
  split_and!; [done| | |done|].
  - unfold sortQueue, set_queue. rewrite array_sort_fixes_sorted by done.
    by destruct (svc s).
  - unfold getQueueState. cbn [queue].
    rewrite <- (list_fmap_id (batchQueue (svc s))) at 2.
    apply list_fmap_ext. by intros i [].
  - cbn [getQueueState qs_isProcessing]. rewrite Hflag.
    apply bool_decide_eq_true.
Qed.

Lemma queue_is_kept_sorted_witness :
  priority <$> queue (getQueueState (svc (state_after high_arrives_late)))
    = [HIGH; LOW] ∧
  sortQueue (svc (state_after high_arrives_late))
    = svc (state_after high_arrives_late).
Proof.
  split; [reflexivity|].
  apply queue_is_kept_sorted.
  apply reachable_state_after. vm_compute. eauto.
Defined.

(** X5.  In every reachable state with a non-empty queue, a turn of the
    loop dispatches the first item of the queue: the item's ingestion is in
    the store, its batch is found and still [yet_to_start], so neither
    [continue] is taken; the queue afterwards is the queue without that
    item. *)
Theorem loop_turn_dispatches_first_item s :
  reachable s → batchQueue (svc s) ≠ [] →
  ∃ item rest k sv',
    batchQueue (svc s) = item :: rest ∧
    loop_turn (svc s) = TurnDispatch item k (bool_decide (rest ≠ [])) sv' ∧
    batchQueue sv' = rest ∧
    (∃ b, item_batch sv' item = Some b ∧ status b = triggered).
Proof.
  intros Hreach Hne.
  pose proof (reachable_consistent s Hreach) as Hs.
  pose proof (queue_sorted s (reachable_well_kept s Hreach)) as Hsorted.
  destruct (batchQueue (svc s)) as [|item rest] eqn:Hq; [done|].
  destruct (consistent_turn_dispatches s item rest Hs)
    as (ing & k & b & Hing & Hfind & Hst & Hturn).
  { rewrite Hq. by apply array_sort_fixes_sorted. }
  eexists item, rest, k, _. split_and!; [done|exact Hturn|done|].
  exists (set_status triggered b). split; [|done].
  apply item_batch_Some. eexists _, k. fields. rewrite lookup_insert_eq.
  split; [done|]. cbn [mark_triggered batches].
  by apply list_find_set_status_same.
Qed.

Lemma loop_turn_dispatches_first_item_witness :
  ∃ item rest k sv',
    batchQueue (svc (state_after high_arrives_late)) = item :: rest ∧
    loop_turn (svc (state_after high_arrives_late))
      = TurnDispatch item k (bool_decide (rest ≠ [])) sv' ∧
    priority item = HIGH.
Proof.
  destruct (loop_turn_dispatches_first_item (state_after high_arrives_late))
    as (item & rest & k & sv' & Hq & Hturn & _).
  - apply reachable_state_after. vm_compute. eauto.
  - by vm_compute.
  - exists item, rest, k, sv'. split_and!; [done..|].
    vm_compute in Hq. by inversion Hq.
Defined.

(** X15.  Preemption: in every reachable state, if an item of priority HIGH
    is waiting in the queue, the next turn of the loop dispatches an item of
    priority HIGH; and if no HIGH item but a MEDIUM item is waiting, it
    dispatches a MEDIUM item. *)
Theorem highest_waiting_priority_goes_first s e :
  reachable s → e ∈ batchQueue (svc s) →
  ∃ item k wait sv',
    loop_turn (svc s) = TurnDispatch item k wait sv' ∧
    priorityOrder (priority item) ≤ priorityOrder (priority e) ∧
    (priority e = HIGH → priority item = HIGH) ∧
    (priority e = MEDIUM → priority item ≠ LOW).
Proof.
  intros Hreach He.
  pose proof (reachable_consistent s Hreach) as Hs.
  destruct (array_sort (batchQueue (svc s))) as [|item rest] eqn:Hsort.
  { rewrite <- array_sort_Permutation, Hsort in He.
    by apply elem_of_nil in He. }
  destruct (consistent_turn_dispatches s item rest Hs Hsort)
    as (ing & k & b & _ & _ & _ & Hturn).
  assert (priorityOrder (priority item) ≤ priorityOrder (priority e)) as Hle.
  { pose proof (array_sort_sorted (batchQueue (svc s))) as Hsorted.
    rewrite Hsort in Hsorted. apply StronglySorted_inv in Hsorted as [_ Hhd].
    rewrite <- array_sort_Permutation, Hsort in He.
    apply elem_of_cons in He as [->|He]; [lia|].
    rewrite Forall_forall in Hhd. specialize (Hhd e He).
    unfold rank_then_time in Hhd. lia. }
  eexists item, k, _, _. split_and!; [exact Hturn|done| |].
  - intros Hp. rewrite Hp in Hle. by destruct (priority item).
  - intros Hp. rewrite Hp in Hle. by destruct (priority item).
Qed.

Lemma highest_waiting_priority_goes_first_witness :
  ∃ item k wait sv',
    loop_turn (svc (state_after high_arrives_late))
      = TurnDispatch item k wait sv' ∧
    priority item = HIGH.
Proof.
  destruct (highest_waiting_priority_goes_first
              (state_after high_arrives_late)
              {| ingestionId := "3"; q_batchId := "4"; priority := HIGH;
                 createdAt := 10 |})
    as (item & k & wait & sv' & Hturn & _ & Hhigh & _).
  - apply reachable_state_after. vm_compute. eauto.
  - vm_compute. by left.
  - exists item, k, wait, sv'. split; [done|]. by apply Hhigh.
Defined.

(** X6.  The batches of an ingestion are dispatched in batch order: in a
    reachable state, the batch that a turn dispatches is the first pending
    batch of its ingestion; every earlier batch has already been
    dispatched and every later one is still [yet_to_start]. *)
Theorem dispatch_follows_batch_order s item k wait sv' :
  reachable s →
  loop_turn (svc s) = TurnDispatch item k wait sv' →
  ∃ ing,
    ingestions (svc s) !! ingestionId item = Some ing ∧
    ∀ j b, batches ing !! j = Some b →
           (status b = yet_to_start ↔ (k ≤ j)%nat).
Proof.
  intros Hreach Hturn.
  destruct (loop_turn_dispatch _ _ _ _ _ Hturn)
    as (ing & b & Hsort & _ & Hing & Hfind & Hst & Hstore & _).
  exists ing. split; [done|].
  apply (in_batch_order_dispatch s (with_svc sv' s) item (batchQueue sv')
           ing k b); try done.
  - by apply reachable_consistent.
  - by apply reachable_well_kept.
  - by apply reachable_in_batch_order.
Qed.

Lemma dispatch_follows_batch_order_witness :
  ∃ item wait sv' ing,
    loop_turn (svc second_turn_ahead) = TurnDispatch item 1 wait sv' ∧
    ingestions (svc second_turn_ahead) !! ingestionId item = Some ing ∧
    status <$> batches ing = [triggered; yet_to_start; yet_to_start].
Proof.
  assert (reachable second_turn_ahead) as Hreach.
  { apply reachable_state_after. vm_compute. eauto. }
  destruct (dispatch_follows_batch_order _ _ _ _ _ Hreach eq_refl)
    as (ing & Hing & _).
  eexists _, _, _, ing. split_and!; [reflexivity|exact Hing|].
  vm_compute in Hing. by inversion Hing.
Defined.

Lemma pending_batch_has_item s key ing k b :
  reachable s →
  ingestions (svc s) !! key = Some ing →
  batches ing !! k = Some b →
  status b = yet_to_start →
  ∃ e, e ∈ batchQueue (svc s) ∧ ingestionId e = key ∧
       q_batchId e = batchId b.
Proof.
  intros Hreach Hing Hk Hst.
  destruct (reachable_in_batch_order s Hreach key ing Hing)
    as (n & Hitems & Hstat).
  apply (Hstat k b Hk) in Hst.
  assert (drop n (batchId <$> batches ing) !! (k - n)%nat
          = Some (batchId b)) as Hd.
  { rewrite lookup_drop, list_lookup_fmap.
    replace (n + (k - n))%nat with k by lia. by rewrite Hk. }
  rewrite <- Hitems in Hd.
  apply list_lookup_fmap_Some in Hd as (e & Hbid & He).
  apply list_elem_of_lookup_2 in He.
  apply list_elem_of_filter in He as [Hkey He]. eauto.
Qed.

(** X7.  No pending batch is lost and no queue item is stale: in every
    reachable state a stored batch is [yet_to_start] exactly when the queue
    holds an item for it. *)
Theorem pending_batches_are_the_queued_ones s key ing k b :
  reachable s →
  ingestions (svc s) !! key = Some ing →
  batches ing !! k = Some b →
  (status b = yet_to_start ↔
   ∃ e, e ∈ batchQueue (svc s) ∧ ingestionId e = key ∧
        q_batchId e = batchId b).
Proof.
  intros Hreach Hing Hk. split; [by apply (pending_batch_has_item s key ing k)|].
  intros (e & He & Hkey & Hbid).
  pose proof (batch_ids_distinct s (reachable_well_kept s Hreach) key ing Hing)
    as Hnd.
  destruct (reachable_in_batch_order s Hreach key ing Hing)
    as (n & Hitems & Hstat).
  apply (Hstat k b Hk).
  assert (q_batchId e ∈ q_batchId <$> items_of key (batchQueue (svc s)))
    as Hin.
  { apply list_elem_of_fmap_2. by apply list_elem_of_filter. }
  rewrite Hitems, Hbid in Hin.
  apply list_elem_of_lookup in Hin as [i Hi]. rewrite lookup_drop in Hi.
  assert ((batchId <$> batches ing) !! k = Some (batchId b)) as Hbk
    by (by rewrite list_lookup_fmap, Hk).
  pose proof (proj1 (NoDup_alt _) Hnd _ _ _ Hi Hbk). lia.
Qed.

Lemma pending_batches_are_the_queued_ones_witness :
  ∃ e, e ∈ batchQueue (svc first_turn_ahead) ∧ ingestionId e = "0" ∧
       q_batchId e = "2".
Proof.
  assert (reachable first_turn_ahead) as Hreach.
  { apply reachable_state_after. vm_compute. eauto. }
  apply (pending_batches_are_the_queued_ones first_turn_ahead "0" _ 1
           {| batchId := "2"; ids := ints [4; 5; 6]; status := yet_to_start |}
           Hreach eq_refl eq_refl).
  reflexivity.
Defined.

(** X8.  In every reachable state a stored batch is [triggered] exactly
    while the [processBatch] promise started for it is pending: no
    triggered batch is without its completion callback, and no callback is
    pending for a batch that is pending or completed. *)
Theorem triggered_while_processing s key ing k b :
  reachable s →
  ingestions (svc s) !! key = Some ing →
  batches ing !! k = Some b →
  (status b = triggered ↔ (key, k) ∈ inflight s).
Proof.
  intros Hreach. apply (triggered_inflight s (reachable_tracked s Hreach)).
Qed.

Lemma triggered_while_processing_witness :
  ("0", 0%nat) ∈ inflight (state_after high_arrives_late).
Proof.
  assert (reachable (state_after high_arrives_late)) as Hreach.
  { apply reachable_state_after. vm_compute. eauto. }
  apply (triggered_while_processing (state_after high_arrives_late) "0" _ 0
           {| batchId := "1"; ids := ints [1; 2; 3]; status := triggered |}
           Hreach eq_refl eq_refl).
  reflexivity.
Defined.

(** X9.  The [status] field stored in an ingestion record, which the loop
    and the completion callback update on their own, agrees in every
    reachable state with the status that [getIngestionStatus] computes,
    for every ingestion that has a batch; an ingestion without batches
    keeps the stored status [yet_to_start] (and is reported [completed]). *)
Theorem stored_status_is_the_reported_one s key ing :
  reachable s →
  ingestions (svc s) !! key = Some ing →
  ∃ view,
    getIngestionStatus key (svc s) = Some view ∧
    (batches ing ≠ [] → ing_status ing = overall_status view) ∧
    (batches ing = [] →
     ing_status ing = yet_to_start ∧ overall_status view = completed).
Proof.
  intros Hreach Hing.
  pose proof (stored_status s (reachable_tracked s Hreach) key ing Hing)
    as Hstored.
  eexists. split; [by apply getIngestionStatus_reported|].
  cbn [overall_status]. split.
  - intros Hne. by rewrite decide_False in Hstored.
  - intros Hnil. rewrite decide_True in Hstored by done.
    split; [done|]. by rewrite Hnil.
Qed.

Lemma stored_status_is_the_reported_one_witness :
  ∃ ing view,
    ingestions (svc (state_after high_arrives_late)) !! "0" = Some ing ∧
    getIngestionStatus "0" (svc (state_after high_arrives_late))
      = Some view ∧
    ing_status ing = triggered ∧ overall_status view = triggered.
Proof.
  assert (reachable (state_after high_arrives_late)) as Hreach.
  { apply reachable_state_after. vm_compute. eauto. }
  destruct (stored_status_is_the_reported_one _ "0" _ Hreach eq_refl)
    as (view & Hget & Hsame & _).
  eexists _, view. split_and!; [reflexivity|exact Hget| |].
  - reflexivity.
  - rewrite <- Hsame; [reflexivity|]. by vm_compute.
Defined.

(** X10.  [isProcessing] is set exactly while a call of [processQueue] is
    active, so [startProcessing] starts a call only when none is; and
    queued work is never stranded: in every reachable state with a
    non-empty queue the loop is active or a [setImmediate] callback that
    will start it is due. *)
Theorem queued_work_is_scheduled s :
  reachable s →
  (isProcessing (svc s) = true ↔ loop s ≠ Idle) ∧
  (loop s ≠ Idle → startProcessing s = s) ∧
  (batchQueue (svc s) ≠ [] → loop s ≠ Idle ∨ (0 < immediates s)%nat) ∧
  (loop s = Idle → batchQueue (svc s) ≠ [] →
   loop (startProcessing s) = Running ∧
   isProcessing (svc (startProcessing s)) = true).
Proof.
  intros Hreach.
  pose proof (processing_flag s (reachable_consistent s Hreach)) as Hflag.
  pose proof (work_scheduled s (reachable_tracked s Hreach)) as Hwork.
  split_and!.
  - rewrite Hflag. apply bool_decide_eq_true.
  - intros Hactive. unfold startProcessing.
    rewrite Hflag, bool_decide_eq_true_2 by done. done.
  - intros Hne. destruct (decide (loop s = Idle)); [right|left]; auto.
  - intros Hidle Hne. unfold startProcessing.
    rewrite Hflag, Hidle, bool_decide_eq_false_2 by (by intros H; apply H).
    by rewrite bool_decide_eq_false_2 by done.
Qed.

Lemma queued_work_is_scheduled_witness :
  loop one_request_waiting = Idle ∧ (0 < immediates one_request_waiting)%nat.
Proof.
  split; [reflexivity|].
  destruct (queued_work_is_scheduled one_request_waiting)
    as (_ & _ & Hwork & _).
  - apply reachable_state_after. vm_compute. eauto.
  - destruct Hwork as [Hactive|Hdue]; [by vm_compute| |done].
    by destruct Hactive.
Defined.

(** ** The loop drains the queue *)

Lemma run_app es1 es2 s :
  run (es1 ++ es2) s = run es1 s ≫= run es2.
Proof.
  revert s. induction es1 as [|e es1 IH]; intros s; simpl; [done|].
  destruct (step e s); [apply IH|done].
Qed.

Lemma drain_running n : ∀ s,
  reachable s → loop s = Running →
  length (batchQueue (svc s)) = n →
  ∃ es s',
    run es s = Some s' ∧ Forall loop_event es ∧
    batchQueue (svc s') = [] ∧ loop s' = Idle ∧
    length (dispatches s') = (n + length (dispatches s))%nat.
Proof.
  induction n as [|n IH]; intros s Hreach Hrun Hlen.
  - apply length_zero_iff_nil in Hlen.
    eexists [LoopTurn], _. cbn [run]. unfold step.
    rewrite decide_True by done. unfold loop_turn. rewrite Hlen.
    split; [reflexivity|]. fields. split_and!; [|done..].
    by repeat constructor.
  - pose proof (reachable_consistent s Hreach) as Hs.
    destruct (array_sort (batchQueue (svc s))) as [|item rest] eqn:Hsort.
    { apply (f_equal length) in Hsort.
      by rewrite array_sort_length, Hlen in Hsort. }
    assert (length rest = n) as Hrest.
    { apply (f_equal length) in Hsort.
      rewrite array_sort_length, Hlen in Hsort. simpl in Hsort. lia. }
    destruct (consistent_turn_dispatches s item rest Hs Hsort)
      as (ing & k & b & _ & _ & _ & Hturn).
    assert (∃ s1, step LoopTurn s = Some s1 ∧ batchQueue (svc s1) = rest ∧
                  dispatches s1 = now s :: dispatches s ∧ now s1 = now s ∧
                  loop s1 = if bool_decide (rest ≠ [])
                            then Sleeping (now s + RATE_LIMIT_MS)
                            else Running) as (s1 & Hstep1 & Hq1 & Hd1 & Hn1 & Hl1).
    { eexists. unfold step. rewrite decide_True by done. rewrite Hturn.
      split; [reflexivity|]. done. }
    pose proof (reachable_step _ _ _ Hreach Hstep1) as Hreach1.
    case_bool_decide as Hne.
    + assert (∃ s2, step (Tick RATE_LIMIT_MS) s1 = Some s2 ∧
                    loop s2 = loop s1 ∧ svc s2 = svc s1 ∧
                    dispatches s2 = dispatches s1 ∧
                    now s2 = now s1 + RATE_LIMIT_MS)
        as (s2 & Hstep2 & Hl2 & Hsv2 & Hd2 & Hn2).
      { eexists. unfold step. rewrite decide_True by (by vm_compute).
        split; [reflexivity|]. done. }
      pose proof (reachable_step _ _ _ Hreach1 Hstep2) as Hreach2.
      assert (∃ s3, step TimerFires s2 = Some s3 ∧ loop s3 = Running ∧
                    svc s3 = svc s2 ∧ dispatches s3 = dispatches s2)
        as (s3 & Hstep3 & Hl3 & Hsv3 & Hd3).
      { eexists. unfold step. rewrite Hl2, Hl1.
        rewrite decide_True by lia. split; [reflexivity|]. done. }
      pose proof (reachable_step _ _ _ Hreach2 Hstep3) as Hreach3.
      destruct (IH s3 Hreach3 Hl3) as (es & s' & Hrun' & Hes & Hq' & Hl' & Hd').
      { by rewrite Hsv3, Hsv2, Hq1. }
      exists (LoopTurn :: Tick RATE_LIMIT_MS :: TimerFires :: es), s'.
      cbn [run]. rewrite Hstep1, Hstep2, Hstep3.
      split_and!; [done| |done|done|].
      * by repeat constructor.
      * rewrite Hd', Hd3, Hd2, Hd1. simpl. lia.
    + destruct (IH s1 Hreach1 Hl1) as (es & s' & Hrun' & Hes & Hq' & Hl' & Hd');
        [by rewrite Hq1|].
      exists (LoopTurn :: es), s'. cbn [run]. rewrite Hstep1.
      split_and!; [done| |done|done|].
      * by constructor.
      * rewrite Hd', Hd1. simpl. lia.
Qed.

Lemma loop_drains_queue_run s :
  reachable s →
  ∃ es s',
    run es s = Some s' ∧ Forall loop_event es ∧
    batchQueue (svc s') = [] ∧ loop s' = Idle ∧
    length (dispatches s') =
      (length (batchQueue (svc s)) + length (dispatches s))%nat.
Proof.
  intros Hreach.
  pose proof (reachable_consistent s Hreach) as Hs.
  pose proof (processing_flag s Hs) as Hflag.
  destruct (loop s) as [| |wake] eqn:Hloop.
  - destruct (decide (batchQueue (svc s) = [])) as [Hnil|Hne].
    + exists [], s. rewrite Hnil. split_and!; done.
    + pose proof (work_scheduled s (reachable_tracked s Hreach) Hloop Hne)
        as Hdue.
      destruct (immediates s) as [|m] eqn:Him; [lia|].
      assert (∃ s1, step Immediate s = Some s1 ∧ loop s1 = Running ∧
                    batchQueue (svc s1) = batchQueue (svc s) ∧
                    dispatches s1 = dispatches s)
        as (s1 & Hstep1 & Hl1 & Hq1 & Hd1).
      { eexists. unfold step. rewrite Him, Hloop.
        rewrite decide_True by done. split; [reflexivity|].
        unfold startProcessing. fields.
        rewrite Hflag, bool_decide_eq_false_2 by (by intros H; apply H).
        by rewrite bool_decide_eq_false_2 by done. }
      destruct (drain_running _ s1 (reachable_step _ _ _ Hreach Hstep1)
                  Hl1 eq_refl) as (es & s' & Hrun & Hes & Hq & Hl & Hd).
      exists (Immediate :: es), s'. cbn [run]. rewrite Hstep1.
      split_and!; [done|by constructor|done|done|].
      by rewrite Hd, Hq1, Hd1.
  - destruct (drain_running _ s Hreach Hloop eq_refl)
      as (es & s' & Hrun & Hes & Hq & Hl & Hd).
    by exists es, s'.
  - assert (∃ s1, step (Tick (Z.max 0 (wake - now s))) s = Some s1 ∧
                  loop s1 = Sleeping wake ∧ wake ≤ now s1 ∧
                  svc s1 = svc s ∧ dispatches s1 = dispatches s)
      as (s1 & Hstep1 & Hl1 & Hn1 & Hsv1 & Hd1).
    { eexists. unfold step. rewrite decide_True by lia.
      split; [reflexivity|]. fields. split_and!; [done|lia|done|done]. }
    pose proof (reachable_step _ _ _ Hreach Hstep1) as Hreach1.
    assert (∃ s2, step TimerFires s1 = Some s2 ∧ loop s2 = Running ∧
                  svc s2 = svc s1 ∧ dispatches s2 = dispatches s1)
      as (s2 & Hstep2 & Hl2 & Hsv2 & Hd2).
    { eexists. unfold step. rewrite Hl1, decide_True by done.
      split; [reflexivity|]. done. }
    destruct (drain_running _ s2 (reachable_step _ _ _ Hreach1 Hstep2)
                Hl2 eq_refl) as (es & s' & Hrun & Hes & Hq & Hl & Hd).
    exists (Tick (Z.max 0 (wake - now s)) :: TimerFires :: es), s'.
    cbn [run]. rewrite Hstep1, Hstep2.
    split_and!; [done|by repeat constructor|done|done|].
    by rewrite Hd, Hsv2, Hsv1, Hd2, Hd1.
Qed.

(** X11.  Left alone, the loop drains the queue: from every reachable state
    there is a run of clock and loop events only (no submission, no
    completion) after which the queue is empty, the loop is idle with
    [isProcessing] cleared, every item that was queued has been dispatched,
    and no stored batch is [yet_to_start] any more. *)
Theorem loop_drains_the_queue s :
  reachable s →
  ∃ es s',
    run es s = Some s' ∧ Forall loop_event es ∧
    batchQueue (svc s') = [] ∧ loop s' = Idle ∧
    isProcessing (svc s') = false ∧
    length (dispatches s') =
      (length (batchQueue (svc s)) + length (dispatches s))%nat ∧
    ∀ key ing k b,
      ingestions (svc s') !! key = Some ing → batches ing !! k = Some b →
      status b ≠ yet_to_start.
Proof.
  intros Hreach.
  destruct (loop_drains_queue_run s Hreach)
    as (es & s' & Hrun & Hes & Hq & Hl & Hd).
  exists es, s'. pose proof (reachable_run es s s' Hreach Hrun) as Hreach'.
  split_and!; [done..| | |].
  - pose proof (processing_flag s' (reachable_consistent s' Hreach')) as Hf.
    rewrite Hf, Hl. by apply bool_decide_eq_false_2; intros H; apply H.
  - done.
  - intros key ing k b Hing Hk Hst.
    destruct (pending_batch_has_item s' key ing k b Hreach' Hing Hk Hst)
      as (e & He & _).
    rewrite Hq in He. by apply elem_of_nil in He.
Qed.

Lemma loop_drains_the_queue_witness :
  ∃ es s',
    run es first_turn_ahead = Some s' ∧ batchQueue (svc s') = [] ∧
    loop s' = Idle ∧ length (dispatches s') = 2%nat.
Proof.
  destruct (loop_drains_the_queue first_turn_ahead)
    as (es & s' & Hrun & _ & Hq & Hl & _ & Hd & _).
  - apply reachable_state_after. vm_compute. eauto.
  - exists es, s'. split_and!; done.
Defined.

(** ** The reported status over time *)

Lemma reported_status_step e s s' key ing :
  consistent s → step e s = Some s' →
  ingestions (svc s) !! key = Some ing →
  ∃ ing',
    ingestions (svc s') !! key = Some ing' ∧
    (status_rank (reported_status (batches ing))
     ≤ status_rank (reported_status (batches ing')))%nat.
Proof.
  intros Hs Hstep Hing.
  destruct (step_cases e s s' Hs Hstep)
    as [(Hi & _ & _)|[(l & p & t1 & t2 & _ & ->)|
        [(item & rest & ing0 & k & b & _ & _ & Hing0 & Hfind & Hst & Hi & _ & _)|
         (ingId & k & ing0 & b & _ & _ & Hing0 & Hk & Hst & Hi & _ & _)]]].
  - exists ing. by rewrite Hi.
  - destruct (submit_unfold l p t1 t2 s) as (bs & _ & ->). fields.
    exists ing. rewrite lookup_insert_ne; [done|].
    intros <-. by rewrite (consistent_fresh_key s Hs) in Hing.
  - apply list_find_Some in Hfind as (Hk & _). rewrite Hi.
    destruct (decide (key = ingestionId item)) as [->|Hne].
    + assert (ing0 = ing) as -> by congruence.
      eexists. rewrite lookup_insert_eq. split; [done|].
      cbn [mark_triggered batches].
      rewrite reported_status_after_dispatch by done.
      destruct (reported_status (batches ing)) eqn:Hold; simpl; try lia.
      apply reported_status_cases in Hold.
      pose proof (Forall_lookup_1 _ _ _ _ Hold Hk). congruence.
    + exists ing. by rewrite lookup_insert_ne.
  - rewrite Hi. destruct (decide (key = ingId)) as [->|Hne].
    + assert (ing0 = ing) as -> by congruence.
      eexists. rewrite lookup_insert_eq. split; [done|].
      cbn [mark_completed batches].
      rewrite reported_status_after_done by done.
      destruct (forallb _ _); [|done].
      destruct (reported_status (batches ing)); simpl; lia.
    + exists ing. by rewrite lookup_insert_ne.
Qed.

(** X12.  The status that [getIngestionStatus] reports for an ingestion
    never moves back: along any sequence of transitions from a reachable
    state, an ingestion that was reported stays registered and its reported
    status only moves forward in the order yet_to_start, triggered,
    completed. *)
Theorem reported_status_never_regresses es : ∀ s s' key view,
  reachable s → run es s = Some s' →
  getIngestionStatus key (svc s) = Some view →
  ∃ view',
    getIngestionStatus key (svc s') = Some view' ∧
    (status_rank (overall_status view)
     ≤ status_rank (overall_status view'))%nat.
Proof.
  induction es as [|e es IH]; intros s s' key view Hreach Hrun Hget;
    cbn [run] in Hrun.
  - inversion Hrun; subst s'. by exists view.
  - destruct (step e s) as [s1|] eqn:Hstep; [|done].
    destruct (ingestions (svc s) !! key) as [ing|] eqn:Hing;
      [|by unfold getIngestionStatus in Hget; rewrite Hing in Hget].
    rewrite (getIngestionStatus_reported _ _ _ Hing) in Hget.
    inversion Hget; subst view; clear Hget. cbn [overall_status].
    destruct (reported_status_step e s s1 key ing
                (reachable_consistent s Hreach) Hstep Hing)
      as (ing1 & Hing1 & Hle1).
    destruct (IH s1 s' key _ (reachable_step _ _ _ Hreach Hstep) Hrun
                (getIngestionStatus_reported _ _ _ Hing1))
      as (view' & Hget' & Hle').
    exists view'. split; [done|]. cbn [overall_status] in Hle'. lia.
Qed.

Lemma reported_status_never_regresses_witness :
  ∃ view',
    getIngestionStatus "0" (svc (state_after
      [CreateIngestion (ints [1; 2; 3; 4; 5; 6]) LOW 0 0; Immediate;
       LoopTurn; BatchDone "0" 0])) = Some view' ∧
    overall_status view' = triggered.
Proof.
  assert (reachable first_turn_ahead) as Hreach.
  { apply reachable_state_after. vm_compute. eauto. }
  destruct (reported_status_never_regresses [LoopTurn; BatchDone "0" 0]
              first_turn_ahead _ "0" _ Hreach eq_refl eq_refl)
    as (view' & Hget & _).
  exists view'. split; [exact Hget|].
  vm_compute in Hget. by inversion Hget.
Defined.

(** X14.  The earlier [getIngestionStatus] (of the ingestion-granular
    service) and the later one report the same status except for an
    ingestion that has a completed batch, no triggered batch and a batch
    that is not completed: there the earlier one reports [yet_to_start]
    and the later one [triggered]. *)
Theorem legacy_status_differs_between_batches key sv ing :
  ingestions sv !! key = Some ing →
  ∃ old new,
    Legacy.getIngestionStatus key (ingestions sv) = Some old ∧
    getIngestionStatus key sv = Some new ∧
    Legacy.l_batches old = batches ing ∧
    (Legacy.l_status old ≠ overall_status new ↔
       Exists (λ b, status b = completed) (batches ing) ∧
       ¬ Exists (λ b, status b = triggered) (batches ing) ∧
       ¬ Forall (λ b, status b = completed) (batches ing)) ∧
    (Legacy.l_status old ≠ overall_status new →
     Legacy.l_status old = yet_to_start ∧ overall_status new = triggered).
Proof.
  intros Hing. unfold Legacy.getIngestionStatus, getIngestionStatus.
  rewrite Hing. eexists _, _. split; [reflexivity|]. split; [reflexivity|].
  cbn [Legacy.l_batches Legacy.l_status overall_status].
  split; [done|].
  pose proof (all_completed_Forall (batches ing)) as Hall.
  pose proof (some_status_Exists triggered (batches ing)) as Htr.
  pose proof (some_status_Exists completed (batches ing)) as Hco.
  destruct (bool_iff_cases _ _ Hall) as [[E1 HA]|[E1 HA]];
    destruct (bool_iff_cases _ _ Htr) as [[E2 HT]|[E2 HT]];
    destruct (bool_iff_cases _ _ Hco) as [[E3 HC]|[E3 HC]];
    rewrite E1, ?E2, ?E3; simpl;
    (split; [split; [intros ?|intros (? & ? & ?)]|intros ?]);
    try done; try tauto.
Qed.

Lemma legacy_status_differs_between_batches_witness :
  ∃ old new,
    Legacy.getIngestionStatus "0"
      (ingestions (svc (state_after
         [CreateIngestion (ints [1; 2; 3; 4; 5; 6]) LOW 0 0; Immediate;
          LoopTurn; BatchDone "0" 0]))) = Some old ∧
    getIngestionStatus "0" (svc (state_after
         [CreateIngestion (ints [1; 2; 3; 4; 5; 6]) LOW 0 0; Immediate;
          LoopTurn; BatchDone "0" 0])) = Some new ∧
    Legacy.l_status old = yet_to_start ∧ overall_status new = triggered.
Proof.
  destruct (legacy_status_differs_between_batches "0"
              (svc (state_after
                 [CreateIngestion (ints [1; 2; 3; 4; 5; 6]) LOW 0 0;
                  Immediate; LoopTurn; BatchDone "0" 0])) _ eq_refl)
    as (old & new & Hold & Hnew & _ & _ & Hdiff).
  exists old, new. split; [exact Hold|]. split; [exact Hnew|].
  apply Hdiff. vm_compute in Hold, Hnew.
  inversion Hold; inversion Hnew. by vm_compute.
Defined.

(** ** A request and the query that follows it *)

Lemma post_ingest_accepted ids_v priority_v t1 t2 s resp s' :
  post_ingest ids_v priority_v t1 t2 s = (resp, s') →
  http_status resp ≠ 400%nat →
  ∃ l p,
    ids_v = JArray l ∧ l ≠ [] ∧ priority_literal priority_v = Some p ∧
    resp = {| http_status := 200;
              body := IngestBody (submit l p t1 t2 s).1 |} ∧
    s' = (submit l p t1 t2 s).2.
Proof.
  unfold post_ingest. intros Hpost Hcode.
  destruct ids_v as [| | | | | |l|];
    try (inversion Hpost; subst resp; by destruct Hcode).
  case_decide as Hlen; [inversion Hpost; subst resp; by destruct Hcode|].
  destruct (priority_literal priority_v) as [p|];
    [|inversion Hpost; subst resp; by destruct Hcode].
  destruct (existsb id_rejected l);
    [inversion Hpost; subst resp; by destruct Hcode|].
  exists l, p. destruct (submit l p t1 t2 s) as [ingId s1].
  inversion Hpost; subst resp s'. split_and!; [done| |done..].
  by intros ->.
Qed.

Lemma ids_after_set_status (bs : list Batch) k b st :
  bs !! k = Some b →
  ids <$> <[k := set_status st b]> bs = ids <$> bs.
Proof.
  intros Hk. rewrite list_fmap_insert. apply list_insert_id.
  by rewrite list_lookup_fmap, Hk.
Qed.

(** A transition keeps every record registered, with the ids of its
    batches as they are. *)
Lemma step_keeps_ids e s s' key ing :
  consistent s → step e s = Some s' →
  ingestions (svc s) !! key = Some ing →
  ∃ ing',
    ingestions (svc s') !! key = Some ing' ∧
    ids <$> batches ing' = ids <$> batches ing.
Proof.
  intros Hs Hstep Hing.
  destruct (step_cases e s s' Hs Hstep)
    as [(Hsame & _)
       |[(l & p & t1 & t2 & _ & ->)
        |[(item & rest & ing0 & k & b & _ & _ & Hing0 & Hfind & _ & Hmap & _)
         |(ingId & k & ing0 & b & _ & _ & Hing0 & Hk & _ & Hmap & _)]]].
  - exists ing. by rewrite Hsame.
  - destruct (submit_unfold l p t1 t2 s) as (bs & _ & ->). fields.
    exists ing. split; [|done]. rewrite lookup_insert_ne; [done|].
    intros <-. by rewrite (consistent_fresh_key s Hs) in Hing.
  - rewrite Hmap. apply list_find_Some in Hfind as (Hk & _).
    destruct (decide (key = ingestionId item)) as [->|Hne].
    + rewrite lookup_insert_eq. eexists. split; [reflexivity|].
      assert (ing0 = ing) as -> by congruence.
      cbn [mark_triggered batches]. by apply ids_after_set_status.
    + exists ing. by rewrite lookup_insert_ne.
  - rewrite Hmap.
    destruct (decide (key = ingId)) as [->|Hne].
    + rewrite lookup_insert_eq. eexists. split; [reflexivity|].
      assert (ing0 = ing) as -> by congruence.
      cbn [mark_completed batches]. by apply ids_after_set_status.
    + exists ing. by rewrite lookup_insert_ne.
Qed.

Lemma run_keeps_record es : ∀ s s' key ing,
  consistent s → run es s = Some s' →
  ingestions (svc s) !! key = Some ing →
  ∃ ing',
    ingestions (svc s') !! key = Some ing' ∧
    ids <$> batches ing' = ids <$> batches ing ∧
    (status_rank (reported_status (batches ing))
     ≤ status_rank (reported_status (batches ing')))%nat.
Proof.
  induction es as [|e es IH]; intros s s' key ing Hs Hrun Hing;
    cbn [run] in Hrun.
  - inversion Hrun; subst s'. by exists ing.
  - destruct (step e s) as [s1|] eqn:Hstep; [|done].
    destruct (step_keeps_ids e s s1 key ing Hs Hstep Hing)
      as (ing1 & Hing1 & Hids1).
    destruct (reported_status_step e s s1 key ing Hs Hstep Hing)
      as (ing1' & Hing1' & Hle1).
    assert (ing1' = ing1) as -> by congruence.
    destruct (IH s1 s' key ing1 (consistent_step e s s1 Hs Hstep) Hrun Hing1)
      as (ing' & Hing' & Hids' & Hle').
    exists ing'. split; [done|]. split; [congruence|lia].
Qed.

(** A submission to an idle service with an empty queue, followed by its
    [setImmediate] callback and the loop turn that the callback starts:
    a batch of the new ingestion is dispatched. *)
Lemma first_turn_dispatches_submission l p t1 t2 s sa sb :
  consistent s → l ≠ [] →
  loop s = Idle → batchQueue (svc s) = [] →
  step Immediate (submit l p t1 t2 s).2 = Some sa →
  step LoopTurn sa = Some sb →
  consistent sb ∧
  ∃ ing,
    ingestions (svc sb) !! (submit l p t1 t2 s).1 = Some ing ∧
    reported_status (batches ing) = triggered.
Proof.
  intros Hs Hne Hidle Hempty Himm Hturn.
  pose proof (consistent_submit l p t1 t2 s Hs) as Hs1.
  pose proof (consistent_step _ _ _ Hs1 Himm) as Hsa.
  pose proof (consistent_step _ _ _ Hsa Hturn) as Hsb.
  split; [done|].
  destruct (submit_unfold l p t1 t2 s) as (bs & Hbs & Heq).
  rewrite Heq in Himm |- *. clear Heq. fields.
  assert (bs ≠ []) as Hbsne.
  { intros ->.
    destruct (createBatches_spec l (S (uuids s))) as (bs' & Hbs' & Hcat & _).
    rewrite Hbs in Hbs'. inversion Hbs'; subst bs'. by apply Hne. }
  rewrite Hempty in Himm. cbn [app] in Himm.
  unfold step in Himm. cbn [immediates loop] in Himm.
  rewrite decide_True in Himm by (rewrite Hidle; done).
  inversion Himm; subst sa; clear Himm.
  unfold step in Hturn.
  destruct (decide _) as [_|]; [|done].
  set (sa := startProcessing _) in *.
  assert (ingestions (svc sa) =
            <[uuidv4 (uuids s) :=
                {| ing_id := uuidv4 (uuids s); ing_priority := p;
                   batches := bs; ing_createdAt := t1;
                   ing_status := yet_to_start |}]> (ingestions (svc s)) ∧
          batchQueue (svc sa) ≡ₚ queue_item (uuidv4 (uuids s)) p t2 <$> bs)
    as [Hmap Hqueue].
  { unfold sa, startProcessing. fields.
    destruct (negb _ && _); fields;
      (split; [done|apply array_sort_Permutation]). }
  destruct (array_sort (batchQueue (svc sa))) as [|item rest] eqn:Hsort.
  { apply (f_equal length) in Hsort. rewrite array_sort_length in Hsort.
    rewrite Hqueue, length_fmap in Hsort. by destruct bs. }
  destruct (consistent_turn_dispatches sa item rest Hsa Hsort)
    as (ing0 & k & b & Hing0 & Hfind & _ & Hdisp).
  rewrite Hdisp in Hturn. inversion Hturn; subst sb; clear Hturn. fields.
  assert (ingestionId item = uuidv4 (uuids s)) as Hitem.
  { assert (item ∈ queue_item (uuidv4 (uuids s)) p t2 <$> bs) as Hin.
    { rewrite <- Hqueue, <- (array_sort_Permutation (batchQueue (svc sa))),
        Hsort. by left. }
    apply list_elem_of_fmap in Hin as (b' & -> & _). done. }
  rewrite Hitem. rewrite lookup_insert_eq. eexists. split; [reflexivity|].
  cbn [mark_triggered batches].
  apply list_find_Some in Hfind as (Hk & _).
  by apply reported_status_after_dispatch.
Qed.

(** X13.  A request answered by the ingest router with anything but 400 is
    answered 200 with an ingestion id.  On a reachable state that id was
    unknown before (a query for it got 404), and at every later state a
    query for it is answered 200 with that id and with batches whose ids
    are the ids of the request in the order of the request.  The status in
    the answer depends on how far the loop has come.  If the service was
    idle with an empty queue when the request arrived, and the
    [setImmediate] callback and the loop turn it starts are what happens
    next (as they are unless another request is handled in between), a
    batch of the ingestion is dispatched in that turn: from then on the
    status in the answer is [triggered] or [completed], never
    [yet_to_start].  If the request arrives while no loop turn is running,
    the state it leaves is reachable again. *)
Theorem post_then_get_status ids_v priority_v t1 t2 s resp s1 es s2 :
  reachable s →
  post_ingest ids_v priority_v t1 t2 s = (resp, s1) →
  http_status resp ≠ 400%nat →
  run es s1 = Some s2 →
  ∃ ingId l,
    resp = {| http_status := 200; body := IngestBody ingId |} ∧
    ids_v = JArray l ∧
    http_status (get_status ingId s).1 = 404%nat ∧
    (∃ view,
       get_status ingId s2 =
         ({| http_status := 200; body := StatusBody view |}, s2) ∧
       ingestion_id view = ingId ∧
       concat (view_ids <$> view_batches view) = l ∧
       (loop s = Idle → batchQueue (svc s) = [] →
        (∃ es', es = Immediate :: LoopTurn :: es') →
        overall_status view = triggered ∨ overall_status view = completed)) ∧
    (loop s ≠ Running → now s ≤ t1 → t1 ≤ t2 → reachable s1).
Proof.
  intros Hreach Hpost Hcode Hrun.
  destruct (post_ingest_accepted _ _ _ _ _ _ _ Hpost Hcode)
    as (l & p & -> & Hne & Hp & -> & ->).
  pose proof (reachable_consistent s Hreach) as Hs.
  pose proof (consistent_submit l p t1 t2 s Hs) as Hs1.
  exists (submit l p t1 t2 s).1, l. split_and!; [done|done| | |].
  - destruct (submit_unfold l p t1 t2 s) as (bs & _ & ->). fields.
    unfold get_status, getIngestionStatus.
    by rewrite (consistent_fresh_key s Hs).
  - assert (∃ ing1,
              ingestions (svc (submit l p t1 t2 s).2)
                !! (submit l p t1 t2 s).1 = Some ing1 ∧
              concat (ids <$> batches ing1) = l) as (ing1 & Hing1 & Hcat1).
    { destruct (submit_unfold l p t1 t2 s) as (bs & Hbs & ->). fields.
      destruct (createBatches_spec l (S (uuids s)))
        as (bs' & Hbs' & Hcat & _).
      assert (bs' = bs) as -> by congruence.
      eexists. split; [apply lookup_insert_eq|done]. }
    destruct (run_keeps_record es _ s2 _ ing1 Hs1 Hrun Hing1)
      as (ing2 & Hing2 & Hids2 & _).
    eexists. unfold get_status.
    rewrite (getIngestionStatus_reported _ _ _ Hing2).
    split; [reflexivity|].
    cbn [ingestion_id overall_status view_batches].
    split_and!; [done| |].
    + rewrite <- list_fmap_compose.
      change (view_ids ∘ batch_view) with ids. by rewrite Hids2.
    + intros Hidle Hempty (es' & ->). cbn [run] in Hrun.
      destruct (step Immediate (submit l p t1 t2 s).2) as [sa|] eqn:Himm;
        [|done].
      destruct (step LoopTurn sa) as [sb|] eqn:Hturn; [|done].
      destruct (first_turn_dispatches_submission l p t1 t2 s sa sb
                  Hs Hne Hidle Hempty Himm Hturn)
        as (Hsb & ingb & Hingb & Hstb).
      destruct (run_keeps_record es' sb s2 _ ingb Hsb Hrun Hingb)
        as (ing2' & Hing2' & _ & Hle).
      assert (ing2' = ing2) as -> by congruence.
      rewrite Hstb in Hle. cbn [status_rank] in Hle.
      destruct (reported_status (batches ing2)); cbn [status_rank] in Hle;
        [lia|by left|by right].
  - intros Hloop Hn Ht. apply (reachable_step (CreateIngestion l p t1 t2) s);
      [done|]. unfold step. by rewrite decide_True.
Qed.

Lemma post_then_get_status_witness :
  ∃ ingId s2 view,
    (post_ingest (JArray (ints [1; 2; 3; 4; 5])) (JString "MEDIUM") 0 0
       init).1 = {| http_status := 200; body := IngestBody ingId |} ∧
    run [Immediate; LoopTurn]
      (post_ingest (JArray (ints [1; 2; 3; 4; 5])) (JString "MEDIUM") 0 0
         init).2 = Some s2 ∧
    (get_status ingId s2).1
      = {| http_status := 200; body := StatusBody view |} ∧
    view_ids <$> view_batches view = [ints [1; 2; 3]; ints [4; 5]] ∧
    (overall_status view = triggered ∨ overall_status view = completed) ∧
    view_status <$> view_batches view = [triggered; yet_to_start].
Proof.
  destruct (run [Immediate; LoopTurn]
              (post_ingest (JArray (ints [1; 2; 3; 4; 5])) (JString "MEDIUM")
                 0 0 init).2) as [s2|] eqn:Hrun; [|by vm_compute in Hrun].
  destruct (post_then_get_status (JArray (ints [1; 2; 3; 4; 5]))
              (JString "MEDIUM") 0 0 init _ _ [Immediate; LoopTurn] s2
              reachable_init eq_refl)
    as (ingId & l & Hresp & _ & _ & (view & Hget & _ & _ & Hst) & _);
    [by vm_compute|exact Hrun|].
  exists ingId, s2, view. split; [exact Hresp|]. split; [done|].
  vm_compute in Hresp. inversion Hresp; subst ingId.
  split; [exact (f_equal fst Hget)|].
  assert (overall_status view = triggered ∨ overall_status view = completed)
    as Hstatus by (apply Hst; [done|done|by eexists]).
  vm_compute in Hrun. inversion Hrun; subst s2.
  vm_compute in Hget. inversion Hget as [Hview]. rewrite <- Hview in Hstatus.
  split_and!; [done|exact Hstatus|done].
Defined.

(** ** The rate-limit wait *)

Lemma step_clock_monotone e s s' : step e s = Some s' → now s ≤ now s'.
Proof.
  intros Hstep.
  destruct e as [d|l p t1 t2|ingId| | | |ingId k]; unfold step in Hstep.
  - case_decide; [|done]. inversion Hstep; subst s'. simpl. lia.
  - case_decide as Hen; [|done]. inversion Hstep; subst s'.
    destruct (submit_unfold l p t1 t2 s) as (bs & _ & ->). fields. lia.
  - case_decide; [|done]. by inversion Hstep; subst s'.
  - destruct (immediates s); [done|]. case_decide; [|done].
    inversion Hstep; subst s'; clear Hstep. unfold startProcessing. fields.
    by destruct (negb _ && _).
  - case_decide; [|done].
    destruct (loop_turn (svc s)); by inversion Hstep; subst s'.
  - destruct (loop s); try done. case_decide; [|done].
    by inversion Hstep; subst s'.
  - case_decide; [|done]. by inversion Hstep; subst s'.
Qed.

Lemma run_clock_monotone es : ∀ s s', run es s = Some s' → now s ≤ now s'.
Proof.
  induction es as [|e es IH]; intros s s' Hrun; cbn [run] in Hrun.
  - by inversion Hrun.
  - destruct (step e s) as [s1|] eqn:Hstep; [|done].
    apply step_clock_monotone in Hstep. apply IH in Hrun. lia.
Qed.

(** A sleeping loop is woken by its timer only, and not before the delay
    has passed. *)
Lemma sleeping_until_timer e s s' wake :
  consistent s → loop s = Sleeping wake → step e s = Some s' →
  dispatches s' = dispatches s ∧
  (loop s' = Sleeping wake ∨
   (e = TimerFires ∧ wake ≤ now s ∧ loop s' = Running)).
Proof.
  intros Hs Hloop Hstep. pose proof (processing_flag s Hs) as Hflag.
  rewrite Hloop in Hflag.
  destruct e as [d|l p t1 t2|ingId| | | |ingId k]; unfold step in Hstep.
  - case_decide; [|done]. inversion Hstep; subst s'. split; [done|by left].
  - case_decide; [|done]. inversion Hstep; subst s'.
    destruct (submit_unfold l p t1 t2 s) as (bs & _ & ->). fields.
    split; [done|by left].
  - case_decide; [|done]. inversion Hstep; subst s'. split; [done|by left].
  - destruct (immediates s); [done|]. case_decide; [|done].
    inversion Hstep; subst s'; clear Hstep. unfold startProcessing. fields.
    rewrite Hflag. simpl. split; [done|by left].
  - rewrite Hloop in Hstep. by rewrite decide_False in Hstep.
  - rewrite Hloop in Hstep. case_decide; [|done].
    inversion Hstep; subst s'. split; [done|]. right. done.
  - case_decide; [|done]. inversion Hstep; subst s'. split; [done|by left].
Qed.

Lemma asleep_or_delay_passed es wake : ∀ s s',
  reachable s → loop s = Sleeping wake → run es s = Some s' →
  (loop s' = Sleeping wake ∧ dispatches s' = dispatches s) ∨ wake ≤ now s'.
Proof.
  induction es as [|e es IH]; intros s s' Hreach Hloop Hrun;
    cbn [run] in Hrun.
  - inversion Hrun; subst s'. by left.
  - destruct (step e s) as [s1|] eqn:Hstep; [|done].
    destruct (sleeping_until_timer e s s1 wake
                (reachable_consistent s Hreach) Hloop Hstep)
      as [Hd [Hstill|(_ & Hpassed & _)]].
    + destruct (IH s1 s' (reachable_step _ _ _ Hreach Hstep) Hstill Hrun)
        as [[Hl Hd']|Hp]; [left|by right].
      split; [done|congruence].
    + right. apply step_clock_monotone in Hstep.
      apply run_clock_monotone in Hrun. lia.
Qed.

(** X16.  How the loop waits.  On a reachable state: the loop goes to sleep
    only in a turn that has just dispatched a batch and left the queue
    non-empty, and then for exactly [RATE_LIMIT_MS]; a sleeping loop is
    woken only by its timer, not before the delay has passed; and a batch
    is dispatched only in a turn of the loop, which afterwards sleeps if
    the queue is non-empty and otherwise goes on to leave the loop. *)
Theorem rate_limit_wait_rule e s s' :
  reachable s → step e s = Some s' →
  (∀ wake, loop s' = Sleeping wake → loop s ≠ Sleeping wake →
     e = LoopTurn ∧ wake = now s + RATE_LIMIT_MS ∧
     dispatches s' = now s :: dispatches s ∧ batchQueue (svc s') ≠ []) ∧
  (∀ wake, loop s = Sleeping wake → loop s' ≠ Sleeping wake →
     e = TimerFires ∧ wake ≤ now s ∧ loop s' = Running) ∧
  (dispatches s' ≠ dispatches s →
     e = LoopTurn ∧ dispatches s' = now s :: dispatches s ∧
     (batchQueue (svc s') ≠ [] ↔ loop s' = Sleeping (now s + RATE_LIMIT_MS)) ∧
     (batchQueue (svc s') = [] ↔ loop s' = Running)).
Proof.
  intros Hreach Hstep. split_and!.
  - intros wake Hafter Hbefore.
    by destruct (loop_sleeps_only_after_dispatch e s s' wake Hstep Hafter).
  - intros wake Hbefore Hafter.
    destruct (sleeping_until_timer e s s' wake
                (reachable_consistent s Hreach) Hbefore Hstep)
      as [_ [Hstill|H]]; done.
  - intros Hd.
    assert (e = LoopTurn) as ->.
    { destruct e; try done; destruct Hd;
        (eapply dispatches_change_only_in_turn; [exact Hstep|done]). }
    split; [done|].
    pose proof Hstep as Hstep'. unfold step in Hstep'.
    case_decide; [|done].
    destruct (loop_turn (svc s)) as [sv|sv|item k wait sv] eqn:Hturn;
      try (inversion Hstep'; subst s'; by destruct Hd).
    by apply (dispatch_waits_iff_queue_nonempty s s' item k wait sv).
Qed.

Lemma rate_limit_wait_rule_witness :
  loop first_turn_ahead = Running ∧
  ∃ s', step LoopTurn first_turn_ahead = Some s' ∧
        loop s' = Sleeping (now first_turn_ahead + RATE_LIMIT_MS) ∧
        dispatches s' = [0].
Proof.
  split; [reflexivity|]. eexists. split; [reflexivity|].
  assert (reachable first_turn_ahead) as Hreach.
  { apply reachable_state_after. vm_compute. eauto. }
  destruct (rate_limit_wait_rule LoopTurn first_turn_ahead _ Hreach eq_refl)
    as (_ & _ & Hd).
  destruct Hd as (_ & Hlog & Hsleep & _); [by vm_compute|].
  split; [|exact Hlog]. apply Hsleep. by vm_compute.
Defined.

(** X17.  Inside one activation of the loop the rate limit is kept: when a
    dispatch is followed by the wait, the next dispatch comes at least
    [RATE_LIMIT_MS] later, whatever happens in between (submissions,
    queries, completions of batches). *)
Theorem next_dispatch_after_wait_respects_limit es s s1 s2 wake
    item k wait sv' :
  reachable s → loop s = Sleeping wake →
  run es s = Some s1 →
  dispatches s1 = dispatches s →
  loop_turn (svc s1) = TurnDispatch item k wait sv' →
  step LoopTurn s1 = Some s2 →
  ∃ t_earlier earlier,
    dispatches s2 = now s1 :: t_earlier :: earlier ∧
    t_earlier + RATE_LIMIT_MS ≤ now s1.
Proof.
  intros Hreach Hloop Hrun Hsame Hturn Hstep.
  destruct (asleep_since_latest_dispatch s wake Hreach Hloop) as [earlier Hd].
  destruct (dispatch_waits_iff_queue_nonempty _ _ _ _ _ _ Hturn Hstep)
    as (Hd2 & _).
  exists (wake - RATE_LIMIT_MS), earlier. rewrite Hd2, Hsame, Hd.
  split; [done|].
  destruct (asleep_or_delay_passed es wake s s1 Hreach Hloop Hrun)
    as [[Hstill _]|Hpassed]; [|lia].
  unfold step in Hstep. rewrite Hstill in Hstep.
  by rewrite decide_False in Hstep.
Qed.

Lemma next_dispatch_after_wait_respects_limit_witness :
  ∃ s2 t_earlier earlier,
    step LoopTurn (state_after high_arrives_late) = Some s2 ∧
    dispatches s2
      = now (state_after high_arrives_late) :: t_earlier :: earlier ∧
    t_earlier + RATE_LIMIT_MS ≤ now (state_after high_arrives_late).
Proof.
  assert (reachable first_dispatch_done) as Hreach.
  { apply reachable_state_after. vm_compute. eauto. }
  assert (∃ s2, step LoopTurn (state_after high_arrives_late) = Some s2)
    as [s2 Hstep] by (vm_compute; eauto).
  assert (∃ item k wait sv',
            loop_turn (svc (state_after high_arrives_late))
              = TurnDispatch item k wait sv')
    as (item & k & wait & sv' & Hturn) by (vm_compute; eauto 6).
  destruct (next_dispatch_after_wait_respects_limit
              [Tick 10; CreateIngestion (ints [7]) HIGH 10 10; Immediate;
               Tick 4990; TimerFires]
              first_dispatch_done (state_after high_arrives_late) s2 5000
              item k wait sv' Hreach)
    as (t & earlier & Hd & Hle);
    [by vm_compute|by vm_compute|by vm_compute|exact Hturn|exact Hstep|].
  by exists s2, t, earlier.
Defined.

(** ** Records and queue items *)

(** X18.  In every reachable state a record is stored under its own id,
    which is a uuid already drawn; its batches have pairwise distinct ids;
    and every queue item of the ingestion carries the ingestion's priority
    and the one enqueue time of its items. *)
Theorem records_and_items_are_well_kept s key ing :
  reachable s →
  ingestions (svc s) !! key = Some ing →
  ing_id ing = key ∧
  (∃ n, (n < uuids s)%nat ∧ key = uuidv4 n) ∧
  NoDup (batchId <$> batches ing) ∧
  ∀ e, e ∈ batchQueue (svc s) → ingestionId e = key →
       priority e = ing_priority ing ∧
       ∀ e', e' ∈ batchQueue (svc s) → ingestionId e' = key →
             createdAt e' = createdAt e.
Proof.
  intros Hreach Hing.
  pose proof (reachable_well_kept s Hreach) as Hw.
  pose proof (reachable_consistent s Hreach) as Hs.
  split_and!.
  - by apply (record_ids s Hw).
  - by apply (keys_drawn s Hs key ing).
  - by apply (batch_ids_distinct s Hw key).
  - intros e He Hkey. split.
    + apply (item_priority s Hw); [done|]. by rewrite Hkey.
    + intros e' He' Hkey'. apply (item_time s Hw); [done..|]. congruence.
Qed.

Lemma records_and_items_are_well_kept_witness :
  ∃ ing,
    ingestions (svc (state_after high_arrives_late)) !! "3" = Some ing ∧
    ing_id ing = "3" ∧ ing_priority ing = HIGH.
Proof.
  assert (reachable (state_after high_arrives_late)) as Hreach.
  { apply reachable_state_after. vm_compute. eauto. }
  destruct (records_and_items_are_well_kept _ "3" _ Hreach eq_refl)
    as (Hid & _).
  eexists. split_and!; [reflexivity|exact Hid|reflexivity].
Defined.

(** ** Completion *)

Lemma completed_iff_nothing_left s key ing :
  reachable s →
  ingestions (svc s) !! key = Some ing →
  (Forall (λ b, status b = completed) (batches ing) ↔
   (∀ e, e ∈ batchQueue (svc s) → ingestionId e ≠ key) ∧
   (∀ k, (key, k) ∉ inflight s)).
Proof.
  intros Hreach Hing.
  pose proof (reachable_consistent s Hreach) as Hs.
  pose proof (reachable_tracked s Hreach) as Ht.
  split.
  - intros Hall. split.
    + intros e He Hkey.
      destruct (queue_pending s Hs e He) as (b & Hb & Hst).
      apply item_batch_Some in Hb as (ing' & k & Hing' & Hfind).
      rewrite Hkey in Hing'. assert (ing' = ing) as -> by congruence.
      apply list_find_Some in Hfind as (Hk & _).
      pose proof (Forall_lookup_1 _ _ _ _ Hall Hk). congruence.
    + intros k Hin.
      destruct (inflight_started s Hs key k Hin) as (ing' & b & Hing' & Hk & _).
      assert (ing' = ing) as -> by congruence.
      apply (triggered_inflight s Ht key ing k b Hing Hk) in Hin.
      pose proof (Forall_lookup_1 _ _ _ _ Hall Hk). congruence.
  - intros [Hqueue Hflight]. apply Forall_lookup. intros k b Hk.
    destruct (status b) eqn:Hst; [| |done].
    + destruct (pending_batch_has_item s key ing k b Hreach Hing Hk Hst)
        as (e & He & Hkey & _).
      by destruct (Hqueue e He).
    + apply (triggered_inflight s Ht key ing k b Hing Hk) in Hst.
      by destruct (Hflight k).
Qed.

(** X19.  In every reachable state an ingestion is reported [completed]
    exactly when nothing of it is left to do: the queue holds no item of
    it and no [processBatch] promise of it is pending. *)
Theorem completed_when_nothing_is_left s key ing :
  reachable s →
  ingestions (svc s) !! key = Some ing →
  ∃ view,
    getIngestionStatus key (svc s) = Some view ∧
    (overall_status view = completed ↔
     (∀ e, e ∈ batchQueue (svc s) → ingestionId e ≠ key) ∧
     (∀ k, (key, k) ∉ inflight s)).
Proof.
  intros Hreach Hing.
  eexists. split; [by apply getIngestionStatus_reported|].
  cbn [overall_status].
  rewrite <- (completed_iff_nothing_left s key ing Hreach Hing).
  apply reported_status_cases.
Qed.

Lemma completed_when_nothing_is_left_witness :
  ∃ view,
    getIngestionStatus "0" (svc single_batch_done) = Some view ∧
    overall_status view = completed.
Proof.
  assert (reachable single_batch_done) as Hreach.
  { apply reachable_state_after. vm_compute. eauto. }
  destruct (completed_when_nothing_is_left _ "0" _ Hreach eq_refl)
    as (view & Hget & Hiff).
  exists view. split; [exact Hget|]. apply Hiff. split.
  - intros e He. vm_compute in He. by apply elem_of_nil in He.
  - intros k Hk. vm_compute in Hk. by apply elem_of_nil in Hk.
Defined.

(** Settling the pending promises of an idle system with an empty queue. *)
Lemma settle_inflight n : ∀ s,
  reachable s → loop s = Idle → batchQueue (svc s) = [] →
  length (inflight s) = n →
  ∃ es s',
    run es s = Some s' ∧
    Forall (λ e, ∃ key k, e = BatchDone key k) es ∧
    batchQueue (svc s') = [] ∧ loop s' = Idle ∧ inflight s' = [] ∧
    dispatches s' = dispatches s.
Proof.
  induction n as [n IH] using lt_wf_ind. intros s Hreach Hloop Hq Hlen.
  destruct (inflight s) as [|[key k] rest] eqn:Hfl.
  - exists [], s. split_and!; done.
  - assert (∃ s1, step (BatchDone key k) s = Some s1 ∧ loop s1 = Idle ∧
                  batchQueue (svc s1) = [] ∧
                  inflight s1 = filter (λ c, c ≠ (key, k)) rest ∧
                  dispatches s1 = dispatches s)
      as (s1 & Hstep & Hl1 & Hq1 & Hf1 & Hd1).
    { eexists. unfold step. rewrite decide_True.
      2:{ rewrite Hloop, Hfl. split; [done|by left]. }
      split; [reflexivity|]. fields. split_and!; [done| | |done].
      - unfold batch_done.
        destruct (ingestions (svc s) !! key) as [ing|]; [|done].
        by destruct (batches ing !! k).
      - rewrite Hfl, filter_cons_False; [done|]. by intros H; apply H. }
    destruct (IH (length (inflight s1))) with (s := s1)
      as (es & s' & Hrun & Hes & Hq' & Hl' & Hf' & Hd'); try done.
    + rewrite Hf1, <- Hlen. simpl.
      pose proof (length_filter (λ c, c ≠ (key, k)) rest). lia.
    + by eapply reachable_step.
    + exists (BatchDone key k :: es), s'. cbn [run]. rewrite Hstep.
      split_and!; [done| |done|done|done|congruence].
      constructor; [by eexists _, _|done].
Qed.

(** X20.  No ingestion can get stuck: from every reachable state there is a
    run, without any further submission, after which the queue is empty,
    the loop is idle, no promise is pending, and every registered ingestion
    is reported [completed]. *)
Theorem every_ingestion_can_complete s :
  reachable s →
  ∃ es s',
    run es s = Some s' ∧
    Forall (λ e, ∀ l p t1 t2, e ≠ CreateIngestion l p t1 t2) es ∧
    batchQueue (svc s') = [] ∧ loop s' = Idle ∧ inflight s' = [] ∧
    ∀ key view,
      getIngestionStatus key (svc s') = Some view →
      overall_status view = completed.
Proof.
  intros Hreach.
  destruct (loop_drains_queue_run s Hreach)
    as (es1 & s1 & Hrun1 & Hes1 & Hq1 & Hl1 & _).
  pose proof (reachable_run es1 s s1 Hreach Hrun1) as Hreach1.
  destruct (settle_inflight _ s1 Hreach1 Hl1 Hq1 eq_refl)
    as (es2 & s2 & Hrun2 & Hes2 & Hq2 & Hl2 & Hf2 & _).
  pose proof (reachable_run es2 s1 s2 Hreach1 Hrun2) as Hreach2.
  exists (es1 ++ es2), s2. split_and!; [|apply Forall_app; split|done..|].
  - by rewrite run_app, Hrun1.
  - eapply Forall_impl; [exact Hes1|]. intros e He l p t1 t2 ->. done.
  - eapply Forall_impl; [exact Hes2|].
    intros e (key & k & ->) l p t1 t2. done.
  - intros key view Hget.
    destruct (ingestions (svc s2) !! key) as [ing|] eqn:Hing;
      [|by unfold getIngestionStatus in Hget; rewrite Hing in Hget].
    rewrite (getIngestionStatus_reported _ _ _ Hing) in Hget.
    inversion Hget; subst view. cbn [overall_status].
    apply reported_status_cases.
    apply (completed_iff_nothing_left s2 key ing Hreach2 Hing). split.
    + intros e He. rewrite Hq2 in He. by apply elem_of_nil in He.
    + intros k Hk. rewrite Hf2 in Hk. by apply elem_of_nil in Hk.
Qed.

Lemma every_ingestion_can_complete_witness :
  ∃ es s',
    run es (state_after high_arrives_late) = Some s' ∧
    batchQueue (svc s') = [] ∧ loop s' = Idle ∧ inflight s' = [].
Proof.
  destruct (every_ingestion_can_complete (state_after high_arrives_late))
    as (es & s' & Hrun & _ & Hq & Hl & Hf & _).
  - apply reachable_state_after. vm_compute. eauto.
  - exists es, s'. split_and!; done.
Defined.

(** ** The earlier service: its loop and the rate limit *)

Lemma legacy_check_all_completed_flag key sv :
  Legacy.l_isProcessing (Legacy.check_all_completed key sv)
    = Legacy.l_isProcessing sv.
Proof.
  unfold Legacy.check_all_completed.
  destruct (Legacy.l_ingestions sv !! key) as [ing|]; [|done].
  by destruct (forallb _ _).
Qed.

Lemma legacy_batch_returns_flag key k sv :
  Legacy.l_isProcessing (Legacy.batch_returns key k sv)
    = Legacy.l_isProcessing sv.
Proof.
  unfold Legacy.batch_returns.
  destruct (Legacy.l_ingestions sv !! key) as [ing|]; [|done].
  destruct (batches ing !! k); [|done].
  by rewrite legacy_check_all_completed_flag.
Qed.

(** A turn that stays in the loop leaves [isProcessing] as it is. *)
Lemma legacy_loop_turn_flag sv :
  match Legacy.loop_turn sv with
  | Legacy.TurnExit _ | Legacy.TurnThrows _ => True
  | Legacy.TurnSkip sv' | Legacy.TurnAwaitBatch _ _ sv'
  | Legacy.TurnWait sv' =>
      Legacy.l_isProcessing sv' = Legacy.l_isProcessing sv
  end.
Proof.
  unfold Legacy.loop_turn.
  destruct (Legacy.processingQueue sv) as [|q0 q]; [done|].
  destruct (Legacy.processingQueue (Legacy.sortQueue sv)) as [|head rest];
    [done|].
  destruct (Legacy.l_ingestions (Legacy.sortQueue sv) !! _) as [ing|];
    [|done].
  destruct (list_find _ _) as [[k b]|]; [done|].
  by rewrite legacy_check_all_completed_flag.
Qed.

Lemma legacy_createIngestion_flag l p t1 t2 u sv :
  Legacy.l_isProcessing (Legacy.createIngestion l p t1 t2 u sv).1.2
    = Legacy.l_isProcessing sv.
Proof.
  unfold Legacy.createIngestion. by destruct (createBatches l (S u)).
Qed.

Lemma legacy_latest_before_mono ts a b :
  a ≤ b → Legacy.latest_before ts a → Legacy.latest_before ts b.
Proof. destruct ts; simpl; [done|lia]. Qed.

Lemma legacy_paced_step e s s' :
  Legacy.paced s → Legacy.step e s = Some s' → Legacy.paced s'.
Proof.
  intros [Htrace Hflag Hlatest] Hstep.
  destruct e as [d|l p t1 t2| | |]; unfold Legacy.step in Hstep.
  - case_decide; [|done]. inversion Hstep; subst s'; clear Hstep.
    split; simpl; [done|done|].
    destruct (Legacy.loop s); try done;
      (eapply legacy_latest_before_mono; [|exact Hlatest]); lia.
  - case_decide as Hen; [|done]. destruct Hen as (Hrun & Hn & Ht).
    pose proof (legacy_createIngestion_flag l p t1 t2 (Legacy.uuids s)
                  (Legacy.svc s)) as Hsame.
    destruct (Legacy.createIngestion l p t1 t2 (Legacy.uuids s)
                (Legacy.svc s)) as [[ingId sv'] u'].
    simpl in Hsame.
    destruct (Legacy.l_isProcessing sv') eqn:Hp; simpl in Hstep.
    + inversion Hstep; subst s'; clear Hstep. split; simpl; [done|done|].
      destruct (Legacy.loop s); try done;
        (eapply legacy_latest_before_mono; [|exact Hlatest]); lia.
    + assert (Legacy.loop s = Legacy.Idle) as Hidle.
      { destruct (decide (Legacy.loop s = Legacy.Idle)) as [|Hne]; [done|].
        apply Hflag in Hne. congruence. }
      rewrite Hidle in Hlatest.
      destruct (bool_decide (Legacy.processingQueue sv' = []));
        simpl in Hstep; inversion Hstep; subst s'; clear Hstep;
        (split; simpl; [done|done|]); rewrite ?Hidle;
        (eapply legacy_latest_before_mono; [|exact Hlatest]); lia.
  - destruct (Legacy.loop s) eqn:Hloop; try done.
    pose proof (legacy_loop_turn_flag (Legacy.svc s)) as Hsame.
    assert (Legacy.l_isProcessing (Legacy.svc s) = true) as Hp
      by (by apply Hflag).
    destruct (Legacy.loop_turn (Legacy.svc s)) as [sv|sv|sv|key k sv|sv];
      inversion Hstep; subst s'; clear Hstep; split; simpl; try done;
      try congruence.
    all: first
      [ by (destruct (Legacy.dispatches s) as [|t ts]; [done|];
            simpl in Hlatest; split; [lia|done])
      | lia
      | by (eapply legacy_latest_before_mono; [|exact Hlatest];
            unfold RATE_LIMIT_MS; lia) ].
  - destruct (Legacy.loop s) eqn:Hloop; try done.
    inversion Hstep; subst s'; clear Hstep. split; simpl; [done| |].
    + intros _. rewrite legacy_batch_returns_flag. by apply Hflag.
    + eapply legacy_latest_before_mono; [|exact Hlatest]. lia.
  - destruct (Legacy.loop s) eqn:Hloop; try done.
    case_decide; [|done]. inversion Hstep; subst s'; clear Hstep.
    split; simpl; [done|by intros; apply Hflag|].
    eapply legacy_latest_before_mono; [|exact Hlatest]. lia.
Qed.

Lemma legacy_reachable_paced s : Legacy.reachable s → Legacy.paced s.
Proof.
  induction 1 as [|e s s' _ IH Hstep]; [by split|].
  by eapply legacy_paced_step.
Qed.

Lemma legacy_reachable_run es : ∀ s s',
  Legacy.reachable s → Legacy.run es s = Some s' → Legacy.reachable s'.
Proof.
  induction es as [|e es IH]; intros s s' Hs Hrun; simpl in Hrun.
  - by inversion Hrun; subst.
  - destruct (Legacy.step e s) as [s1|] eqn:Hstep; [|done].
    eapply IH; [|done]. by eapply Legacy.reachable_step.
Qed.

(** X21.  The earlier, ingestion-granular [processQueue] keeps the rate
    limit throughout: it waits [RATE_LIMIT_MS] after every batch, also
    after the last one and before it leaves the loop, and [isProcessing]
    stays set meanwhile; so in every reachable state any two consecutive
    dispatches lie at least [RATE_LIMIT_MS] apart, and while the loop is
    idle the latest dispatch lies at least [RATE_LIMIT_MS] back. *)
Theorem legacy_loop_keeps_rate_limit s :
  Legacy.reachable s →
  Legacy.spaced (Legacy.dispatches s) ∧
  (Legacy.loop s = Legacy.Idle →
   Legacy.latest_before (Legacy.dispatches s)
     (Legacy.now s - RATE_LIMIT_MS)) ∧
  (Legacy.loop s ≠ Legacy.Idle →
   Legacy.l_isProcessing (Legacy.svc s) = true).
Proof.
  intros Hreach. destruct (legacy_reachable_paced s Hreach) as [H1 H2 H3].
  split_and!; [done| |done]. intros Hidle. by rewrite Hidle in H3.
Qed.

Lemma legacy_loop_keeps_rate_limit_witness :
  ∃ s, Legacy.run Legacy.two_quick_requests Legacy.init = Some s ∧
       Legacy.dispatches s = [5000; 0] ∧
       Legacy.spaced (Legacy.dispatches s).
Proof.
  destruct (Legacy.run Legacy.two_quick_requests Legacy.init) as [s|] eqn:Hrun;
    [|by vm_compute in Hrun].
  exists s. split; [done|]. split.
  - vm_compute in Hrun. by inversion Hrun.
  - apply legacy_loop_keeps_rate_limit.
    by apply (legacy_reachable_run Legacy.two_quick_requests Legacy.init);
      [constructor|].
Defined.

Lemma legacy_sort_insert_Permutation x l : Legacy.sort_insert x l ≡ₚ x :: l.
Proof.
  induction l as [|y l IH]; simpl; [done|].
  case_decide; [done|]. rewrite IH. apply Permutation_swap.
Qed.

Lemma legacy_array_sort_Permutation l : Legacy.array_sort l ≡ₚ l.
Proof.
  induction l as [|x l IH]; simpl; [done|].
  by rewrite legacy_sort_insert_Permutation, IH.
Qed.

Lemma legacy_check_all_completed_other key key' sv :
  key' ≠ key →
  Legacy.l_ingestions (Legacy.check_all_completed key' sv) !! key
    = Legacy.l_ingestions sv !! key ∧
  (∀ P : Legacy.QueueItem → Prop,
     Forall P (Legacy.processingQueue sv) →
     Forall P (Legacy.processingQueue (Legacy.check_all_completed key' sv))).
Proof.
  intros Hne. unfold Legacy.check_all_completed.
  destruct (Legacy.l_ingestions sv !! key') as [ing|]; [|done].
  destruct (forallb _ _); [|done]. simpl. split.
  - by rewrite lookup_insert_ne.
  - intros P HP. destruct (Legacy.processingQueue sv); [done|].
    by apply Forall_cons in HP as [_ HP].
Qed.

Lemma legacy_stranded_step key e s s' :
  Legacy.stranded key s → Legacy.step e s = Some s' →
  Legacy.stranded key s'.
Proof.
  intros [(ing & Hing & Hne & Hpending) Hqueue Hloop Hdrawn] Hstep.
  destruct e as [d|l p t1 t2| | |]; unfold Legacy.step in Hstep.
  - case_decide; [|done]. inversion Hstep; subst s'. split; simpl; eauto.
  - case_decide; [|done].
    assert (∃ sv' u',
              Legacy.createIngestion l p t1 t2 (Legacy.uuids s) (Legacy.svc s)
                = (uuidv4 (Legacy.uuids s), sv', u') ∧
              (Legacy.uuids s ≤ u')%nat ∧
              Legacy.l_ingestions sv' !! key = Some ing ∧
              Forall (λ e, Legacy.li_ingestionId e ≠ key)
                (Legacy.processingQueue sv'))
      as (sv' & u' & Heq & Hu & Hing' & Hq').
    { unfold Legacy.createIngestion.
      destruct (createBatches_spec l (S (Legacy.uuids s)))
        as (bs & -> & _).
      eexists _, _. split; [reflexivity|]. simpl. split_and!.
      - lia.
      - rewrite lookup_insert_ne; [done|]. by apply Hdrawn.
      - rewrite legacy_array_sort_Permutation. apply Forall_app. split; [done|].
        constructor; [|done]. simpl. by apply Hdrawn. }
    rewrite Heq in Hstep.
    destruct (negb _ && _); inversion Hstep; subst s'; clear Hstep;
      split; simpl; eauto; try (intros n Hn; apply Hdrawn; lia).
  - destruct (Legacy.loop s) eqn:Hl; try done.
    assert (match Legacy.loop_turn (Legacy.svc s) with
            | Legacy.TurnExit sv | Legacy.TurnThrows sv | Legacy.TurnSkip sv
            | Legacy.TurnWait sv =>
                Legacy.l_ingestions sv !! key = Some ing ∧
                Forall (λ e, Legacy.li_ingestionId e ≠ key)
                  (Legacy.processingQueue sv)
            | Legacy.TurnAwaitBatch key' _ sv =>
                key' ≠ key ∧
                Legacy.l_ingestions sv !! key = Some ing ∧
                Forall (λ e, Legacy.li_ingestionId e ≠ key)
                  (Legacy.processingQueue sv)
            end) as Hturn.
    { unfold Legacy.loop_turn.
      destruct (Legacy.processingQueue (Legacy.svc s)) as [|q0 q] eqn:Hq;
        [by simpl|].
      assert (Forall (λ e, Legacy.li_ingestionId e ≠ key)
                (Legacy.processingQueue (Legacy.sortQueue (Legacy.svc s))))
        as Hsorted.
      { simpl. by rewrite legacy_array_sort_Permutation, Hq. }
      destruct (Legacy.processingQueue (Legacy.sortQueue (Legacy.svc s)))
        as [|head rest] eqn:Hs; [split; [done|by rewrite Hs]|].
      apply Forall_cons in Hsorted as [Hhead Hrest]. simpl.
      destruct (Legacy.l_ingestions (Legacy.svc s) !! Legacy.li_ingestionId head)
        as [r|]; [|done].
      destruct (list_find _ _) as [[k b]|].
      - simpl. rewrite lookup_insert_ne by done.
        split_and!; [done|done|]. by constructor.
      - destruct (legacy_check_all_completed_other key
                    (Legacy.li_ingestionId head)
                    {| Legacy.l_ingestions :=
                         <[Legacy.li_ingestionId head :=
                             if decide (ing_status r = yet_to_start)
                             then Legacy.set_ing_status triggered r else r]>
                           (Legacy.l_ingestions (Legacy.svc s));
                       Legacy.processingQueue := head :: rest;
                       Legacy.l_isProcessing :=
                         Legacy.l_isProcessing (Legacy.svc s) |} Hhead)
          as [Hkeep Hq'].
        rewrite Hkeep. simpl. rewrite lookup_insert_ne by done.
        split; [done|]. apply Hq'. simpl. by constructor. }
    destruct (Legacy.loop_turn (Legacy.svc s)) as [sv|sv|sv|key' k sv|sv];
      inversion Hstep; subst s'; clear Hstep;
      (split; simpl; [exists ing; split_and!; tauto|tauto| |done]);
      try done.
    intros k' Heq. inversion Heq. tauto.
  - destruct (Legacy.loop s) as [| |key' k|] eqn:Hl; try done.
    inversion Hstep; subst s'; clear Hstep.
    assert (key' ≠ key) as Hkey by (intros ->; by apply (Hloop k)).
    assert (Legacy.l_ingestions (Legacy.batch_returns key' k (Legacy.svc s))
              !! key = Some ing ∧
            Forall (λ e, Legacy.li_ingestionId e ≠ key)
              (Legacy.processingQueue
                 (Legacy.batch_returns key' k (Legacy.svc s)))) as [H1 H2].
    { unfold Legacy.batch_returns.
      destruct (Legacy.l_ingestions (Legacy.svc s) !! key') as [r|]; [|done].
      destruct (batches r !! k) as [b|]; [|done].
      destruct (legacy_check_all_completed_other key key'
                  {| Legacy.l_ingestions :=
                       <[key' :=
                           Legacy.set_batches
                             (<[k := set_status completed b]> (batches r)) r]>
                         (Legacy.l_ingestions (Legacy.svc s));
                     Legacy.processingQueue :=
                       Legacy.processingQueue (Legacy.svc s);
                     Legacy.l_isProcessing :=
                       Legacy.l_isProcessing (Legacy.svc s) |} Hkey)
        as [Hkeep Hq'].
      rewrite Hkeep. simpl. rewrite lookup_insert_ne by done.
      split; [done|]. by apply Hq'. }
    split; simpl; [by exists ing|done|done|done].
  - destruct (Legacy.loop s) eqn:Hl; try done. case_decide; [|done].
    inversion Hstep; subst s'. split; simpl; eauto.
Qed.

Lemma legacy_stranded_run key es : ∀ s s',
  Legacy.stranded key s → Legacy.run es s = Some s' →
  Legacy.stranded key s'.
Proof.
  induction es as [|e es IH]; intros s s' Hs Hrun; simpl in Hrun.
  - by inversion Hrun; subst.
  - destruct (Legacy.step e s) as [s1|] eqn:Hstep; [|done].
    eapply IH; [|done]. by eapply legacy_stranded_step.
Qed.

(** X22.  The earlier service never gets back to an ingestion that has no
    queue item.  If an ingestion is registered with all its batches
    [yet_to_start], no item of [processingQueue] names it and the loop is
    not awaiting one of its batches, then whatever happens afterwards
    (further submissions included) none of its batches is dispatched:
    [getIngestionStatus] reports it [yet_to_start], with every batch
    [yet_to_start], for ever.  Such a state is reached when a HIGH ingestion
    is submitted while the last batch of a LOW one is being processed:
    [shift()] then removes the HIGH item, which heads the queue. *)
Theorem legacy_ingestion_without_item_is_never_processed key s es s' :
  Legacy.stranded key s →
  Legacy.run es s = Some s' →
  ∃ view,
    Legacy.getIngestionStatus key (Legacy.l_ingestions (Legacy.svc s'))
      = Some view ∧
    Legacy.l_status view = yet_to_start ∧
    Legacy.l_batches view ≠ [] ∧
    Forall (λ b, status b = yet_to_start) (Legacy.l_batches view).
Proof.
  intros Hstranded Hrun.
  destruct (legacy_stranded_run key es s s' Hstranded Hrun)
    as [(ing & Hing & Hne & Hpending) _ _ _].
  unfold Legacy.getIngestionStatus. rewrite Hing. eexists.
  split; [reflexivity|]. simpl. split_and!; [|done|done].
  assert (existsb (has_status triggered) (batches ing) = false) as ->.
  { apply not_true_is_false. intros H. apply some_status_Exists in H.
    apply Exists_exists in H as (b & Hb & Hst).
    rewrite Forall_forall in Hpending. specialize (Hpending b Hb).
    congruence. }
  assert (forallb (has_status completed) (batches ing) = false) as ->; [|done].
  apply not_true_is_false. intros H. apply all_completed_Forall in H.
  destruct (batches ing) as [|b bs]; [done|].
  apply Forall_cons in H as [H _]. apply Forall_cons in Hpending as [H' _].
  congruence.
Qed.

Lemma legacy_ingestion_without_item_is_never_processed_witness :
  ∃ s,
    Legacy.run Legacy.high_arrives_during_batch Legacy.init = Some s ∧
    Legacy.loop s = Legacy.Idle ∧
    Legacy.processingQueue (Legacy.svc s) = [] ∧
    ∀ es s',
      Legacy.run es s = Some s' →
      ∃ view,
        Legacy.getIngestionStatus "2" (Legacy.l_ingestions (Legacy.svc s'))
          = Some view ∧
        Legacy.l_status view = yet_to_start ∧
        Legacy.l_batches view ≠ [] ∧
        Forall (λ b, status b = yet_to_start) (Legacy.l_batches view).
Proof.
  destruct (Legacy.run Legacy.high_arrives_during_batch Legacy.init)
    as [s|] eqn:Hrun; [|by vm_compute in Hrun].
  exists s. split; [done|].
  vm_compute in Hrun. inversion Hrun as [Hs]; clear Hrun. subst s.
  split_and!; [done|done|].
  intros es s'.
  apply legacy_ingestion_without_item_is_never_processed.
  split; simpl.
  - exists {| ing_id := "2"; ing_priority := HIGH;
              batches := [ {| batchId := "3"; ids := ints [2];
                              status := yet_to_start |} ];
              ing_createdAt := 50; ing_status := yet_to_start |}.
    split; [by vm_compute|]. cbn [batches]. split; [done|].
    by repeat constructor.
  - constructor.
  - done.
  - intros n Hn Heq. apply (uuidv4_inj n 2) in Heq. lia.
Defined.
